(** * gauth: the binary codec, the registration and exchange clients,
      and the login proxy's capture state

    A shallow embedding of the Go packages [proto], [config], [auth],
    [checkin] and [server], one Rocq module per package, followed by the
    properties proved of them.

    Conventions.
    - Go's [int], [int64] and [uint64] are [Z] with the wrap-around of each
      conversion written out ([i64], [u64]).
    - [[]byte] is [list byte]; a Go [string] is a Rocq [string] (a sequence
      of bytes in both).
    - [map[string]interface{}] is [gmap string value], where [value] lists
      the dynamic types the code switches on.
    - A function returning [(T, error)] returns an [outcome T]; a run-time
      panic is the outcome [Panic]. *)

From Stdlib Require Import ZArith Lia List Ascii String Bool.
From Stdlib.Strings Require Import Byte.
From stdpp Require Import gmap strings list fin_maps sorting pretty.

Local Open Scope Z_scope.

(** ** Machine integers and bytes *)

Definition u64 (z : Z) : Z := z mod 2 ^ 64.
Definition u32 (z : Z) : Z := z mod 2 ^ 32.
Definition i64 (z : Z) : Z := (z + 2 ^ 63) mod 2 ^ 64 - 2 ^ 63.

Definition byte_val (b : byte) : Z := Z.of_N (Byte.to_N b).
Definition byte_of (z : Z) : byte :=
  match Byte.of_N (Z.to_N (z mod 256)) with
  | Some b => b
  | None => Byte.x00
  end.

Definition len {A} (l : list A) : Z := Z.of_nat (length l).
Definition strlen (s : string) : Z := Z.of_nat (String.length s).

(** [s[lo:hi]] on a slice, for [0 <= lo <= hi <= len s]. *)
Definition slice {A} (s : list A) (lo hi : Z) : list A :=
  take (Z.to_nat (hi - lo)) (drop (Z.to_nat lo) s).

(** ** Outcomes of fallible calls *)

Inductive error :=
| InvalidFieldNumber (key : string)
| UnsupportedAutoType (fieldNum : Z)
| CannotConvert
| FieldContext (fieldNum : Z) (e : error)
| ExpectedBool (fieldNum : Z)
| ExpectedString (fieldNum : Z)
| ExpectedBytes (fieldNum : Z)
| ExpectedMessage (fieldNum : Z)
| UnknownType (fieldNum : Z) (t : string)
| FailedTag (pos : Z)
| FailedVarint (fieldNum : Z)
| ShortFixed64 (fieldNum : Z)
| FailedLength (fieldNum : Z)
| ShortBytes (fieldNum : Z)
| ShortFixed32 (fieldNum : Z)
| UnknownWireType (wireType fieldNum : Z).

Inductive outcomeOf (E A : Type) :=
| Ok (a : A)
| Err (e : E)
| Panic            (* run-time panic: slice bounds out of range *)
| Fuel.            (* the recursion budget of the model ran out *)
Arguments Ok {E A} a.
Arguments Err {E A} e.
Arguments Panic {E A}.
Arguments Fuel {E A}.

#[global] Instance outcome_bind {E} : MBind (outcomeOf E) := fun A B k o =>
  match o with
  | Ok a => k a
  | Err e => Err e
  | Panic => Panic
  | Fuel => Fuel
  end.

(** The outcomes of the codec carry a codec [error]. *)
Abbreviation codecError := error.
Abbreviation outcome := (outcomeOf error).

(** [for _, x := range xs { if err := body(x); err != nil { return err } }]
    over a state [s]. *)
Definition forEach {A S} (body : S -> A -> outcome S) (xs : list A) (s : S)
  : outcome S :=
  foldl (fun acc x => s' ← acc; body s' x) (Ok s) xs.

(** ** encoding/binary *)

Module binary.

Definition MaxVarintLen64 : Z := 10.

(** [PutUvarint]: the loop writes at most [MaxVarintLen64] bytes for a
    [uint64]; [n] counts the room left in the buffer. *)
Fixpoint PutUvarint_loop (n : nat) (x : Z) : list byte :=
  match n with
  | O => []
  | S n' =>
      if 0x80 <=? x
      then byte_of (Z.lor (x mod 256) 0x80) :: PutUvarint_loop n' (Z.shiftr x 7)
      else [byte_of x]
  end.

Definition PutUvarint (x : Z) : list byte :=
  PutUvarint_loop (Z.to_nat MaxVarintLen64) x.

(** [Uvarint]: value and number of bytes read; [n = 0] when the buffer is
    too small, [n < 0] on overflow. *)
Fixpoint Uvarint_loop (buf : list byte) (x s i : Z) : Z * Z :=
  match buf with
  | [] => (0, 0)
  | b :: rest =>
      if i =? MaxVarintLen64 then (0, - (i + 1))
      else if byte_val b <? 0x80 then
        if (i =? MaxVarintLen64 - 1) && (1 <? byte_val b)
        then (0, - (i + 1))
        else (Z.lor x (u64 (Z.shiftl (byte_val b) s)), i + 1)
      else
        Uvarint_loop rest
          (Z.lor x (u64 (Z.shiftl (Z.land (byte_val b) 0x7f) s)))
          (s + 7) (i + 1)
  end.

Definition Uvarint (buf : list byte) : Z * Z := Uvarint_loop buf 0 0 0.

(** [LittleEndian.Uint64] and [LittleEndian.Uint32] on a slice of exactly
    8 and 4 bytes. *)
Definition LittleEndian (b : list byte) : Z :=
  foldr (fun x acc => Z.lor (byte_val x) (Z.shiftl acc 8)) 0 b.

End binary.

(** ** strconv and fmt *)

Module strconv.

Definition digit (c : ascii) : option Z :=
  let n := Z.of_N (N_of_ascii c) in
  if (48 <=? n) && (n <=? 57) then Some (n - 48) else None.

Fixpoint digits (s : string) (acc : Z) : option Z :=
  match s with
  | EmptyString => Some acc
  | String c r =>
      match digit c with
      | Some d => digits r (10 * acc + d)
      | None => None
      end
  end.

(** [Atoi s]: the parsed [int] and whether an error was returned.  On a
    syntax error the value is 0; out of range it is the nearest bound. *)
Definition Atoi (s : string) : Z * bool :=
  let '(neg, body) :=
    match s with
    | String "+"%char r => (false, r)
    | String "-"%char r => (true, r)
    | _ => (false, s)
    end in
  match body with
  | EmptyString => (0, true)
  | _ =>
      match digits body 0 with
      | None => (0, true)
      | Some n =>
          if neg
          then (if 2 ^ 63 <? n then (- 2 ^ 63, true) else (- n, false))
          else (if 2 ^ 63 - 1 <? n then (2 ^ 63 - 1, true) else (n, false))
      end
  end.

(** [fmt.Sprintf("%d", n)]. *)
Definition Itoa (n : Z) : string := pretty n.

End strconv.

(** ** Package proto: the schema-driven encoder and the schema-less decoder *)

Module proto.

(** *** Wire types and schema *)

Definition WireVarint : Z := 0.
Definition WireFixed64 : Z := 1.
Definition WireBytes : Z := 2.
Definition WireFixed32 : Z := 5.

Definition FieldType := string.
Definition TypeInt : FieldType := "int".
Definition TypeString : FieldType := "string".
Definition TypeBytes : FieldType := "bytes".
Definition TypeMessage : FieldType := "message".
Definition TypeBool : FieldType := "bool".

(** [MessageDef] is [None] for a nil map. *)
#[warnings="-register-all"] Inductive FieldDef := {
  Type_ : FieldType;
  Repeated : bool;
  MessageDef : option (gmap string FieldDef)
}.

Abbreviation MessageType := (gmap string FieldDef).

(** *** Dynamically typed values ([interface{}])

    One constructor per dynamic type the codec distinguishes.  A
    [float64] is carried as the [int64] Go's conversion [int64(val)]
    gives it, the only observation the encoder makes of one; a
    [float32] is carried as its IEEE-754 bits.  [VOther] stands for any
    other dynamic type (nil included).  Values are finite trees: a Go map
    that contains itself, directly or through other maps, has no
    counterpart here. *)
#[warnings="-register-all"] Inductive value :=
| VInt (n : Z)
| VInt32 (n : Z)
| VInt64 (n : Z)
| VUint64 (n : Z)
| VFloat64 (toInt : Z)
| VFloat32 (bits : Z)
| VBool (b : bool)
| VString (s : string)
| VBytes (b : list byte)
| VMap (m : gmap string value)
| VSlice (l : list value)
| VOther.

Abbreviation Message := (gmap string value).

(** Nesting depth of a message, the recursion budget of [Encode]. *)
Fixpoint depth (v : value) : nat :=
  match v with
  | VMap m => S (map_fold (fun _ v' acc => Nat.max (depth v') acc) O m)
  | VSlice l => S (foldr (fun v' acc => Nat.max (depth v') acc) O l)
  | _ => O
  end.

(** *** Encoder (writes are appended to the buffer [buf]) *)

Definition writeVarint (buf : list byte) (value : Z) : list byte :=
  buf ++ binary.PutUvarint value.

Definition writeTag (buf : list byte) (fieldNum : Z) (wireType : Z)
  : list byte :=
  writeVarint buf (Z.lor (u64 (i64 (Z.shiftl fieldNum 3))) (u64 wireType)).

Definition toInt64 (v : value) : outcome Z :=
  match v with
  | VInt val => Ok (i64 val)
  | VInt32 val => Ok (i64 val)
  | VInt64 val => Ok val
  | VUint64 val => Ok (i64 val)
  | VFloat64 val => Ok val
  | VBool val => if val then Ok 1 else Ok 0
  | _ => Err CannotConvert
  end.

Definition wrapField {A} (fieldNum : Z) (o : outcome A) : outcome A :=
  match o with
  | Err e => Err (FieldContext fieldNum e)
  | _ => o
  end.

(** Keys in ascending field-number order.  Go ranges over the map in an
    order that changes from run to run, and [sort.Slice] is not stable: for
    keys that parse to the same number the model keeps one of the orders
    Go may produce.  It is the only order when no two keys stand for the
    same number ([ordering.untied] below). *)
Definition keyLe (a b : string) : Prop :=
  (strconv.Atoi a).1 <= (strconv.Atoi b).1.

#[global] Instance keyLe_dec a b : Decision (keyLe a b).
Proof. unfold keyLe. apply _. Defined.

Definition sortedKeys (msg : Message) : list string :=
  merge_sort keyLe (map fst (map_to_list msg)).

Section encode.
(** The recursive call of [encodeMessage] on a nested message. *)
Variable encodeMessage : list byte -> Message -> MessageType ->
                         outcome (list byte).

Definition encodeTypedField (buf : list byte) (fieldNum : Z)
    (value : value) (def : FieldDef) : outcome (list byte) :=
  if String.eqb (Type_ def) TypeInt then
    v ← wrapField fieldNum (toInt64 value);
    let buf := writeTag buf fieldNum WireVarint in
    Ok (writeVarint buf (u64 v))
  else if String.eqb (Type_ def) TypeBool then
    match value with
    | VBool v =>
        let buf := writeTag buf fieldNum WireVarint in
        if v then Ok (writeVarint buf 1) else Ok (writeVarint buf 0)
    | _ => Err (ExpectedBool fieldNum)
    end
  else if String.eqb (Type_ def) TypeString then
    match value with
    | VString s =>
        let buf := writeTag buf fieldNum WireBytes in
        let buf := writeVarint buf (u64 (strlen s)) in
        Ok (buf ++ list_byte_of_string s)
    | _ => Err (ExpectedString fieldNum)
    end
  else if String.eqb (Type_ def) TypeBytes then
    b ← match value with
        | VBytes v => Ok v
        | VString v => Ok (list_byte_of_string v)
        | _ => Err (ExpectedBytes fieldNum)
        end;
    let buf := writeTag buf fieldNum WireBytes in
    let buf := writeVarint buf (u64 (len b)) in
    Ok (buf ++ b)
  else if String.eqb (Type_ def) TypeMessage then
    match value with
    | VMap msgMap =>
        let schema : MessageType :=
          match MessageDef def with
          | Some d => d
          | None => ∅
          end in
        nested ← wrapField fieldNum (encodeMessage [] msgMap schema);
        let buf := writeTag buf fieldNum WireBytes in
        let buf := writeVarint buf (u64 (len nested)) in
        Ok (buf ++ nested)
    | _ => Err (ExpectedMessage fieldNum)
    end
  else Err (UnknownType fieldNum (Type_ def)).

Definition encodeAutoField (buf : list byte) (fieldNum : Z)
    (value : value) : outcome (list byte) :=
  match value with
  | VInt v | VInt32 v | VInt64 v | VUint64 v =>
      let buf := writeTag buf fieldNum WireVarint in
      Ok (writeVarint buf (u64 v))
  | VBool v =>
      let buf := writeTag buf fieldNum WireVarint in
      if v then Ok (writeVarint buf 1) else Ok (writeVarint buf 0)
  | VString v =>
      let buf := writeTag buf fieldNum WireBytes in
      let buf := writeVarint buf (u64 (strlen v)) in
      Ok (buf ++ list_byte_of_string v)
  | VBytes v =>
      let buf := writeTag buf fieldNum WireBytes in
      let buf := writeVarint buf (u64 (len v)) in
      Ok (buf ++ v)
  | VMap v =>
      nested ← encodeMessage [] v ∅;
      let buf := writeTag buf fieldNum WireBytes in
      let buf := writeVarint buf (u64 (len nested)) in
      Ok (buf ++ nested)
  | _ => Err (UnsupportedAutoType fieldNum)
  end.

(** The body of the loop over the sorted keys. *)
Definition encodeKey (msg : Message) (schema : MessageType)
    (buf : list byte) (key : string) : outcome (list byte) :=
  let value := default VOther (msg !! key) in
  let '(fieldNum, err) := strconv.Atoi key in
  if err then Err (InvalidFieldNumber key) else
  match schema !! key with
  | None => encodeAutoField buf fieldNum value
  | Some fieldDef =>
      if Repeated fieldDef then
        let items :=
          match value with
          | VSlice items => items
          | _ => [value]
          end in
        forEach (fun buf item => encodeTypedField buf fieldNum item fieldDef)
                items buf
      else encodeTypedField buf fieldNum value fieldDef
  end.
End encode.

Fixpoint encodeMessage (fuel : nat) (buf : list byte) (msg : Message)
    (schema : MessageType) : outcome (list byte) :=
  match fuel with
  | O => Fuel
  | S fuel' =>
      forEach (encodeKey (encodeMessage fuel') msg schema)
              (sortedKeys msg) buf
  end.

Definition Encode (message : Message) (schema : MessageType)
  : outcome (list byte) :=
  encodeMessage (depth (VMap message)) [] message schema.




(** *** Decoder *)

Definition addToResult (result : Message) (key : string) (value : value)
  : Message :=
  match result !! key with
  | Some existing =>
      match existing with
      | VSlice v => <[key := VSlice (v ++ [value])]> result
      | v => <[key := VSlice [v; value]]> result
      end
  | None => <[key := value]> result
  end.

Definition isLikelyString (data : list byte) : bool :=
  if len data =? 0 then true
  else forallb (fun b => negb ((byte_val b <? 0x20)
                               && negb (byte_val b =? 10)
                               && negb (byte_val b =? 13)
                               && negb (byte_val b =? 9))) data.

(** What a length-delimited payload becomes, given the outcome of the
    nested decoding attempt. *)
Definition classify (nested : outcome Message) (payload : list byte)
  : outcome value :=
  match nested with
  | Panic => Panic
  | Fuel => Fuel
  | Ok m =>
      if (0 <? size m)%nat then Ok (VMap m)
      else if isLikelyString payload
           then Ok (VString (string_of_list_byte payload))
           else Ok (VBytes payload)
  | Err _ =>
      if isLikelyString payload
      then Ok (VString (string_of_list_byte payload))
      else Ok (VBytes payload)
  end.

(** The loop of [DecodeMessage] from position [pos] with the fields read so
    far in [result].  Each iteration, and the nested call on a payload,
    spends one unit of [fuel]. *)
Fixpoint decodeLoop (fuel : nat) (data : list byte) (pos : Z)
    (result : Message) : outcome Message :=
  match fuel with
  | O => Fuel
  | S fuel' =>
      if negb (pos <? len data) then Ok result else
      let '(tag, n) := binary.Uvarint (drop (Z.to_nat pos) data) in
      if n <=? 0 then Err (FailedTag pos) else
      let pos := pos + n in
      let fieldNum := i64 (Z.shiftr tag 3) in
      let wireType := Z.land tag 0x7 in
      let key := strconv.Itoa fieldNum in
      if wireType =? WireVarint then
        let '(val, n) := binary.Uvarint (drop (Z.to_nat pos) data) in
        if n <=? 0 then Err (FailedVarint fieldNum) else
        let pos := pos + n in
        decodeLoop fuel' data pos (addToResult result key (VInt64 (i64 val)))
      else if wireType =? WireFixed64 then
        if len data <? pos + 8 then Err (ShortFixed64 fieldNum) else
        let val := binary.LittleEndian (slice data pos (pos + 8)) in
        let pos := pos + 8 in
        decodeLoop fuel' data pos (addToResult result key (VUint64 val))
      else if wireType =? WireBytes then
        let '(length, n) := binary.Uvarint (drop (Z.to_nat pos) data) in
        if n <=? 0 then Err (FailedLength fieldNum) else
        let pos := pos + n in
        let hi := i64 (pos + i64 length) in
        if len data <? hi then Err (ShortBytes fieldNum) else
        if hi <? pos then Panic else
        let payload := slice data pos hi in
        let pos := hi in
        v ← classify (decodeLoop fuel' payload 0 ∅) payload;
        decodeLoop fuel' data pos (addToResult result key v)
      else if wireType =? WireFixed32 then
        if len data <? pos + 4 then Err (ShortFixed32 fieldNum) else
        let val := binary.LittleEndian (slice data pos (pos + 4)) in
        let pos := pos + 4 in
        decodeLoop fuel' data pos (addToResult result key (VFloat32 val))
      else Err (UnknownWireType wireType fieldNum)
  end.

Definition DecodeMessage (data : list byte) : outcome Message :=
  decodeLoop (S (length data)) data 0 ∅.

(** *** The check-in schema *)

Definition field (t : FieldType) : FieldDef :=
  {| Type_ := t; Repeated := false; MessageDef := None |}.
Definition repeated (t : FieldType) : FieldDef :=
  {| Type_ := t; Repeated := true; MessageDef := None |}.
Definition message (rep : bool) (d : list (string * FieldDef)) : FieldDef :=
  {| Type_ := TypeMessage; Repeated := rep; MessageDef := Some (list_to_map d) |}.

Definition CheckinRequestSchema : MessageType :=
  list_to_map [
    ("2", field TypeInt);
    ("3", field TypeString);
    ("4", message false [
       ("1", message false [
          ("1", field TypeString);
          ("2", field TypeString);
          ("3", field TypeString);
          ("4", field TypeString);
          ("5", field TypeString);
          ("6", field TypeString);
          ("7", field TypeInt);
          ("9", field TypeString);
          ("10", field TypeInt);
          ("11", field TypeString);
          ("12", field TypeString);
          ("13", field TypeString);
          ("14", field TypeBool)]);
       ("2", field TypeInt);
       ("3", message true [
          ("1", field TypeString);
          ("2", field TypeString);
          ("3", field TypeInt)]);
       ("6", field TypeString);
       ("7", field TypeString);
       ("8", field TypeString);
       ("9", field TypeInt)]);
    ("6", field TypeString);
    ("7", field TypeInt);
    ("9", repeated TypeString);
    ("10", field TypeString);
    ("11", repeated TypeString);
    ("12", field TypeString);
    ("14", field TypeInt);
    ("15", repeated TypeString);
    ("16", field TypeString);
    ("17", field TypeString);
    ("18", message false [
       ("1", field TypeInt);
       ("2", field TypeInt);
       ("3", field TypeInt);
       ("4", field TypeInt);
       ("5", field TypeBool);
       ("6", field TypeBool);
       ("7", field TypeInt);
       ("8", field TypeInt);
       ("9", repeated TypeString);
       ("10", repeated TypeString);
       ("11", repeated TypeString);
       ("12", field TypeInt);
       ("13", field TypeInt);
       ("14", repeated TypeString);
       ("15", repeated TypeString)]);
    ("19", repeated TypeString);
    ("20", field TypeInt);
    ("21", field TypeString);
    ("22", field TypeInt)
  ]%string.

End proto.


(** ** unicode/utf8, unicode and strings, as far as the code calls them *)

Module utf8.

Definition RuneError : Z := 0xFFFD.
Definition RuneSelf : Z := 0x80.
Definition UTFMax : Z := 4.

Definition bytes (s : string) : list Z :=
  map (fun c => Z.of_N (N_of_ascii c)) (list_ascii_of_string s).

(** [first[s0]] as (size, lowest and highest accepted second byte); [None]
    for a byte that starts no multi-byte sequence. *)
Definition first (s0 : Z) : option (Z * Z * Z) :=
  if (0xC2 <=? s0) && (s0 <=? 0xDF) then Some (2, 0x80, 0xBF)
  else if s0 =? 0xE0 then Some (3, 0xA0, 0xBF)
  else if s0 =? 0xED then Some (3, 0x80, 0x9F)
  else if (0xE1 <=? s0) && (s0 <=? 0xEF) then Some (3, 0x80, 0xBF)
  else if s0 =? 0xF0 then Some (4, 0x90, 0xBF)
  else if (0xF1 <=? s0) && (s0 <=? 0xF3) then Some (4, 0x80, 0xBF)
  else if s0 =? 0xF4 then Some (4, 0x80, 0x8F)
  else None.

Definition cont (b : Z) : bool := (0x80 <=? b) && (b <=? 0xBF).

(** [DecodeRuneInString] on the bytes of a string: rune and width. *)
Definition DecodeRune (s : list Z) : Z * Z :=
  match s with
  | [] => (RuneError, 0)
  | s0 :: t =>
      if s0 <? RuneSelf then (s0, 1) else
      match first s0 with
      | None => (RuneError, 1)
      | Some (sz, lo, hi) =>
          if len s <? sz then (RuneError, 1) else
          match t with
          | s1 :: t1 =>
              if (s1 <? lo) || (hi <? s1) then (RuneError, 1) else
              if sz <=? 2 then
                (Z.lor (Z.shiftl (Z.land s0 0x1F) 6) (Z.land s1 0x3F), 2)
              else
              match t1 with
              | s2 :: t2 =>
                  if negb (cont s2) then (RuneError, 1) else
                  if sz <=? 3 then
                    (Z.lor (Z.lor (Z.shiftl (Z.land s0 0x0F) 12)
                                  (Z.shiftl (Z.land s1 0x3F) 6))
                           (Z.land s2 0x3F), 3)
                  else
                  match t2 with
                  | s3 :: _ =>
                      if negb (cont s3) then (RuneError, 1) else
                      (Z.lor (Z.lor (Z.lor (Z.shiftl (Z.land s0 0x07) 18)
                                           (Z.shiftl (Z.land s1 0x3F) 12))
                                    (Z.shiftl (Z.land s2 0x3F) 6))
                             (Z.land s3 0x3F), 4)
                  | [] => (RuneError, 1)
                  end
              | [] => (RuneError, 1)
              end
          | [] => (RuneError, 1)
          end
      end
  end.

Definition RuneStart (b : Z) : bool := negb (Z.land b 0xC0 =? 0x80).

(** [DecodeLastRuneInString]: the search for the start of the last rune
    goes back at most [UTFMax] bytes. *)
Definition DecodeLastRune (s : list Z) : Z * Z :=
  let end_ := len s in
  if end_ =? 0 then (RuneError, 0) else
  let r := nth (Z.to_nat (end_ - 1)) s 0 in
  if r <? RuneSelf then (r, 1) else
  let lim := Z.max 0 (end_ - UTFMax) in
  let fix back (n : nat) (start : Z) : Z :=
    match n with
    | O => start
    | S n' =>
        if start <? lim then start
        else if RuneStart (nth (Z.to_nat start) s 0) then start
        else back n' (start - 1)
    end in
  let start := Z.max 0 (back (Z.to_nat UTFMax) (end_ - 2)) in
  let '(r, size) := DecodeRune (drop (Z.to_nat start) s) in
  if negb (start + size =? end_) then (RuneError, 1) else (r, size).

End utf8.

Module unicode.

Definition IsSpace (r : Z) : bool :=
  if r <=? 0xFF then
    (r =? 9) || (r =? 10) || (r =? 11) || (r =? 12) || (r =? 13)
    || (r =? 0x20) || (r =? 0x85) || (r =? 0xA0)
  else
    (r =? 0x1680) || ((0x2000 <=? r) && (r <=? 0x200a))
    || (r =? 0x2028) || (r =? 0x2029) || (r =? 0x202f) || (r =? 0x205f)
    || (r =? 0x3000).

End unicode.

Module gostrings.

Definition HasPrefix (s prefix : string) : bool := String.prefix prefix s.

Definition TrimPrefix (s prefix : string) : string :=
  if HasPrefix s prefix
  then String.substring (String.length prefix)
                        (String.length s - String.length prefix) s
  else s.

(** [Index]: position of the first occurrence of [substr], or -1. *)
Fixpoint Index_from (s substr : string) (i : Z) : Z :=
  if String.prefix substr s then i else
  match s with
  | EmptyString => -1
  | String _ r => Index_from r substr (i + 1)
  end.

Definition Index (s substr : string) : Z := Index_from s substr 0.

Definition Contains (s substr : string) : bool := 0 <=? Index s substr.

(** [ReplaceAll] for a non-empty [old]: occurrences are replaced left to
    right without overlap; [skip] counts the bytes of a matched occurrence
    still to be passed over. *)
Fixpoint ReplaceAll_from (s old new : string) (skip : nat) : string :=
  match s with
  | EmptyString => EmptyString
  | String c r =>
      match skip with
      | S k => ReplaceAll_from r old new k
      | O =>
          if String.prefix old s
          then new +:+ ReplaceAll_from r old new (String.length old - 1)
          else String c (ReplaceAll_from r old new O)
      end
  end.

Definition ReplaceAll (s old new : string) : string :=
  ReplaceAll_from s old new O.

(** [Split] for a non-empty [sep]; [cur] is the piece being read, reversed. *)
Fixpoint Split_from (s sep : string) (skip : nat) (cur : list ascii)
  : list string :=
  match s with
  | EmptyString => [string_of_list_ascii (rev cur)]
  | String c r =>
      match skip with
      | S k => Split_from r sep k cur
      | O =>
          if String.prefix sep s
          then string_of_list_ascii (rev cur)
               :: Split_from r sep (String.length sep - 1) []
          else Split_from r sep O (c :: cur)
      end
  end.

Definition Split (s sep : string) : list string := Split_from s sep O [].

Definition asciiSpace (c : Z) : bool :=
  (c =? 9) || (c =? 10) || (c =? 11) || (c =? 12) || (c =? 13) || (c =? 32).

(** [TrimLeftFunc(s, unicode.IsSpace)] on bytes; every rune has width at
    least 1, so [n] bounds the number of runes. *)
Fixpoint TrimLeftSpace (n : nat) (s : list Z) : list Z :=
  match n with
  | O => s
  | S n' =>
      match s with
      | [] => []
      | _ =>
          let '(r, size) := utf8.DecodeRune s in
          if unicode.IsSpace r
          then TrimLeftSpace n' (drop (Z.to_nat size) s)
          else s
      end
  end.

(** [TrimRightFunc(s, unicode.IsSpace)] on bytes. *)
Fixpoint TrimRightSpace (n : nat) (s : list Z) : list Z :=
  match n with
  | O => s
  | S n' =>
      match s with
      | [] => []
      | _ =>
          let '(r, size) := utf8.DecodeLastRune s in
          if unicode.IsSpace r
          then TrimRightSpace n' (take (length s - Z.to_nat size) s)
          else s
      end
  end.

Definition of_bytes (l : list Z) : string :=
  string_of_list_ascii (map (fun z => ascii_of_N (Z.to_N z)) l).

(** [TrimSpace]: ASCII fast path from both ends, the rune-aware functions
    once a byte at or above [RuneSelf] is met. *)
Fixpoint TrimSpace_start (s : list Z) : list Z * bool :=
  match s with
  | [] => ([], false)
  | c :: r =>
      if utf8.RuneSelf <=? c then (s, true)
      else if asciiSpace c then TrimSpace_start r
      else (s, false)
  end.

Fixpoint TrimSpace_stop (n : nat) (s : list Z) : list Z :=
  match n with
  | O => s
  | S n' =>
      match last s with
      | None => s
      | Some c =>
          if utf8.RuneSelf <=? c then TrimRightSpace (length s) s
          else if asciiSpace c then TrimSpace_stop n' (removelast s)
          else s
      end
  end.

Definition TrimSpace (s : string) : string :=
  let '(t, slow) := TrimSpace_start (utf8.bytes s) in
  if slow
  then of_bytes (TrimRightSpace (length t) (TrimLeftSpace (length t) t))
  else of_bytes (TrimSpace_stop (length t) t).


(** [s[:i]] and [s[i:]] for [0 <= i <= len(s)]. *)
Definition upto (s : string) (i : Z) : string :=
  String.substring 0 (Z.to_nat i) s.
Definition from (s : string) (i : Z) : string :=
  String.substring (Z.to_nat i) (String.length s - Z.to_nat i) s.

End gostrings.


(** ** Package config *)

Module config.

Record DeviceConfig := {
  Model : string;
  Brand : string;
  Manufacturer : string;
  Device_ : string;
  Product : string;
  Hardware : string;
  Fingerprint : string;
  Bootloader : string;
  BuildID : string;
  SDKVersion : Z;
  BuildTime : Z
}.

Record Config := {
  AndroidID : string;
  SecurityToken : string;
  Email : string;
  MasterToken : string;
  Device : DeviceConfig;
  ServerPort : Z
}.

Definition DefaultConfig : Config := {|
  AndroidID := "";
  SecurityToken := "";
  Email := "";
  MasterToken := "";
  ServerPort := 8080;
  Device := {|
    Model := "Pixel 7";
    Brand := "google";
    Manufacturer := "Google";
    Device_ := "panther";
    Product := "panther";
    Hardware := "tensor";
    Fingerprint :=
      "google/panther/panther:13/TQ3A.230901.001/10750268:user/release-keys";
    Bootloader := "slider-1.2-9971768";
    BuildID := "TQ3A.230901.001";
    SDKVersion := 33;
    BuildTime := 1693440000
  |}
|}.

Definition nonEmpty (s : string) : bool := negb (String.eqb s "").

Definition HasRegistration (c : Config) : bool :=
  nonEmpty (AndroidID c) && nonEmpty (SecurityToken c).

Definition HasMasterToken (c : Config) : bool :=
  nonEmpty (MasterToken c) && nonEmpty (Email c).

Definition AuthUserAgent (c : Config) : string :=
  "GoogleAuth/1.4 (" +:+ Device_ (Device c) +:+ " " +:+ BuildID (Device c)
  +:+ "); gzip".

Definition setAccount (c : Config) (masterToken email : string) : Config :=
  {| AndroidID := AndroidID c; SecurityToken := SecurityToken c;
     Email := email; MasterToken := masterToken;
     Device := Device c; ServerPort := ServerPort c |}.

Definition setRegistration (c : Config) (androidID securityToken : string)
  : Config :=
  {| AndroidID := androidID; SecurityToken := securityToken;
     Email := Email c; MasterToken := MasterToken c;
     Device := Device c; ServerPort := ServerPort c |}.

End config.

(** ** The outside world: the network and the disk

    What [http.Client.Do], the response body, [os.WriteFile], the clock and
    the random source give is supplied by an environment; what the program
    does to the world (requests sent, configurations written) is recorded. *)

Module world.

Inductive Body :=
| FormBody (form : gmap string (list string))
| GzipBody (plain : list byte).

Record Request := {
  Method : string;
  URL : string;
  Header : gmap string string;
  ReqBody : Body
}.

(** What [io.ReadAll] gives on a body: the bytes read and, on failure, the
    error. *)
Inductive Stream :=
| ReadError (partial msg : string)
| Data (body : string).

(** A response: [Raw] is the body as sent; [Gzip] is what
    [gzip.NewReader(resp.Body)] gives on it, its error or the decompressed
    stream. *)
Record Response := {
  StatusCode : Z;
  ContentEncoding : string;
  Raw : Stream;
  Gzip : string + Stream
}.

Record Env := {
  Do : Request -> string + Response;     (* transport error or response *)
  WriteFile : config.Config -> option string;   (* error of Config.Save *)
  nowMilli : Z;
  randInt63 : Z;
  location : string
}.

(** [disk] lists the configurations written in full, latest first.  A
    write that fails adds nothing to it; what such a write leaves in the
    file ([os.WriteFile] truncates before it writes) is not recorded. *)
Record World := {
  sent : list Request;
  disk : list config.Config
}.

Definition send (w : World) (r : Request) : World :=
  {| sent := sent w ++ [r]; disk := disk w |}.

Definition save (w : World) (c : config.Config) : World :=
  {| sent := sent w; disk := c :: disk w |}.

(** The reader the clients use: the gzip layer only when the response
    says so. *)
Definition reader (r : Response) : string + Stream :=
  if String.eqb (ContentEncoding r) "gzip" then Gzip r else inr (Raw r).

End world.

(** ** Package auth *)

Module auth.
Import config world.

Definition authURL : string := "https://android.googleapis.com/auth".

Record Response := {
  Auth : string;
  Token : string;
  Email : string;
  Sid : string;
  LSid : string;
  Services : string;
  FirstName : string;
  LastName : string;
  AccountID : string;
  Expiry : Z;
  IssueAdvice : string;
  GrantedScopes : string;
  Error : string;
  RawFields : gmap string string
}.

Inductive error :=
| NoMasterToken
| AuthRequest (cause : string)
| GzipReader (cause : string)
| ReadResponse (cause : string)
| AuthFailed (status : Z) (errMsg : string).

Definition errorString (e : error) : string :=
  match e with
  | NoMasterToken => "no master token; run 'gauth login' first"
  | AuthRequest c => "auth request: " +:+ c
  | GzipReader c => "gzip reader: " +:+ c
  | ReadResponse c => "read response: " +:+ c
  | AuthFailed status msg =>
      "auth failed: status " +:+ strconv.Itoa status +:+ ": " +:+ msg
  end.

Definition GoogleSig : string := "24bb24c05e47e0aefa68a58a766179d9b613a600".

Definition KnownApps : gmap string (string * string) :=
  list_to_map [
    ("photos", ("com.google.android.apps.photos",
       "oauth2:openid https://www.googleapis.com/auth/mobileapps.native https://www.googleapis.com/auth/photos.native"));
    ("youtube", ("com.google.android.youtube",
       "oauth2:https://www.googleapis.com/auth/youtube"));
    ("gmail", ("com.google.android.gm", "oauth2:https://mail.google.com/"));
    ("drive", ("com.google.android.apps.docs",
       "oauth2:https://www.googleapis.com/auth/drive"));
    ("calendar", ("com.google.android.calendar",
       "oauth2:https://www.googleapis.com/auth/calendar"));
    ("gms", ("com.google.android.gms", "ac2dm"))
  ]%string.

Definition emptyResponse : Response := {|
  Auth := ""; Token := ""; Email := ""; Sid := ""; LSid := "";
  Services := ""; FirstName := ""; LastName := ""; AccountID := "";
  Expiry := 0; IssueAdvice := ""; GrantedScopes := ""; Error := "";
  RawFields := ∅
|}.

(** The assignments of the [switch key] in [parseAuthResponse]. *)
Definition setField (r : Response) (key value : string) : Response :=
  let raw := <[key := value]> (RawFields r) in
  let upd (k : string) (old : string) : string :=
    if String.eqb key k then value else old in
  {| Auth := upd "Auth" (Auth r);
     Token := upd "Token" (Token r);
     Email := upd "Email" (Email r);
     Sid := upd "SID" (Sid r);
     LSid := upd "LSID" (LSid r);
     Services := upd "services" (Services r);
     FirstName := upd "firstName" (FirstName r);
     LastName := upd "lastName" (LastName r);
     AccountID := upd "accountId" (AccountID r);
     Expiry := Expiry r;
     IssueAdvice := upd "issueAdvice" (IssueAdvice r);
     GrantedScopes := upd "grantedScopes" (GrantedScopes r);
     Error := upd "Error" (Error r);
     RawFields := raw |}.

Definition parseLine (r : Response) (line : string) : Response :=
  let line := gostrings.TrimSpace line in
  let idx := gostrings.Index line "=" in
  if idx <=? 0 then r else
  let key := String.substring 0 (Z.to_nat idx) line in
  let value := String.substring (Z.to_nat (idx + 1))
                 (String.length line - Z.to_nat (idx + 1)) line in
  setField r key value.

Definition CRLF : string := String "013" (String "010" EmptyString).
Definition LF : string := String "010" EmptyString.

Definition parseAuthResponse (body : string) : Response :=
  let body := gostrings.ReplaceAll body CRLF LF in
  foldl parseLine emptyResponse (gostrings.Split body LF).

Definition formGet (form : gmap string (list string)) (key : string)
  : string :=
  match form !! key with
  | Some (v :: _) => v
  | _ => ""
  end.

(** What the two operations return: a response and a nil error, or an
    error, with the parsed response beside it when the status was not 200. *)
Inductive reply :=
| Returned (resp : Response)
| Failed (resp : option Response) (err : error).

(** The POST request [doAuthRequest] builds from a form. *)
Definition authRequest (cfg : Config) (form : gmap string (list string))
  : Request := {|
  Method := "POST";
  URL := authURL;
  Header := list_to_map [
    ("Content-Type", "application/x-www-form-urlencoded");
    ("Accept-Encoding", "gzip");
    ("User-Agent", AuthUserAgent cfg);
    ("app", formGet form "app");
    ("device", AndroidID cfg);
    ("Connection", "Keep-Alive")
  ]%string;
  ReqBody := FormBody form
|}.

Definition doAuthRequest (env : Env) (w : World) (cfg : Config)
    (form : gmap string (list string)) : World * reply :=
  let req := authRequest cfg form in
  let w := send w req in
  match Do env req with
  | inl cause => (w, Failed None (AuthRequest cause))
  | inr resp =>
      match reader resp with
      | inl cause => (w, Failed None (GzipReader cause))
      | inr (ReadError _ cause) => (w, Failed None (ReadResponse cause))
      | inr (Data body) =>
          let result := parseAuthResponse body in
          if negb (StatusCode resp =? 200) then
            let errMsg :=
              if String.eqb (Error result) "" then body else Error result in
            (w, Failed (Some result) (AuthFailed (StatusCode resp) errMsg))
          else (w, Returned result)
      end
  end.

(** The form of [ExchangeOAuthForMaster]. *)
Definition masterForm (cfg : Config) (oauthToken : string)
  : gmap string (list string) :=
  list_to_map [
    ("androidId", [AndroidID cfg]);
    ("sdk_version", [strconv.Itoa (SDKVersion (Device cfg))]);
    ("device_country", ["us"]);
    ("operatorCountry", ["us"]);
    ("lang", ["en_US"]);
    ("google_play_services_version", ["224714044"]);
    ("accountType", ["HOSTED_OR_GOOGLE"]);
    ("service", ["ac2dm"]);
    ("source", ["android"]);
    ("app", ["com.google.android.gms"]);
    ("client_sig", ["38918a453d07199354f8b19af05ec6562ced5788"]);
    ("callerPkg", ["com.google.android.gms"]);
    ("callerSig", ["38918a453d07199354f8b19af05ec6562ced5788"]);
    ("Token", [oauthToken]);
    ("ACCESS_TOKEN", ["1"]);
    ("add_account", ["1"]);
    ("get_accountid", ["1"]);
    ("is_called_from_account_manager", ["1"])
  ]%string.

Definition ExchangeOAuthForMaster (env : Env) (w : World) (cfg : Config)
    (oauthToken : string) : World * reply :=
  doAuthRequest env w cfg (masterForm cfg oauthToken).

(** The form of [FetchServiceToken]. *)
Definition serviceForm (cfg : Config) (scope appPackage appSig : string)
  : gmap string (list string) :=
  list_to_map [
    ("androidId", [AndroidID cfg]);
    ("sdk_version", [strconv.Itoa (SDKVersion (Device cfg))]);
    ("device_country", ["us"]);
    ("operatorCountry", ["us"]);
    ("lang", ["en_US"]);
    ("google_play_services_version", ["224714044"]);
    ("accountType", ["HOSTED_OR_GOOGLE"]);
    ("Email", [config.Email cfg]);
    ("service", [scope]);
    ("source", ["android"]);
    ("app", [appPackage]);
    ("client_sig", [appSig]);
    ("callerPkg", [appPackage]);
    ("callerSig", [appSig]);
    ("Token", [MasterToken cfg]);
    ("system_partition", ["1"]);
    ("has_permission", ["1"])
  ]%string.

Definition FetchServiceToken (env : Env) (w : World) (cfg : Config)
    (scope appPackage appSig : string) : World * reply :=
  if negb (HasMasterToken cfg) then (w, Failed None NoMasterToken) else
  doAuthRequest env w cfg (serviceForm cfg scope appPackage appSig).

End auth.


(** ** Package checkin *)

Module checkin.
Import config world proto.

Definition checkinURL : string := "https://android.clients.google.com/checkin".

Record Result := {
  AndroidID : Z;
  SecurityToken : Z
}.

Inductive error :=
| EncodeRequest (e : codecError)
| CheckinRequest (cause : string)
| CheckinFailed (status : Z) (respBody : string)
| GzipReader (cause : string)
| ReadResponse (cause : string)
| DecodeResponse (e : codecError)
| MissingAndroidId.

Definition buildCheckinRequest (env : Env) (cfg : Config) : Message :=
  let d := Device cfg in
  list_to_map [
    ("2", VInt64 0);
    ("4", VMap (list_to_map [
       ("1", VMap (list_to_map [
          ("1", VString (Fingerprint d));
          ("2", VString (Hardware d));
          ("3", VString (Brand d));
          ("5", VString (Bootloader d));
          ("6", VString "android-google");
          ("7", VInt64 (BuildTime d));
          ("9", VString (Device_ d));
          ("10", VInt (SDKVersion d));
          ("11", VString (Model d));
          ("12", VString (Manufacturer d));
          ("13", VString (Product d));
          ("14", VBool false)]));
       ("2", VInt64 0);
       ("3", VSlice [
          VMap (list_to_map [
            ("1", VString "event_log_start");
            ("3", VInt64 (nowMilli env))])]);
       ("8", VString "WIFI::");
       ("9", VInt 0)]));
    ("6", VString "en_US");
    ("7", VInt64 (randInt63 env));
    ("11", VSlice [VString ""]);
    ("12", VString (location env));
    ("14", VInt 3);
    ("15", VSlice [VString "71Q6Rn2DDZl1zPDVaaeEHItd"]);
    ("18", VMap (list_to_map [
       ("1", VInt 3);
       ("2", VInt 1);
       ("3", VInt 1);
       ("4", VInt 2);
       ("5", VBool false);
       ("6", VBool false);
       ("7", VInt 420);
       ("8", VInt 196608);
       ("11", VSlice [VString "arm64-v8a"; VString "armeabi-v7a";
                      VString "armeabi"]);
       ("12", VInt 1080);
       ("13", VInt 2400)]));
    ("20", VInt 0)
  ]%string.

(** The two type switches on the decoded fields 7 and 8. *)
Definition fixed64Field (decoded : Message) (key : string) (old : Z) : Z :=
  match decoded !! key with
  | Some (VUint64 val) => val
  | Some (VInt64 val) => u64 val
  | _ => old
  end.

(** The POST request carrying the gzip-compressed encoding. *)
Definition checkinRequest (encoded : list byte) : Request := {|
  Method := "POST";
  URL := checkinURL;
  Header := list_to_map [
    ("Content-Type", "application/x-protobuffer");
    ("Content-Encoding", "gzip");
    ("Accept-Encoding", "gzip");
    ("User-Agent", "Android-Checkin/2.0 (vbox86p JLS36G); gzip")
  ]%string;
  ReqBody := GzipBody encoded
|}.

Definition Checkin (env : Env) (w : World) (cfg : Config)
  : World * outcomeOf error Result :=
  let msg := buildCheckinRequest env cfg in
  match Encode msg CheckinRequestSchema with
  | Err e => (w, Err (EncodeRequest e))
  | Panic => (w, Panic)
  | Fuel => (w, Fuel)
  | Ok encoded =>
      let req := checkinRequest encoded in
      let w := send w req in
      match Do env req with
      | inl cause => (w, Err (CheckinRequest cause))
      | inr resp =>
          if negb (StatusCode resp =? 200) then
            let respBody :=
              match Raw resp with
              | Data b => b
              | ReadError partial _ => partial
              end in
            (w, Err (CheckinFailed (StatusCode resp) respBody))
          else
          match reader resp with
          | inl cause => (w, Err (GzipReader cause))
          | inr (ReadError _ cause) => (w, Err (ReadResponse cause))
          | inr (Data respBytes) =>
              match DecodeMessage (list_byte_of_string respBytes) with
              | Err e => (w, Err (DecodeResponse e))
              | Panic => (w, Panic)
              | Fuel => (w, Fuel)
              | Ok decoded =>
                  let androidID := fixed64Field decoded "7" 0 in
                  let securityToken := fixed64Field decoded "8" 0 in
                  if androidID =? 0 then (w, Err MissingAndroidId)
                  else (w, Ok {| AndroidID := androidID;
                                 SecurityToken := securityToken |})
              end
          end
      end
  end.

End checkin.


(** ** Package server *)

Module server.
Import config world.

(** *** The token endpoint *)

Record TokenRequest := {
  Scope : string;
  AppPackage : string;
  AppSig : string
}.

Record TokenResponse := {
  Token : string;
  Email : string;
  TokenType : string;
  GrantedScopes : string;
  Error : string
}.

Definition errorResponse (msg : string) : TokenResponse :=
  {| Token := ""; Email := ""; TokenType := ""; GrantedScopes := "";
     Error := msg |}.

(** A request to [/api/token]: the method, what decoding the JSON body into
    a [TokenRequest] gives (an error message or the request), and the URL
    query. *)
Record APIRequest := {
  Method : string;
  JSONBody : string + TokenRequest;
  Query : string -> string
}.

(** The token type, from the literal prefix of the token. *)
Definition tokenTypeOf (Auth : string) : string :=
  if (7 <? strlen Auth) && String.eqb (String.substring 0 7 Auth) "aas_et/"
  then "aes"
  else if (5 <? strlen Auth) && String.eqb (String.substring 0 5 Auth) "ya29."
  then "oauth2"
  else "unknown".

(** The handler of [/api/token]: the world after it, the status and the JSON
    written. *)
Definition tokenHandler (env : Env) (w : World) (cfg : Config)
    (r : APIRequest) : World * (Z * TokenResponse) :=
  if negb (String.eqb (Method r) "POST") && negb (String.eqb (Method r) "GET")
  then (w, (405, errorResponse "use POST or GET"))
  else if negb (HasMasterToken cfg)
  then (w, (401, errorResponse "not logged in; run 'gauth login' first"))
  else
  let decoded : string + TokenRequest :=
    if String.eqb (Method r) "POST" then JSONBody r
    else inr {| Scope := Query r "scope"; AppPackage := Query r "app";
                AppSig := Query r "sig" |} in
  match decoded with
  | inl err => (w, (400, errorResponse ("invalid JSON: " +:+ err)))
  | inr req =>
      let req :=
        match auth.KnownApps !! Scope req with
        | Some (package, scope) =>
            {| Scope := scope;
               AppPackage := if String.eqb (AppPackage req) ""
                             then package else AppPackage req;
               AppSig := AppSig req |}
        | None => req
        end in
      if String.eqb (Scope req) "" then
        (w, (400, errorResponse
          "scope is required. Try: photos, youtube, gmail, drive, or a full OAuth2 scope"))
      else
      let appPackage := if String.eqb (AppPackage req) ""
                        then "com.google.android.gms" else AppPackage req in
      let appSig := if String.eqb (AppSig req) ""
                    then auth.GoogleSig else AppSig req in
      match auth.FetchServiceToken env w cfg (Scope req) appPackage appSig with
      | (w, auth.Failed _ err) =>
          (w, (500, errorResponse (auth.errorString err)))
      | (w, auth.Returned resp) =>
          if String.eqb (auth.Auth resp) "" then
            (w, (500, errorResponse "empty token in response"))
          else
            (w, (200, {| Token := auth.Auth resp;
                         Email := config.Email cfg;
                         TokenType := tokenTypeOf (auth.Auth resp);
                         GrantedScopes := auth.GrantedScopes resp;
                         Error := "" |}))
      end
  end.

(** *** The capture state of the login proxy *)

(** [listeners] holds, per subscribed channel of capacity one, whether a
    notification is waiting in it. *)
Record ProxyState := {
  captured : bool;
  oauthToken : string;
  email : string;
  error : string;
  listeners : list bool
}.

Definition NewProxyState : ProxyState :=
  {| captured := false; oauthToken := ""; email := ""; error := "";
     listeners := [] |}.

(** Each method holds the mutex for its whole body: it is one atomic step. *)
Definition SetToken (s : ProxyState) (token : string) : ProxyState :=
  {| captured := true; oauthToken := token; email := email s;
     error := error s; listeners := map (fun _ => true) (listeners s) |}.

Definition SetResult (s : ProxyState) (email errMsg : string) : ProxyState :=
  {| captured := captured s; oauthToken := oauthToken s; email := email;
     error := errMsg; listeners := listeners s |}.

Definition IsCaptured (s : ProxyState) : bool := captured s.

Definition Subscribe (s : ProxyState) : ProxyState :=
  {| captured := captured s; oauthToken := oauthToken s; email := email s;
     error := error s; listeners := listeners s ++ [captured s] |}.

(** *** exchangeToken: the background exchange started on capture

    [cfg] is the shared configuration the function assigns to. *)
Definition exchangeToken (env : Env) (w : World) (cfg : Config)
    (state : ProxyState) (oauthToken : string)
  : World * Config * ProxyState :=
  match auth.ExchangeOAuthForMaster env w cfg oauthToken with
  | (w, auth.Failed _ err) =>
      (w, cfg, SetResult state "" (auth.errorString err))
  | (w, auth.Returned resp) =>
      let masterToken := auth.Token resp in
      let masterToken :=
        if String.eqb masterToken "" then auth.Auth resp else masterToken in
      if String.eqb masterToken "" then
        (w, cfg, SetResult state ""
                   ("empty token in response: " +:+ auth.Error resp))
      else
      let cfg := setAccount cfg masterToken (auth.Email resp) in
      match WriteFile env cfg with
      | Some err => (w, cfg, SetResult state "" ("save failed: " +:+ err))
      | None => (save w cfg, cfg, SetResult state (auth.Email resp) "")
      end
  end.

(** *** Cookie capture in googleProxyHandler *)

(** The tokens one response offers for capture: for each [Set-Cookie]
    header containing ["oauth_token="], each [;]-separated part that starts
    with it, trimmed, in order.  The empty ones never reach the state. *)
Definition cookieTokens (sc : string) : list string :=
  if gostrings.Contains sc "oauth_token=" then
    omap (fun part =>
            let part := gostrings.TrimSpace part in
            if gostrings.HasPrefix part "oauth_token="
            then Some (gostrings.TrimPrefix part "oauth_token=")
            else None)
         (gostrings.Split sc ";")
  else [].

Definition offeredTokens (setCookie : list string) : list string :=
  filter (fun token => token <> ""%string) (concat (map cookieTokens setCookie)).

(** A request handler working through the tokens of its response.  For
    each token it calls [IsCaptured]; when that returned false it calls
    [SetToken] and then starts the exchange goroutine.  The state is free
    between the calls. *)
Inductive point := AtIsCaptured | AtSetToken | AtGo.

Record Handler := {
  tokens : list string;
  at_ : point
}.

Definition newHandler (setCookie : list string) : Handler :=
  {| tokens := offeredTokens setCookie; at_ := AtIsCaptured |}.

(** The shared state, the handlers in flight, and the history: the calls of
    [SetToken] and the exchanges started, oldest first. *)
Record System := {
  state : ProxyState;
  handlers : list Handler;
  setCalls : list string;
  exchanges : list string
}.

(** One atomic step of handler [h]. *)
Definition stepHandler (sys : System) (i : nat) (h : Handler) : System :=
  match tokens h with
  | [] => sys
  | token :: rest =>
      match at_ h with
      | AtIsCaptured =>
          let h' := if IsCaptured (state sys)
                    then {| tokens := rest; at_ := AtIsCaptured |}
                    else {| tokens := token :: rest; at_ := AtSetToken |} in
          {| state := state sys; handlers := <[i := h']> (handlers sys);
             setCalls := setCalls sys; exchanges := exchanges sys |}
      | AtSetToken =>
          {| state := SetToken (state sys) token;
             handlers := <[i := {| tokens := token :: rest; at_ := AtGo |}]>
                           (handlers sys);
             setCalls := setCalls sys ++ [token];
             exchanges := exchanges sys |}
      | AtGo =>
          {| state := state sys;
             handlers := <[i := {| tokens := rest; at_ := AtIsCaptured |}]>
                           (handlers sys);
             setCalls := setCalls sys;
             exchanges := exchanges sys ++ [token] |}
      end
  end.

Definition step (sys : System) (i : nat) : System :=
  match handlers sys !! i with
  | Some h => stepHandler sys i h
  | None => sys
  end.

(** A schedule names the handler that moves at each step. *)
Definition run (sys : System) (schedule : list nat) : System :=
  foldl step sys schedule.

Definition start (responses : list (list string)) : System :=
  {| state := NewProxyState; handlers := map newHandler responses;
     setCalls := []; exchanges := [] |}.

Definition finished (sys : System) : Prop :=
  Forall (fun h => tokens h = []) (handlers sys).

End server.

(** ** Package server: the pure steps of the two proxy handlers *)

Module proxy.
Import gostrings.

(** The injection of the bridge into an HTML page, in
    [googleProxyHandler]. *)
Definition injectBridge (content bridgeTag : string) : string :=
  let idx := Index content "</head>" in
  if 0 <=? idx then upto content idx +:+ bridgeTag +:+ from content idx
  else
  let idx := Index content "<body" in
  if 0 <=? idx then upto content idx +:+ bridgeTag +:+ from content idx
  else bridgeTag +:+ content.



(** [strings.Replace(s, old, new, 1)] for a non-empty [old]. *)
Definition Replace1 (s old new : string) : string :=
  if String.eqb old new then s else
  let j := Index s old in
  if j <? 0 then s
  else upto s j +:+ new +:+ from s (j + strlen old).

(** [fmt.Sprintf("http://localhost:%d", port)]. *)
Definition base (port : Z) : string :=
  "http://localhost:" +:+ strconv.Itoa port.

(** The rewriting of a [Location] header. *)
Definition rewriteGoogleURL (u : string) (port : Z) : string :=
  let u := Replace1 u "https://accounts.google.com" (base port +:+ "/glogin") in
  let u := Replace1 u "http://accounts.google.com" (base port +:+ "/glogin") in
  u.

(** The upstream URL [googleProxyHandler] builds from the request path and
    query. *)
Definition googleUpstream (urlPath rawQuery : string) : string :=
  let path := TrimPrefix urlPath "/glogin" in
  let path := if String.eqb path "" then "/"%string else path in
  let upstream := "https://accounts.google.com" +:+ path in
  if negb (String.eqb rawQuery "") then upstream +:+ "?" +:+ rawQuery
  else upstream.

End proxy.

(** ** Package login: reading the token out of a cookie string *)

Module login.
Import gostrings.

(** [strings.SplitN(s, sep, 2)] for a non-empty [sep]: the limit is first
    lowered to [len(s) + 1]; then [s] is cut at the first [sep], if any. *)
Definition SplitN2 (s sep : string) : list string :=
  let n := Z.min 2 (strlen s + 1) in
  let m := Index s sep in
  if (n <=? 1) || (m <? 0) then [s]
  else [String.substring 0 (Z.to_nat m) s;
        String.substring (Z.to_nat (m + strlen sep))
                         (String.length s - Z.to_nat (m + strlen sep)) s].

Fixpoint ExtractOAuthToken_loop (cookies : list string) : string :=
  match cookies with
  | [] => ""
  | cookie :: rest =>
      let cookie := TrimSpace cookie in
      if HasPrefix cookie "oauth_token=" then
        match SplitN2 cookie "=" with
        | [_; value] => value
        | _ => ExtractOAuthToken_loop rest
        end
      else ExtractOAuthToken_loop rest
  end.

Definition ExtractOAuthToken (cookies : string) : string :=
  ExtractOAuthToken_loop (Split cookies ";").

Fixpoint ParseOAuthFromCookies_loop (cookies : list string) : string :=
  match cookies with
  | [] => ""
  | cookie :: rest =>
      let cookie := TrimSpace cookie in
      if HasPrefix cookie "oauth_token="
      then TrimPrefix cookie "oauth_token="
      else ParseOAuthFromCookies_loop rest
  end.

Definition ParseOAuthFromCookies (cookieStr : string) : string :=
  ParseOAuthFromCookies_loop (Split cookieStr ";").

Definition IsCloseSignal (urlOrTitle : string) : bool :=
  Contains urlOrTitle "#close"
  || HasPrefix urlOrTitle "GAUTH_CLOSE:"
  || Contains urlOrTitle "accounts.google.com/signin/continue".

End login.

(** ** fmt, as far as the commands call it *)

Module fmt.

Definition hexDigit (d : Z) : ascii :=
  ascii_of_N (Z.to_N (if d <? 10 then 48 + d else 87 + d)).

(** The digit loop of [%x]: the low digit is written first, at the end. *)
Fixpoint hexLoop (fuel : nat) (u : Z) (acc : string) : string :=
  match fuel with
  | O => acc
  | S fuel' =>
      if 16 <=? u
      then hexLoop fuel' (Z.shiftr u 4) (String (hexDigit (Z.land u 0xF)) acc)
      else String (hexDigit u) acc
  end.

(** [Sprintf("%x", u)] for a [uint64], which has at most 16 digits. *)
Definition FormatHex (u : Z) : string := hexLoop 16 u "".

(** [Sprintf("%d", u)] for a [uint64]. *)
Definition FormatUint (u : Z) : string := strconv.Itoa u.

End fmt.

(** ** Package main: the check-in step of the commands *)

Module main.
Import config world.

Inductive error :=
| CheckinError (e : checkin.error)
| SaveError (cause : string).

(** [doCheckin]: the world and the shared configuration after it, and the
    error returned ([Ok tt] for nil). *)
Definition doCheckin (env : Env) (w : World) (cfg : Config)
  : World * Config * outcomeOf error unit :=
  match checkin.Checkin env w cfg with
  | (w, Ok result) =>
      let cfg := setRegistration cfg
                   (fmt.FormatHex (checkin.AndroidID result))
                   (fmt.FormatUint (checkin.SecurityToken result)) in
      match WriteFile env cfg with
      | Some cause => (w, cfg, Err (SaveError cause))
      | None => (save w cfg, cfg, Ok tt)
      end
  | (w, Err e) => (w, cfg, Err (CheckinError e))
  | (w, Panic) => (w, cfg, Panic)
  | (w, Fuel) => (w, cfg, Fuel)
  end.

(** How a command ends: it returns after printing its result, it stops in
    [log.Fatalf] or [os.Exit(1)], or it panics. *)
Inductive fatal :=
| NotLoggedIn
| CheckinFailed (e : error)
| LoginFailed (cause : string)
| ExchangeFailed (e : auth.error)
| NoToken (errorField : string)
| SaveFailed (cause : string)
| FetchFailed (e : auth.error)
| EmptyTokenResponse (errorField : string).

Inductive ending (A : Type) :=
| Done (printed : A)
| Fatal (f : fatal)
| Panicked
| Exhausted.       (* the recursion budget of the model ran out *)
Arguments Done {A} printed.
Arguments Fatal {A} f.
Arguments Panicked {A}.
Arguments Exhausted {A}.

(** What [cmdLogin] prints at the end: the email and the two ends of the
    master token. *)
Record LoginSummary := {
  summaryEmail : string;
  tokenHead : string;
  tokenTail : string
}.

(** [cmdLogin]; [webview] stands for [login.RunWebViewLogin], which gives
    an error or the OAuth token it received. *)
Definition cmdLogin (env : Env) (webview : Config -> string + string)
    (w : World) (cfg : Config) : World * Config * ending LoginSummary :=
  let registered : World * Config * option (ending LoginSummary) :=
    if negb (HasRegistration cfg) then
      match doCheckin env w cfg with
      | (w, cfg, Ok _) => (w, cfg, None)
      | (w, cfg, Err e) => (w, cfg, Some (Fatal (CheckinFailed e)))
      | (w, cfg, Panic) => (w, cfg, Some Panicked)
      | (w, cfg, Fuel) => (w, cfg, Some Exhausted)
      end
    else (w, cfg, None) in
  match registered with
  | (w, cfg, Some stop) => (w, cfg, stop)
  | (w, cfg, None) =>
      match webview cfg with
      | inl cause => (w, cfg, Fatal (LoginFailed cause))
      | inr oauthToken =>
          match auth.ExchangeOAuthForMaster env w cfg oauthToken with
          | (w, auth.Failed _ err) => (w, cfg, Fatal (ExchangeFailed err))
          | (w, auth.Returned resp) =>
              if String.eqb (auth.Token resp) ""
                 && String.eqb (auth.Auth resp) ""
              then (w, cfg, Fatal (NoToken (auth.Error resp)))
              else
              let masterToken := auth.Token resp in
              let masterToken :=
                if String.eqb masterToken "" then auth.Auth resp
                else masterToken in
              let cfg := setAccount cfg masterToken (auth.Email resp) in
              match WriteFile env cfg with
              | Some cause => (w, cfg, Fatal (SaveFailed cause))
              | None =>
                  let w := save w cfg in
                  if strlen masterToken <? 10 then (w, cfg, Panicked)
                  else
                    (w, cfg,
                     Done {| summaryEmail := Email cfg;
                             tokenHead := String.substring 0 10 masterToken;
                             tokenTail :=
                               String.substring
                                 (String.length masterToken - 5) 5
                                 masterToken |})
              end
          end
      end
  end.

(** The token type [cmdFetch] prints. *)
Definition fetchTokenType (Auth : string) : string :=
  if (7 <? strlen Auth) && String.eqb (String.substring 0 7 Auth) "aas_et/"
  then "AES (1P)"
  else if (5 <? strlen Auth) && String.eqb (String.substring 0 5 Auth) "ya29."
  then "OAuth2"
  else "Unknown".

(** [cmdFetch]: on success the token type and the token are printed. *)
Definition cmdFetch (env : Env) (w : World) (cfg : Config) (scope : string)
  : World * ending (string * string) :=
  if negb (HasMasterToken cfg) then (w, Fatal NotLoggedIn) else
  let '(appPkg, scope) :=
    match auth.KnownApps !! scope with
    | Some (package, appScope) => (package, appScope)
    | None => ("com.google.android.gms"%string, scope)
    end in
  let appSig := auth.GoogleSig in
  match auth.FetchServiceToken env w cfg scope appPkg appSig with
  | (w, auth.Failed _ err) => (w, Fatal (FetchFailed err))
  | (w, auth.Returned resp) =>
      if String.eqb (auth.Auth resp) ""
      then (w, Fatal (EmptyTokenResponse (auth.Error resp)))
      else (w, Done (fetchTokenType (auth.Auth resp), auth.Auth resp))
  end.

End main.

(** ** Definitions used to state the properties *)

Module wire.

(** The tag [writeTag] writes for a field. *)
Definition tagOf (fieldNum wireType : Z) : Z :=
  Z.lor (u64 (i64 (Z.shiftl fieldNum 3))) (u64 wireType).

(** The key under which the decoder files a field written with [fieldNum]:
    the shift in [writeTag] keeps the low 61 bits of the number. *)
Definition keyOf (fieldNum : Z) : string := strconv.Itoa (fieldNum mod 2 ^ 61).

(** The [k] bytes of a fixed-width number, low byte first, as a server
    writes a fixed64 or fixed32 field. *)
Fixpoint littleEndianBytes (k : nat) (n : Z) : list byte :=
  match k with
  | O => []
  | S k' => byte_of (n mod 256) :: littleEndianBytes k' (n / 256)
  end.

(** A fixed64 field: tag and eight bytes. *)
Definition fixed64 (fieldNum n : Z) : list byte :=
  proto.writeTag [] fieldNum proto.WireFixed64 ++ littleEndianBytes 8 n.

End wire.

(** Sample environments and worlds for the closed examples. *)
Module samples.
Import world.

Definition nothingSent : World := {| sent := []; disk := [] |}.

(** A network that answers every request with the given status and body. *)
Definition answering (status : Z) (body : string) : Env := {|
  Do := fun _ => inr {| StatusCode := status; ContentEncoding := "";
                        Raw := Data body; Gzip := inl "not gzip" |};
  WriteFile := fun _ => None;
  nowMilli := 1700000000000;
  randInt63 := 42;
  location := "UTC"
|}.

(** A network that is down. *)
Definition offline : Env := {|
  Do := fun _ => inl "dial tcp: connection refused";
  WriteFile := fun _ => None;
  nowMilli := 1700000000000;
  randInt63 := 42;
  location := "UTC"
|}.

Definition loggedIn : config.Config :=
  config.setAccount config.DefaultConfig "aas_et/master" "user@example.com".

End samples.

(** The ways the exchange of a captured token can fail before anything is
    stored: the request fails, the body cannot be read, the status is not
    200, or the response carries neither [Token] nor [Auth]. *)
Module failures.
Import world.

Inductive exchangeFails (env : Env) (req : Request) : Prop :=
| RequestError cause :
    Do env req = inl cause -> exchangeFails env req
| GzipError resp cause :
    Do env req = inr resp -> reader resp = inl cause ->
    exchangeFails env req
| BodyError resp partial cause :
    Do env req = inr resp -> reader resp = inr (ReadError partial cause) ->
    exchangeFails env req
| BadStatus resp body :
    Do env req = inr resp -> reader resp = inr (Data body) ->
    StatusCode resp <> 200 -> exchangeFails env req
| EmptyToken resp body :
    Do env req = inr resp -> reader resp = inr (Data body) ->
    StatusCode resp = 200 ->
    auth.Token (auth.parseAuthResponse body) = EmptyString ->
    auth.Auth (auth.parseAuthResponse body) = EmptyString ->
    exchangeFails env req.

End failures.

(** Scalar values on the wire, for the statements about encoding followed
    by decoding. *)
Module roundtrip.
Import proto.

(** The [uint64] an integer or boolean value is written as. *)
Definition wireInt (v : value) : option Z :=
  match v with
  | VInt n | VInt32 n | VInt64 n | VUint64 n => Some (u64 n)
  | VBool b => Some (if b then 1 else 0)
  | _ => None
  end.

(** The payload a text or byte value is written as. *)
Definition wirePayload (v : value) : option (list byte) :=
  match v with
  | VString s => Some (list_byte_of_string s)
  | VBytes b => Some b
  | _ => None
  end.

(** A scalar value the encoder accepts for a field: any integer, boolean,
    text or byte value where the schema has no entry, and a value of the
    declared type where it has one. *)
Definition fits (def : option FieldDef) (v : value) : bool :=
  match def with
  | None =>
      match v with
      | VInt _ | VInt32 _ | VInt64 _ | VUint64 _ | VBool _
      | VString _ | VBytes _ => true
      | _ => false
      end
  | Some d =>
      if String.eqb (Type_ d) TypeInt then
        match v with
        | VInt _ | VInt32 _ | VInt64 _ | VUint64 _ | VBool _ => true
        | _ => false
        end
      else if String.eqb (Type_ d) TypeBool then
        match v with VBool _ => true | _ => false end
      else if String.eqb (Type_ d) TypeString then
        match v with VString _ => true | _ => false end
      else if String.eqb (Type_ d) TypeBytes then
        match v with VString _ | VBytes _ => true | _ => false end
      else false
  end.

(** The tag and payload written for one scalar. *)
Definition fieldBytes (fieldNum : Z) (v : value) : list byte :=
  match wireInt v, wirePayload v with
  | Some z, _ => writeVarint (writeTag [] fieldNum WireVarint) z
  | None, Some p =>
      writeVarint (writeTag [] fieldNum WireBytes) (u64 (len p)) ++ p
  | None, None => []
  end.

(** The bytes written for the scalar field under [key] of a message. *)
Definition fieldOf (m : Message) (key : string) : list byte :=
  fieldBytes (strconv.Atoi key).1 (default VOther (m !! key)).

(** What the decoder makes of a payload that is not taken for a nested
    message. *)
Definition textOrBytes (p : list byte) : value :=
  if isLikelyString p then VString (string_of_list_byte p) else VBytes p.

(** A decoded value [d] recovers the scalar [v]: an integer comes back as
    the [int64] with the same 64 bits, a boolean as 0 or 1, a text or byte
    value with the same bytes as text or as bytes, unless the payload
    parses as a non-empty nested message and comes back as that. *)
Definition recoveredPayload (p : list byte) (d : value) : Prop :=
  d = textOrBytes p
  \/ exists nested,
       DecodeMessage p = Ok nested /\ (0 < size nested)%nat /\ d = VMap nested.

Definition recovered (v d : value) : Prop :=
  match v with
  | VInt n | VInt32 n | VInt64 n | VUint64 n => d = VInt64 (i64 n)
  | VBool b => d = VInt64 (if b then 1 else 0)
  | VString s => recoveredPayload (list_byte_of_string s) d
  | VBytes p => recoveredPayload p d
  | _ => False
  end.

(** An integer, boolean, text or byte value. *)
Definition scalar (v : value) : Prop :=
  is_Some (wireInt v) \/ is_Some (wirePayload v).

(** The nested decoding attempt on the value's payload does not panic. *)
Definition decodable (v : value) : Prop :=
  match wirePayload v with
  | Some p => DecodeMessage p <> Panic
  | None => True
  end.

(** A decoded occurrence: anything but a sequence. *)
Definition notSlice (d : value) : Prop :=
  match d with VSlice _ => False | _ => True end.

(** What repeated occurrences of one field accumulate to. *)
Definition collected (ds : list value) : option value :=
  match ds with
  | [] => None
  | [d] => Some d
  | _ => Some (VSlice ds)
  end.

End roundtrip.

(** The fields of a message the round trip is stated for. *)
Module fields.
Import proto roundtrip.

(** The key is the decimal numeral, as [%d] prints it, of a field number
    below [2^61]. *)
Definition canonicalKey (key : string) : Prop :=
  let n := (strconv.Atoi key).1 in
  strconv.Itoa n = key /\ 0 <= n < 2 ^ 61.

(** A scalar field consistent with the schema, whose payload (if it has
    one) does not make the nested decoding attempt panic. *)
Definition roundTrips (schema : MessageType) (key : string) (v : value)
  : Prop :=
  canonicalKey key /\ fits (schema !! key) v = true /\ decodable v.

(** The same without the bound on the field number: the key parses. *)
Definition parses (schema : MessageType) (key : string) (v : value)
  : Prop :=
  (strconv.Atoi key).2 = false /\ fits (schema !! key) v = true
  /\ decodable v.

End fields.

(** Handlers between two of their steps, for the statements about
    schedules. *)
Module race.
Import server.

(** The handler has a token left and stands at [p]. *)
Definition standsAt (p : point) (h : Handler) : bool :=
  match tokens h, at_ h, p with
  | _ :: _, AtIsCaptured, AtIsCaptured => true
  | _ :: _, AtSetToken, AtSetToken => true
  | _ :: _, AtGo, AtGo => true
  | _, _, _ => false
  end.

Definition countAt (p : point) (hs : list Handler) : nat :=
  length (List.filter (standsAt p) hs).

(** No handler is between its test and its exchange. *)
Definition quiet (hs : list Handler) : Prop :=
  Forall (fun h => standsAt AtSetToken h = false /\ standsAt AtGo h = false) hs.

(** The invariant of every reachable system. *)
Record Inv (sys : System) : Prop := {
  inv_captured : captured (state sys) = true <-> setCalls sys <> [];
  inv_token : forall tok, last (setCalls sys) = Some tok ->
                          oauthToken (state sys) = tok;
  inv_sets : (length (setCalls sys) + countAt AtSetToken (handlers sys)
              <= length (handlers sys))%nat;
  inv_gos : (length (exchanges sys) + countAt AtGo (handlers sys)
             = length (setCalls sys))%nat
}.

End race.

(** Calls on the capture state, as the handlers and the status endpoints make
    them. *)
Module calls.
Import server.

Inductive call :=
| CallSetToken (token : string)
| CallSetResult (email errMsg : string)
| CallSubscribe.

Definition perform (s : ProxyState) (c : call) : ProxyState :=
  match c with
  | CallSetToken token => SetToken s token
  | CallSetResult email errMsg => SetResult s email errMsg
  | CallSubscribe => Subscribe s
  end.

Definition isSubscribe (c : call) : bool :=
  match c with CallSubscribe => true | _ => false end.

End calls.

(** What [DecodeMessage] can return: one value per occurrence of a field,
    and a sequence of them for a field that occurred more than once. *)
Module shape.
Import proto.

#[warnings="-register-all"] Inductive item : value -> Prop :=
| item_varint n : - 2 ^ 63 <= n < 2 ^ 63 -> item (VInt64 n)
| item_fixed64 n : 0 <= n < 2 ^ 64 -> item (VUint64 n)
| item_fixed32 n : 0 <= n < 2 ^ 32 -> item (VFloat32 n)
| item_text p : isLikelyString p = true -> item (VString (string_of_list_byte p))
| item_bytes p : isLikelyString p = false -> item (VBytes p)
| item_message m :
    (0 < size m)%nat ->
    (forall key v, m !! key = Some v ->
       fields.canonicalKey key
       /\ (item v
           \/ exists l, v = VSlice l /\ (2 <= length l)%nat /\ Forall item l)) ->
    item (VMap m).

Definition entry (v : value) : Prop :=
  item v \/ exists l, v = VSlice l /\ (2 <= length l)%nat /\ Forall item l.

Definition decoded (m : Message) : Prop :=
  forall key v, m !! key = Some v -> fields.canonicalKey key /\ entry v.

End shape.

(** The messages the encoder accepts, by key and dynamic type alone. *)
Module conformance.
Import proto.

Section accepts.
Variable nested : Message -> MessageType -> bool.

Definition typed (def : FieldDef) (v : value) : bool :=
  if String.eqb (Type_ def) TypeInt then
    match v with
    | VInt _ | VInt32 _ | VInt64 _ | VUint64 _ | VFloat64 _ | VBool _ => true
    | _ => false
    end
  else if String.eqb (Type_ def) TypeBool then
    match v with VBool _ => true | _ => false end
  else if String.eqb (Type_ def) TypeString then
    match v with VString _ => true | _ => false end
  else if String.eqb (Type_ def) TypeBytes then
    match v with VBytes _ | VString _ => true | _ => false end
  else if String.eqb (Type_ def) TypeMessage then
    match v with
    | VMap m => nested m (default ∅ (MessageDef def))
    | _ => false
    end
  else false.

Definition untyped (v : value) : bool :=
  match v with
  | VInt _ | VInt32 _ | VInt64 _ | VUint64 _ | VBool _
  | VString _ | VBytes _ => true
  | VMap m => nested m ∅
  | _ => false
  end.

Definition acceptsKey (msg : Message) (schema : MessageType) (key : string)
  : bool :=
  let v := default VOther (msg !! key) in
  negb (strconv.Atoi key).2
  && match schema !! key with
     | None => untyped v
     | Some def =>
         if Repeated def then
           match v with
           | VSlice items => forallb (typed def) items
           | _ => typed def v
           end
         else typed def v
     end.
End accepts.

Fixpoint accepts (fuel : nat) (msg : Message) (schema : MessageType) : bool :=
  match fuel with
  | O => false
  | S fuel' => forallb (acceptsKey (accepts fuel') msg schema) (sortedKeys msg)
  end.

Definition conforms (msg : Message) (schema : MessageType) : bool :=
  accepts (depth (VMap msg)) msg schema.

(** [decides b o]: the call succeeded if [b] and failed with an error if
    not; it neither panicked nor ran out of budget. *)
Definition decides {A} (b : bool) (o : outcome A) : Prop :=
  if b then exists out, o = Ok out else exists e, o = Err e.

End conformance.

(** Bodies of the auth endpoint as lists of key and value. *)
Module authlines.

Definition carriageReturn : ascii := "013".
Definition lineFeed : ascii := "010".

(** The body that carries the given pairs, one [key=value] per line. *)
Definition render (fields : list (string * string)) : string :=
  String.concat auth.LF (map (fun kv => kv.1 +:+ "=" +:+ kv.2) fields).

(** A printable ASCII character other than the space. *)
Definition isPlain (c : ascii) : bool :=
  let n := Z.of_N (N_of_ascii c) in (0x21 <=? n) && (n <=? 0x7e).

Definition lacks (c : ascii) (s : string) : bool :=
  forallb (fun x => negb (Ascii.eqb x c)) (list_ascii_of_string s).

(** A pair whose line the parser reads back as it is: the key starts with
    a plain character and holds no [=], neither holds a line break, and
    the value, if not empty, ends with a plain character. *)
Definition cleanPair (kv : string * string) : bool :=
  match kv.1 with
  | String c _ => isPlain c
  | EmptyString => false
  end
  && lacks "=" kv.1 && lacks lineFeed kv.1 && lacks carriageReturn kv.1
  && lacks lineFeed kv.2 && lacks carriageReturn kv.2
  && match last (list_ascii_of_string kv.2) with
     | Some c => isPlain c
     | None => true
     end.

(** The assignments the parser makes for the pairs, in order. *)
Definition assign (fields : list (string * string)) : auth.Response :=
  foldl (fun r kv => auth.setField r kv.1 kv.2) auth.emptyResponse fields.

End authlines.

(** Occurrence of one string in another. *)
Module substrings.

Definition occursIn (t s : string) : Prop := exists a b, s = a +:+ t +:+ b.

End substrings.

(** The messages whose encoding does not depend on the order in which Go
    hands out the keys of a map.  [encodeMessage] collects the keys by
    ranging over the map, in an order that changes from run to run, and
    sorts them by number with [sort.Slice], which is not stable: two keys
    that stand for the same number (["1"] and ["01"], or two keys that do
    not parse, which both count as 0) may come out in either order.  When
    no two keys of a message stand for the same number, at any level of
    nesting, the ascending order is the only one there is. *)
Module ordering.
Import proto.





End ordering.

(** * Properties *)

(** ** Bytes and machine integers *)

Lemma byte_val_range (b : byte) : 0 <= byte_val b < 256.
Proof.
  unfold byte_val. pose proof (Byte.to_N_bounded b). lia.
Qed.

Lemma byte_val_of (z : Z) : byte_val (byte_of z) = z mod 256.
Proof.
  unfold byte_val, byte_of.
  assert (Hr : 0 <= z mod 256 < 256) by (apply Z.mod_pos_bound; lia).
  destruct (Byte.of_N (Z.to_N (z mod 256))) as [b|] eqn:E.
  - apply Byte.to_of_N in E. rewrite E. lia.
  - apply Byte.of_N_None_iff in E. lia.
Qed.

Lemma byte_val_of_small (z : Z) : 0 <= z < 256 -> byte_val (byte_of z) = z.
Proof. intros H. rewrite byte_val_of. apply Z.mod_small; lia. Qed.

Lemma byte_of_val (b : byte) : byte_of (byte_val b) = b.
Proof.
  unfold byte_of, byte_val. pose proof (Byte.to_N_bounded b).
  rewrite Z.mod_small by lia. rewrite N2Z.id, Byte.of_to_N. reflexivity.
Qed.

(** A property of every byte value holds when it holds of the 256 of them. *)
Lemma byte_cases (P : Z -> bool) :
  forallb P (seqZ 0 256) = true -> forall x, 0 <= x < 256 -> P x = true.
Proof.
  intros H x Hx. rewrite forallb_forall in H. apply H.
  apply list_elem_of_In, elem_of_seqZ. lia.
Qed.

Lemma lor_continuation (x : Z) :
  0 <= x < 256 ->
  128 <= Z.lor x 0x80 < 256 /\ Z.land (Z.lor x 0x80) 0x7f = x mod 128.
Proof.
  intros Hx.
  pose proof (byte_cases
    (fun x => (128 <=? Z.lor x 0x80) && (Z.lor x 0x80 <? 256)
              && (Z.land (Z.lor x 0x80) 0x7f =? x mod 128))
    ltac:(vm_compute; reflexivity) x Hx) as H.
  simpl in H. lia.
Qed.

Lemma land_shiftl_disjoint (acc y k : Z) :
  0 <= k -> 0 <= acc < 2 ^ k -> Z.land acc (Z.shiftl y k) = 0.
Proof.
  intros Hk Hacc. apply Z.bits_inj'; intros n Hn.
  rewrite Z.land_spec, Z.bits_0.
  destruct (Z.lt_ge_cases n k) as [Hlt|Hge].
  - rewrite Z.shiftl_spec_low by lia. apply andb_false_r.
  - destruct (Z.eq_dec acc 0) as [->|Hne]; [rewrite Z.bits_0; reflexivity|].
    rewrite (Z.bits_above_log2 acc n); [reflexivity | lia |].
    apply Z.lt_le_trans with k; [apply Z.log2_lt_pow2; lia | lia].
Qed.

Lemma lor_shiftl_add (acc y k : Z) :
  0 <= k -> 0 <= acc < 2 ^ k ->
  Z.lor acc (Z.shiftl y k) = acc + y * 2 ^ k.
Proof.
  intros Hk Hacc.
  pose proof (land_shiftl_disjoint acc y k Hk Hacc) as Hd.
  rewrite <- Z.lxor_lor, <- Z.add_nocarry_lxor by exact Hd.
  rewrite Z.shiftl_mul_pow2 by lia. reflexivity.
Qed.

(** ** Varints *)

Module binary_facts.
Import binary.

Lemma Uvarint_loop_Put (n : nat) : forall v acc i rest,
  0 <= i -> i + Z.of_nat n = 10 ->
  0 <= v < 2 ^ (64 - 7 * i) -> 0 <= acc < 2 ^ (7 * i) ->
  Uvarint_loop (PutUvarint_loop n v ++ rest) acc (7 * i) i
  = (acc + v * 2 ^ (7 * i), i + len (PutUvarint_loop n v))
  /\ 0 < len (PutUvarint_loop n v).
Proof.
  induction n as [|n IH]; intros v acc i rest Hi Hn Hv Hacc.
  - assert (i = 10) by lia. subst i. simpl in Hv. lia.
  - assert (Hi9 : i <= 9) by lia.
    assert (Hpow : 2 ^ (7 * i) * 2 ^ (64 - 7 * i) = 2 ^ 64)
      by (rewrite <- Z.pow_add_r by lia; f_equal; lia).
    assert (Hpos : 0 < 2 ^ (7 * i)) by (apply Z.pow_pos_nonneg; lia).
    cbn [PutUvarint_loop]. destruct (0x80 <=? v) eqn:Hbig.
    + apply Z.leb_le in Hbig.
      assert (Hr : 0 <= v mod 256 < 256) by (apply Z.mod_pos_bound; lia).
      destruct (lor_continuation _ Hr) as [Hb Hlow].
      assert (Hmm : (v mod 256) mod 128 = v mod 128)
        by (Z.to_euclidean_division_equations; lia).
      rewrite Hmm in Hlow.
      assert (Hi8 : i <= 8).
      { destruct (Z.eq_dec i 9) as [->|]; [|lia].
        change (2 ^ (64 - 7 * 9)) with 2 in Hv. lia. }
      assert (Hlt57 : 2 ^ (7 * i + 7) <= 2 ^ 64)
        by (apply Z.pow_le_mono_r; lia).
      assert (Hp7 : 2 ^ (7 * i + 7) = 2 ^ (7 * i) * 128)
        by (rewrite Z.pow_add_r by lia; reflexivity).
      assert (Hm : 0 <= v mod 128 < 128) by (apply Z.mod_pos_bound; lia).
      cbn [app Uvarint_loop].
      rewrite byte_val_of_small by lia.
      replace (i =? MaxVarintLen64) with false
        by (symmetry; apply Z.eqb_neq; unfold MaxVarintLen64; lia).
      replace (Z.lor (v mod 256) 0x80 <? 0x80) with false
        by (symmetry; apply Z.ltb_ge; lia).
      rewrite Hlow.
      rewrite Z.shiftl_mul_pow2 by lia.
      unfold u64. rewrite (Z.mod_small (v mod 128 * 2 ^ (7 * i))) by nia.
      rewrite <- (Z.shiftl_mul_pow2 (v mod 128)) by lia.
      rewrite lor_shiftl_add by lia.
      replace (7 * i + 7) with (7 * (i + 1)) by lia.
      rewrite Z.shiftr_div_pow2 by lia. change (2 ^ 7) with 128.
      assert (Hq : 0 <= v / 128 < 2 ^ (64 - 7 * (i + 1))).
      { split; [apply Z.div_pos; lia|].
        apply Z.div_lt_upper_bound; [lia|].
        replace (128 * 2 ^ (64 - 7 * (i + 1))) with (2 ^ (64 - 7 * i)); [lia|].
        replace (64 - 7 * i) with (7 + (64 - 7 * (i + 1))) by lia.
        rewrite Z.pow_add_r by lia. reflexivity. }
      destruct (IH (v / 128) (acc + v mod 128 * 2 ^ (7 * i)) (i + 1) rest)
        as [E Hlen]; try lia.
      { replace (7 * (i + 1)) with (7 * i + 7) by lia. rewrite Hp7. nia. }
      rewrite E. split.
      * f_equal.
        -- replace (7 * (i + 1)) with (7 * i + 7) by lia. rewrite Hp7.
           pose proof (Z.div_mod v 128 ltac:(lia)). nia.
        -- unfold len in *. cbn [length]. lia.
      * unfold len. cbn [length]. lia.
    + apply Z.leb_gt in Hbig.
      cbn [app Uvarint_loop].
      rewrite byte_val_of_small by lia.
      replace (i =? MaxVarintLen64) with false
        by (symmetry; apply Z.eqb_neq; unfold MaxVarintLen64; lia).
      replace (v <? 0x80) with true by (symmetry; apply Z.ltb_lt; lia).
      assert (Hchk : (i =? MaxVarintLen64 - 1) && (1 <? v) = false).
      { destruct (Z.eqb_spec i (MaxVarintLen64 - 1)) as [Ei|]; [|reflexivity].
        unfold MaxVarintLen64 in Ei. assert (i = 9) by lia. subst i.
        change (2 ^ (64 - 7 * 9)) with 2 in Hv.
        apply Z.ltb_ge. lia. }
      rewrite Hchk.
      rewrite Z.shiftl_mul_pow2 by lia.
      unfold u64. rewrite (Z.mod_small (v * 2 ^ (7 * i))) by nia.
      rewrite <- (Z.shiftl_mul_pow2 v) by lia.
      rewrite lor_shiftl_add by lia.
      rewrite ?Z.shiftl_mul_pow2 by lia.
      split; [f_equal|]; unfold len; cbn [length]; lia.
Qed.

(** Reading back a varint that was written, whatever follows it. *)
Lemma Uvarint_PutUvarint (x : Z) (rest : list byte) :
  0 <= x < 2 ^ 64 ->
  Uvarint (PutUvarint x ++ rest) = (x, len (PutUvarint x))
  /\ 0 < len (PutUvarint x).
Proof.
  intros Hx. unfold Uvarint, PutUvarint.
  assert (Hn : 0 + Z.of_nat (Z.to_nat MaxVarintLen64) = 10) by reflexivity.
  assert (Hv : 0 <= x < 2 ^ (64 - 7 * 0)) by exact Hx.
  assert (Hacc : 0 <= 0 < 2 ^ (7 * 0)) by (change (2 ^ (7 * 0)) with 1; lia).
  destruct (Uvarint_loop_Put (Z.to_nat MaxVarintLen64) x 0 0 rest
              (Z.le_refl 0) Hn Hv Hacc) as [E Hlen].
  change (7 * 0) with 0 in E. rewrite E. split; [|exact Hlen].
  f_equal; change (2 ^ 0) with 1; lia.
Qed.

(** [Uvarint] never reports more bytes than the buffer holds. *)
Lemma Uvarint_loop_bound (buf : list byte) : forall x s i v n,
  0 <= i -> Uvarint_loop buf x s i = (v, n) -> n <= i + len buf.
Proof.
  induction buf as [|b buf IH]; intros x s i v n Hi E; cbn [Uvarint_loop] in E.
  - inversion E. unfold len. simpl. lia.
  - unfold len in *. cbn [length].
    destruct (i =? MaxVarintLen64); [inversion E; lia|].
    destruct (byte_val b <? 0x80).
    + destruct ((i =? MaxVarintLen64 - 1) && (1 <? byte_val b));
        inversion E; lia.
    + apply IH in E; lia.
Qed.

Lemma Uvarint_bound (buf : list byte) v n :
  Uvarint buf = (v, n) -> n <= len buf.
Proof. intros E. apply Uvarint_loop_bound in E; lia. Qed.

End binary_facts.

(** ** The decoder, one field at a time *)

Module proto_facts.
Import binary binary_facts proto wire.

Lemma i64_small (z : Z) : - 2 ^ 63 <= z < 2 ^ 63 -> i64 z = z.
Proof. intros H. unfold i64. rewrite Z.mod_small; lia. Qed.

Lemma u64_small (z : Z) : 0 <= z < 2 ^ 64 -> u64 z = z.
Proof. intros H. unfold u64. apply Z.mod_small; lia. Qed.

Lemma u64_range (z : Z) : 0 <= u64 z < 2 ^ 64.
Proof. unfold u64. apply Z.mod_pos_bound. lia. Qed.

Lemma u64_i64 (z : Z) : u64 (i64 z) = u64 z.
Proof.
  unfold u64, i64. Z.to_euclidean_division_equations. lia.
Qed.

Lemma i64_u64 (z : Z) : i64 (u64 z) = i64 z.
Proof.
  unfold u64, i64. Z.to_euclidean_division_equations. lia.
Qed.

(** What the decoder reads off the tag [writeTag] writes: the field number
    modulo [2^61] and the wire type. *)
Lemma tagOf_spec (fieldNum wireType : Z) :
  0 <= wireType < 8 ->
  0 <= tagOf fieldNum wireType < 2 ^ 64
  /\ Z.shiftr (tagOf fieldNum wireType) 3 = fieldNum mod 2 ^ 61
  /\ Z.land (tagOf fieldNum wireType) 0x7 = wireType.
Proof.
  intros Hw. unfold tagOf.
  rewrite u64_i64, (u64_small wireType) by lia.
  rewrite Z.shiftl_mul_pow2 by lia. change (2 ^ 3) with 8.
  assert (E : u64 (fieldNum * 8) = Z.shiftl (fieldNum mod 2 ^ 61) 3).
  { rewrite Z.shiftl_mul_pow2 by lia. unfold u64.
    Z.to_euclidean_division_equations. lia. }
  rewrite E, Z.lor_comm, lor_shiftl_add by (change (2 ^ 3) with 8; lia).
  change (2 ^ 3) with 8.
  pose proof (Z.mod_pos_bound fieldNum (2 ^ 61) ltac:(lia)) as Hm.
  split; [lia|]. split.
  - rewrite Z.shiftr_div_pow2 by lia. change (2 ^ 3) with 8.
    Z.to_euclidean_division_equations. lia.
  - change 0x7 with (Z.ones 3). rewrite Z.land_ones by lia.
    change (2 ^ 3) with 8. Z.to_euclidean_division_equations. lia.
Qed.

Lemma writeTag_eq buf fieldNum wireType :
  writeTag buf fieldNum wireType = buf ++ PutUvarint (tagOf fieldNum wireType).
Proof. reflexivity. Qed.

Lemma drop_app_len {A} (data a b : list A) (pos : Z) :
  0 <= pos -> drop (Z.to_nat pos) data = a ++ b ->
  drop (Z.to_nat (pos + len a)) data = b.
Proof.
  intros Hp E. unfold len. rewrite Z2Nat.inj_add, Nat2Z.id by lia.
  rewrite <- drop_drop, E. rewrite drop_app_length. reflexivity.
Qed.

Lemma drop_len_le {A} (data a : list A) (b : list A) (pos : Z) :
  0 <= pos -> drop (Z.to_nat pos) data = a ++ b ->
  len a + len b = Z.max 0 (len data - pos).
Proof.
  intros Hp E. apply (f_equal length) in E.
  rewrite length_drop, length_app in E. unfold len. lia.
Qed.

Lemma length_app_len {A} (a b : list A) : len (a ++ b) = len a + len b.
Proof. unfold len. rewrite length_app. lia. Qed.

Lemma decodeLoop_unfold fuel data pos result :
  decodeLoop (S fuel) data pos result =
    if negb (pos <? len data) then Ok result else
    let '(tag, n) := binary.Uvarint (drop (Z.to_nat pos) data) in
    if n <=? 0 then Err (FailedTag pos) else
    let pos := pos + n in
    let fieldNum := i64 (Z.shiftr tag 3) in
    let wireType := Z.land tag 0x7 in
    let key := strconv.Itoa fieldNum in
    if wireType =? WireVarint then
      let '(val, n) := binary.Uvarint (drop (Z.to_nat pos) data) in
      if n <=? 0 then Err (FailedVarint fieldNum) else
      let pos := pos + n in
      decodeLoop fuel data pos (addToResult result key (VInt64 (i64 val)))
    else if wireType =? WireFixed64 then
      if len data <? pos + 8 then Err (ShortFixed64 fieldNum) else
      let val := binary.LittleEndian (slice data pos (pos + 8)) in
      let pos := pos + 8 in
      decodeLoop fuel data pos (addToResult result key (VUint64 val))
    else if wireType =? WireBytes then
      let '(length, n) := binary.Uvarint (drop (Z.to_nat pos) data) in
      if n <=? 0 then Err (FailedLength fieldNum) else
      let pos := pos + n in
      let hi := i64 (pos + i64 length) in
      if len data <? hi then Err (ShortBytes fieldNum) else
      if hi <? pos then Panic else
      let payload := slice data pos hi in
      let pos := hi in
      v ← classify (decodeLoop fuel payload 0 ∅) payload;
      decodeLoop fuel data pos (addToResult result key v)
    else if wireType =? WireFixed32 then
      if len data <? pos + 4 then Err (ShortFixed32 fieldNum) else
      let val := binary.LittleEndian (slice data pos (pos + 4)) in
      let pos := pos + 4 in
      decodeLoop fuel data pos (addToResult result key (VFloat32 val))
    else Err (UnknownWireType wireType fieldNum).
Proof. reflexivity. Qed.

(** Reading the tag of a field that [writeTag] wrote at [pos]. *)
Lemma read_tag data pos fieldNum wireType rest :
  0 <= pos -> 0 <= wireType < 8 ->
  drop (Z.to_nat pos) data = PutUvarint (tagOf fieldNum wireType) ++ rest ->
  let n := len (PutUvarint (tagOf fieldNum wireType)) in
  Uvarint (drop (Z.to_nat pos) data) = (tagOf fieldNum wireType, n)
  /\ 0 < n /\ pos < len data
  /\ drop (Z.to_nat (pos + n)) data = rest.
Proof.
  intros Hp Hw E n.
  destruct (tagOf_spec fieldNum wireType Hw) as (Ht & _).
  destruct (Uvarint_PutUvarint (tagOf fieldNum wireType) rest Ht) as [Eu Hn].
  rewrite E. split; [exact Eu|]. split; [exact Hn|]. split.
  - pose proof (drop_len_le _ _ _ _ Hp E) as Hl. fold n in Hl, Hn.
    unfold len in *. lia.
  - eapply drop_app_len; eauto.
Qed.

(** A varint field written at [pos] is read back as an [int64] and filed
    under its key. *)
Lemma decode_varint_field fuel data pos result fieldNum v rest :
  0 <= pos -> 0 <= v < 2 ^ 64 ->
  drop (Z.to_nat pos) data
    = writeVarint (writeTag [] fieldNum WireVarint) v ++ rest ->
  decodeLoop (S fuel) data pos result
  = decodeLoop fuel data
      (pos + len (writeVarint (writeTag [] fieldNum WireVarint) v))
      (addToResult result (keyOf fieldNum) (VInt64 (i64 v))).
Proof.
  intros Hp Hv E. unfold writeVarint in *. rewrite writeTag_eq in *.
  simpl app in *. rewrite <- app_assoc in E.
  assert (Hw : 0 <= WireVarint < 8) by (unfold WireVarint; lia).
  destruct (read_tag _ _ _ _ _ Hp Hw E) as (Etag & Hn & Hlt & Erest).
  destruct (tagOf_spec fieldNum WireVarint Hw) as (Ht & Hshift & Hland).
  destruct (Uvarint_PutUvarint v rest Hv) as [Ev Hnv].
  rewrite decodeLoop_unfold.
  replace (pos <? len data) with true by (symmetry; apply Z.ltb_lt; lia).
  cbn [negb]. rewrite Etag. cbv zeta.
  replace (len (PutUvarint (tagOf fieldNum WireVarint)) <=? 0) with false
    by (symmetry; apply Z.leb_gt; lia).
  rewrite Hland, Hshift. cbn [Z.eqb WireVarint].
  rewrite Erest, Ev.
  replace (len (PutUvarint v) <=? 0) with false
    by (symmetry; apply Z.leb_gt; lia).
  pose proof (Z.mod_pos_bound fieldNum (2 ^ 61) ltac:(lia)).
  rewrite i64_small by lia.
  unfold keyOf. f_equal. unfold len. rewrite length_app. lia.
Qed.

(** A length-delimited field written at [pos]: the payload is cut out,
    tried as a nested message and classified, and the loop goes on behind
    it. *)
Lemma decode_bytes_field fuel data pos result fieldNum payload rest :
  0 <= pos -> len data < 2 ^ 63 ->
  drop (Z.to_nat pos) data
    = writeVarint (writeTag [] fieldNum WireBytes) (u64 (len payload))
      ++ payload ++ rest ->
  decodeLoop (S fuel) data pos result
  = (v ← classify (decodeLoop fuel payload 0 ∅) payload;
     decodeLoop fuel data
       (pos + len (writeVarint (writeTag [] fieldNum WireBytes)
                                (u64 (len payload)))
            + len payload)
       (addToResult result (keyOf fieldNum) v)).
Proof.
  intros Hp Hdata E. unfold writeVarint in *. rewrite writeTag_eq in *.
  simpl app in *. rewrite <- app_assoc in E.
  assert (Hw : 0 <= WireBytes < 8) by (unfold WireBytes; lia).
  destruct (read_tag _ _ _ _ _ Hp Hw E) as (Etag & Hn & Hlt & Erest).
  destruct (tagOf_spec fieldNum WireBytes Hw) as (Ht & Hshift & Hland).
  set (n := len (PutUvarint (tagOf fieldNum WireBytes))) in *.
  assert (Hpn : 0 <= pos + n) by lia.
  pose proof (drop_len_le _ _ _ _ Hpn Erest) as Hl0.
  assert (Hl : len payload <= len data).
  { rewrite length_app_len in Hl0. unfold len in *. lia. }
  rewrite (u64_small (len payload)) in * by (unfold len in *; lia).
  assert (Hv : 0 <= len payload < 2 ^ 64) by (unfold len in *; lia).
  destruct (Uvarint_PutUvarint (len payload) (payload ++ rest) Hv)
    as [Ev Hnv].
  set (k := len (PutUvarint (len payload))) in *.
  pose proof (drop_app_len _ _ _ _ Hpn Erest) as Epay. fold k in Epay.
  assert (Hpk : 0 <= pos + n + k) by lia.
  pose proof (drop_len_le _ _ _ _ Hpk Epay) as Hl1.
  assert (Hend : pos + n + k + len payload <= len data).
  { rewrite length_app_len in Hl0. unfold len in *. lia. }
  rewrite decodeLoop_unfold.
  replace (pos <? len data) with true by (symmetry; apply Z.ltb_lt; lia).
  cbn [negb]. rewrite Etag. cbv zeta.
  replace (n <=? 0) with false by (symmetry; apply Z.leb_gt; lia).
  rewrite Hland, Hshift. cbn [Z.eqb Pos.eqb WireVarint WireFixed64 WireBytes].
  rewrite Erest, Ev. fold k.
  replace (k <=? 0) with false by (symmetry; apply Z.leb_gt; lia).
  rewrite (i64_small (len payload)) by (unfold len in *; lia).
  rewrite (i64_small (pos + n + k + len payload)) by (unfold len in *; lia).
  replace (len data <? pos + n + k + len payload) with false
    by (symmetry; apply Z.ltb_ge; lia).
  replace (pos + n + k + len payload <? pos + n + k) with false
    by (symmetry; apply Z.ltb_ge; unfold len; lia).
  assert (Es : slice data (pos + n + k) (pos + n + k + len payload) = payload).
  { unfold slice. rewrite Epay.
    replace (pos + n + k + len payload - (pos + n + k)) with (len payload)
      by lia.
    unfold len. rewrite Nat2Z.id. apply take_app_length. }
  rewrite Es.
  pose proof (Z.mod_pos_bound fieldNum (2 ^ 61) ltac:(lia)).
  rewrite i64_small by lia.
  unfold keyOf. replace (len (PutUvarint (tagOf fieldNum WireBytes)
                              ++ PutUvarint (len payload)))
    with (n + k) by (unfold n, k, len; rewrite length_app; lia).
  replace (pos + (n + k) + len payload) with (pos + n + k + len payload)
    by lia.
  reflexivity.
Qed.

(** Past the end of the buffer the loop returns what it has read. *)
Lemma decodeLoop_end fuel data pos result :
  len data <= pos -> decodeLoop (S fuel) data pos result = Ok result.
Proof.
  intros H. rewrite decodeLoop_unfold.
  replace (pos <? len data) with false by (symmetry; apply Z.ltb_ge; lia).
  reflexivity.
Qed.

End proto_facts.

(** ** A declared length that does not fit an [int] *)

(** C4.  [DecodeMessage] is not total on arbitrary input: on a
    length-delimited field whose declared length is [2^64 - 1] the
    conversion [int(length)] gives [-1], the bounds check
    [pos+int(length) > len(data)] passes, and slicing [data[11:10]] panics.
    The claim says such input yields an error and never a crash. *)
Theorem C4_DecodeMessage_panics_on_wrapped_length :
  proto.DecodeMessage
    [Byte.x0a; Byte.xff; Byte.xff; Byte.xff; Byte.xff; Byte.xff;
     Byte.xff; Byte.xff; Byte.xff; Byte.xff; Byte.x01]
  = Panic.
Proof. vm_compute. reflexivity. Qed.

(** ** Token types *)

Lemma prefix_substring (p s : string) :
  String.prefix p s = String.eqb (String.substring 0 (String.length p) s) p.
Proof.
  destruct (String.prefix p s) eqn:E.
  - apply String.prefix_correct in E. rewrite E. symmetry.
    apply String.eqb_refl.
  - symmetry. apply String.eqb_neq. intros H.
    apply String.prefix_correct in H. congruence.
Qed.

(** C6, as the code has it.  The token type is a function of the literal
    prefix and of the length: a string that starts with ["aas_et/"] and is
    longer than it is ["aes"]; otherwise a string that starts with ["ya29."]
    and is longer than it is ["oauth2"]; every other string, the two bare
    prefixes included, is ["unknown"]. *)
Theorem C6_token_type_by_proper_prefix (Auth : string) :
  server.tokenTypeOf Auth =
    if gostrings.HasPrefix Auth "aas_et/" && (7 <? strlen Auth) then "aes"
    else if gostrings.HasPrefix Auth "ya29." && (5 <? strlen Auth) then "oauth2"
    else "unknown".
Proof.
  unfold server.tokenTypeOf, gostrings.HasPrefix.
  rewrite !prefix_substring. cbn [String.length].
  rewrite (andb_comm (String.eqb _ "aas_et/")).
  rewrite (andb_comm (String.eqb _ "ya29.")).
  reflexivity.
Qed.

(** C6, as the claim states it, fails on the bare prefix. *)
Lemma C6_bare_prefix_counterexample :
  ~ (forall Auth : string,
       gostrings.HasPrefix Auth "aas_et/" = true ->
       server.tokenTypeOf Auth = "aes"%string).
Proof.
  intros H. specialize (H "aas_et/"%string eq_refl). vm_compute in H.
  discriminate H.
Qed.

(** ** The precondition of [FetchServiceToken] *)

(** C10.  [FetchServiceToken] returns the no-master-token error, and sends
    nothing, whenever the stored master token is empty or the stored email
    is empty. *)
Theorem C10_FetchServiceToken_needs_token_and_email
    (env : world.Env) (w : world.World) (cfg : config.Config)
    (scope appPackage appSig : string) :
  config.MasterToken cfg = EmptyString \/ config.Email cfg = EmptyString ->
  auth.FetchServiceToken env w cfg scope appPackage appSig
  = (w, auth.Failed None auth.NoMasterToken).
Proof.
  intros H. unfold auth.FetchServiceToken, config.HasMasterToken,
    config.nonEmpty.
  destruct H as [-> | ->]; cbn; [reflexivity|].
  rewrite andb_false_r. reflexivity.
Qed.

Lemma C10_FetchServiceToken_witness :
  auth.FetchServiceToken samples.offline samples.nothingSent
    (config.setAccount config.DefaultConfig "aas_et/master" "")
    "oauth2:https://mail.google.com/" "com.google.android.gm" auth.GoogleSig
  = (samples.nothingSent, auth.Failed None auth.NoMasterToken).
Proof.
  apply C10_FetchServiceToken_needs_token_and_email. right. reflexivity.
Defined.

(** ** The exchange of a captured token *)

Module exchange_facts.
Import world config server.

Lemma append_nonempty (a b : string) : a <> EmptyString -> a +:+ b <> EmptyString.
Proof. destruct a; [congruence | discriminate]. Qed.

Lemma errorString_nonempty (e : auth.error) : auth.errorString e <> EmptyString.
Proof. destruct e; discriminate. Qed.

(** A response without [Token] and without [Auth] stores nothing. *)
Lemma exchangeToken_empty env w cfg state oauthToken w' resp :
  auth.ExchangeOAuthForMaster env w cfg oauthToken = (w', auth.Returned resp) ->
  auth.Token resp = EmptyString -> auth.Auth resp = EmptyString ->
  exchangeToken env w cfg state oauthToken
  = (w', cfg, SetResult state ""
                ("empty token in response: " +:+ auth.Error resp)).
Proof.
  intros E Ht Ha. unfold exchangeToken. rewrite E, Ht, Ha. reflexivity.
Qed.

Lemma exchangeToken_failed env w cfg state oauthToken w' resp err :
  auth.ExchangeOAuthForMaster env w cfg oauthToken = (w', auth.Failed resp err) ->
  exchangeToken env w cfg state oauthToken
  = (w', cfg, SetResult state "" (auth.errorString err)).
Proof. intros E. unfold exchangeToken. rewrite E. reflexivity. Qed.

(** What [ExchangeOAuthForMaster] returns in each failure case. *)
Lemma exchange_failure env w cfg oauthToken :
  failures.exchangeFails env
    (auth.authRequest cfg (auth.masterForm cfg oauthToken)) ->
  let w' := send w (auth.authRequest cfg (auth.masterForm cfg oauthToken)) in
  (exists resp err,
     auth.ExchangeOAuthForMaster env w cfg oauthToken
     = (w', auth.Failed resp err))
  \/ (exists resp,
        auth.ExchangeOAuthForMaster env w cfg oauthToken
        = (w', auth.Returned resp)
        /\ auth.Token resp = EmptyString /\ auth.Auth resp = EmptyString).
Proof.
  intros H w'. unfold auth.ExchangeOAuthForMaster, auth.doAuthRequest.
  destruct H as [cause E | resp cause E Er | resp partial cause E Er
                | resp body E Er Hs | resp body E Er Hs Ht Ha];
    rewrite E; try rewrite Er.
  - left. eauto.
  - left. eauto.
  - left. eauto.
  - left. apply Z.eqb_neq in Hs. rewrite Hs. cbn [negb]. eauto.
  - right. rewrite Hs. cbn. eauto.
Qed.

End exchange_facts.

(** C8.  When the background exchange fails (the request fails, the body
    cannot be read, the status is not 200, or the response has no token)
    the configuration is left as it was, nothing is written to disk, and of
    the capture state only the result fields change: the email is cleared
    and an error message is recorded. *)
Theorem C8_failed_exchange_keeps_credentials
    (env : world.Env) (w : world.World) (cfg : config.Config)
    (state : server.ProxyState) (oauthToken : string) :
  failures.exchangeFails env
    (auth.authRequest cfg (auth.masterForm cfg oauthToken)) ->
  exists errMsg,
    errMsg <> EmptyString
    /\ server.exchangeToken env w cfg state oauthToken
       = (world.send w (auth.authRequest cfg (auth.masterForm cfg oauthToken)),
          cfg,
          server.SetResult state "" errMsg).
Proof.
  intros H.
  destruct (exchange_facts.exchange_failure env w cfg oauthToken H)
    as [(resp & err & E) | (resp & E & Ht & Ha)].
  - exists (auth.errorString err). split.
    + apply exchange_facts.errorString_nonempty.
    + eapply exchange_facts.exchangeToken_failed; eauto.
  - exists ("empty token in response: " +:+ auth.Error resp)%string. split.
    + apply exchange_facts.append_nonempty. discriminate.
    + eapply exchange_facts.exchangeToken_empty; eauto.
Qed.

Lemma C8_failed_exchange_witness :
  exists errMsg,
    errMsg <> EmptyString
    /\ server.exchangeToken (samples.answering 403 "Error=BadAuthentication")
         samples.nothingSent samples.loggedIn server.NewProxyState "oauth2_4/x"
       = (world.send samples.nothingSent
            (auth.authRequest samples.loggedIn
               (auth.masterForm samples.loggedIn "oauth2_4/x")),
          samples.loggedIn,
          server.SetResult server.NewProxyState "" errMsg).
Proof.
  apply C8_failed_exchange_keeps_credentials.
  eapply failures.BadStatus; [reflexivity | reflexivity | cbn; lia].
Defined.

(** ** An empty primary token *)

Module token_facts.
Import world config server.

(** The handler answers 200 only with the non-empty [Auth] of a response
    that [FetchServiceToken] returned without error. *)
Lemma tokenHandler_200 env w cfg r w' status json :
  tokenHandler env w cfg r = (w', (status, json)) -> status = 200 ->
  Token json <> EmptyString
  /\ exists scope appPackage appSig resp,
       auth.FetchServiceToken env w cfg scope appPackage appSig
       = (w', auth.Returned resp)
       /\ Token json = auth.Auth resp.
Proof.
  unfold tokenHandler. intros E Hs.
  repeat match type of E with
  | (if ?c then _ else _) = _ => destruct c eqn:?
  | match ?d with inl _ => _ | inr _ => _ end = _ => destruct d eqn:?
  | (let (_, _) := ?p in _) = _ => destruct p as [? [?|? ?]] eqn:?
  | match ?d with | auth.Returned _ => _ | auth.Failed _ _ => _ end = _ =>
      destruct d eqn:?
  end; inversion E; subst; try discriminate.
  cbn [Token]. split.
  - apply String.eqb_neq. assumption.
  - eauto 10.
Qed.

End token_facts.

(** ** Registration *)

Module checkin_facts.
Import world config proto checkin.

(** [Checkin] only sends; it writes no configuration. *)
Lemma Checkin_disk env w cfg : disk (Checkin env w cfg).1 = disk w.
Proof.
  unfold Checkin.
  destruct (Encode _ _) as [encoded| | |]; try reflexivity.
  destruct (Do env _) as [|resp]; try reflexivity.
  destruct (negb _); try reflexivity.
  destruct (reader resp) as [|[|body]]; try reflexivity.
  destruct (DecodeMessage _) as [decoded| | |]; try reflexivity.
  destruct (_ =? 0); reflexivity.
Qed.


Lemma Checkin_missing env w cfg encoded resp body decoded :
  Encode (buildCheckinRequest env cfg) CheckinRequestSchema = Ok encoded ->
  Do env (checkinRequest encoded) = inr resp ->
  StatusCode resp = 200 ->
  reader resp = inr (Data body) ->
  DecodeMessage (list_byte_of_string body) = Ok decoded ->
  fixed64Field decoded "7" 0 = 0 ->
  Checkin env w cfg = (send w (checkinRequest encoded), Err MissingAndroidId).
Proof.
  intros Eenc Edo Es Er Ed E7. unfold Checkin.
  rewrite Eenc, Edo, Es, Er, Ed, E7. reflexivity.
Qed.

End checkin_facts.




(** ** Two handlers racing for the capture *)

(** C2.  The capture is not first-writer-wins under concurrency: the test
    [IsCaptured] and the write [SetToken] are two critical sections, and
    the state is free between them.  Two handlers whose responses both
    carry the cookie can both pass the test before either writes; then both
    call [SetToken], both start an exchange, and the token of the later
    writer replaces the first. *)
Theorem C2_both_handlers_capture :
  let sys :=
    server.run
      (server.start [["oauth_token=A; Path=/; HttpOnly"%string];
                     ["oauth_token=B; Path=/; HttpOnly"%string]])
      [0; 1; 0; 0; 1; 1]%nat in
  server.finished sys
  /\ server.setCalls sys = ["A"; "B"]%string
  /\ server.exchanges sys = ["A"; "B"]%string
  /\ server.oauthToken (server.state sys) = "B"%string.
Proof.
  vm_compute. split; [|auto]. repeat constructor.
Qed.

(** ** The recursion budget of the decoder *)

Module fuel_facts.
Import binary binary_facts proto proto_facts.

Lemma slice_len {A} (data : list A) (lo hi : Z) :
  0 <= lo -> len (slice data lo hi) <= Z.max 0 (len data - lo).
Proof.
  intros H. unfold slice, len. rewrite length_take, length_drop. lia.
Qed.

Lemma classify_not_Fuel nested payload :
  nested <> Fuel -> classify nested payload <> Fuel.
Proof.
  unfold classify. destruct nested as [m|e| |]; intros H; try congruence.
  - destruct (0 <? size m)%nat; [discriminate|].
    destruct (isLikelyString payload); discriminate.
  - destruct (isLikelyString payload); discriminate.
Qed.

(** With a budget above the number of bytes left, the budget is never the
    reason the loop stops. *)
Lemma decodeLoop_not_Fuel (fuel : nat) : forall data pos result,
  0 <= pos -> Z.max 0 (len data - pos) < Z.of_nat fuel ->
  decodeLoop fuel data pos result <> Fuel.
Proof.
  induction fuel as [|fuel IH]; intros data pos result Hp Hf; [lia|].
  rewrite decodeLoop_unfold.
  destruct (pos <? len data) eqn:Hlt; cbn [negb]; [|discriminate].
  apply Z.ltb_lt in Hlt.
  destruct (Uvarint (drop (Z.to_nat pos) data)) as [tag n] eqn:Etag.
  destruct (n <=? 0) eqn:Hn; [discriminate|]. apply Z.leb_gt in Hn.
  cbv zeta.
  destruct (Z.land tag 7 =? WireVarint).
  { destruct (Uvarint (drop (Z.to_nat (pos + n)) data)) as [val n2].
    destruct (n2 <=? 0) eqn:Hn2; [discriminate|]. apply Z.leb_gt in Hn2.
    apply IH; lia. }
  destruct (Z.land tag 7 =? WireFixed64).
  { destruct (len data <? pos + n + 8); [discriminate|]. apply IH; lia. }
  destruct (Z.land tag 7 =? WireBytes).
  { destruct (Uvarint (drop (Z.to_nat (pos + n)) data)) as [length n2].
    destruct (n2 <=? 0) eqn:Hn2; [discriminate|]. apply Z.leb_gt in Hn2.
    set (hi := i64 (pos + n + n2 + i64 length)).
    destruct (len data <? hi) eqn:Hhi; [discriminate|].
    destruct (hi <? pos + n + n2) eqn:Hlo; [discriminate|].
    apply Z.ltb_ge in Hhi, Hlo.
    pose proof (slice_len data (pos + n + n2) hi ltac:(lia)) as Hs.
    assert (Hnest : decodeLoop fuel (slice data (pos + n + n2) hi) 0 ∅ <> Fuel)
      by (apply IH; lia).
    apply (classify_not_Fuel _ (slice data (pos + n + n2) hi)) in Hnest.
    destruct (classify _ _) as [v|e| |]; cbn; try discriminate;
      [|congruence].
    apply IH; lia. }
  destruct (Z.land tag 7 =? WireFixed32).
  { destruct (len data <? pos + n + 4); [discriminate|]. apply IH; lia. }
  discriminate.
Qed.

(** Two budgets above the number of bytes left give the same outcome. *)
Lemma decodeLoop_fuel (fuel1 : nat) : forall fuel2 data pos result,
  0 <= pos ->
  Z.max 0 (len data - pos) < Z.of_nat fuel1 ->
  Z.max 0 (len data - pos) < Z.of_nat fuel2 ->
  decodeLoop fuel1 data pos result = decodeLoop fuel2 data pos result.
Proof.
  induction fuel1 as [|fuel1 IH]; intros fuel2 data pos result Hp H1 H2;
    [lia|].
  destruct fuel2 as [|fuel2]; [lia|].
  rewrite !decodeLoop_unfold.
  destruct (pos <? len data) eqn:Hlt; cbn [negb]; [|reflexivity].
  apply Z.ltb_lt in Hlt.
  destruct (Uvarint (drop (Z.to_nat pos) data)) as [tag n] eqn:Etag.
  destruct (n <=? 0) eqn:Hn; [reflexivity|]. apply Z.leb_gt in Hn.
  cbv zeta.
  destruct (Z.land tag 7 =? WireVarint).
  { destruct (Uvarint (drop (Z.to_nat (pos + n)) data)) as [val n2].
    destruct (n2 <=? 0) eqn:Hn2; [reflexivity|]. apply Z.leb_gt in Hn2.
    apply IH; lia. }
  destruct (Z.land tag 7 =? WireFixed64).
  { destruct (len data <? pos + n + 8); [reflexivity|]. apply IH; lia. }
  destruct (Z.land tag 7 =? WireBytes).
  { destruct (Uvarint (drop (Z.to_nat (pos + n)) data)) as [length n2].
    destruct (n2 <=? 0) eqn:Hn2; [reflexivity|]. apply Z.leb_gt in Hn2.
    set (hi := i64 (pos + n + n2 + i64 length)).
    destruct (len data <? hi) eqn:Hhi; [reflexivity|].
    destruct (hi <? pos + n + n2) eqn:Hlo; [reflexivity|].
    apply Z.ltb_ge in Hhi, Hlo.
    pose proof (slice_len data (pos + n + n2) hi ltac:(lia)) as Hs.
    rewrite (IH fuel2 (slice data (pos + n + n2) hi) 0 ∅) by lia.
    destruct (classify _ _) as [v|e| |]; cbn; try reflexivity.
    apply IH; lia. }
  destruct (Z.land tag 7 =? WireFixed32).
  { destruct (len data <? pos + n + 4); [reflexivity|]. apply IH; lia. }
  reflexivity.
Qed.

(** The nested call of the loop is [DecodeMessage] on the payload. *)
Lemma decodeLoop_DecodeMessage fuel payload :
  len payload < Z.of_nat fuel ->
  decodeLoop fuel payload 0 ∅ = DecodeMessage payload.
Proof.
  intros H. unfold DecodeMessage. apply decodeLoop_fuel; unfold len in *; lia.
Qed.

End fuel_facts.

(** ** Decimal keys *)

Module strconv_facts.
Import strconv.

Lemma digit_pretty_N_char (d : N) :
  (d < 10)%N -> digit (pretty_N_char d) = Some (Z.of_N d).
Proof.
  intros H.
  assert (d = 0 \/ d = 1 \/ d = 2 \/ d = 3 \/ d = 4 \/ d = 5 \/ d = 6
          \/ d = 7 \/ d = 8 \/ d = 9)%N as Hd by lia.
  repeat (destruct Hd as [-> | Hd]; [reflexivity|]). subst. reflexivity.
Qed.

(** Parsing the digits [pretty_N_go] puts in front of [s]. *)
Lemma digits_pretty_N_go (x : N) : forall s,
  exists k, 0 <= k /\ forall acc,
    digits (pretty_N_go x s) acc = digits s (acc * 10 ^ k + Z.of_N x).
Proof.
  induction (N.lt_wf_0 x) as [x _ IH]; intros s.
  destruct (N.eq_dec x 0%N) as [-> | Hx].
  - exists 0. split; [lia|]. intros acc. rewrite pretty_N_go_0.
    f_equal. cbn. lia.
  - rewrite pretty_N_go_step by lia.
    destruct (IH (x `div` 10)%N ltac:(apply N.div_lt; lia)
                 (String (pretty_N_char (x `mod` 10)%N) s)) as (k & Hk & E).
    exists (k + 1). split; [lia|]. intros acc. rewrite E. cbn [digits].
    rewrite digit_pretty_N_char by (apply N.mod_lt; lia).
    f_equal. rewrite Z.pow_add_r by lia. change (10 ^ 1) with 10.
    pose proof (N.div_mod x 10 ltac:(lia)) as Hdm.
    assert (Z.of_N x = 10 * Z.of_N (x `div` 10)%N + Z.of_N (x `mod` 10)%N) by lia.
    lia.
Qed.

(** A printed positive number starts with a digit. *)
Lemma pretty_N_go_head (x : N) : forall s,
  (0 < x)%N ->
  exists c r, pretty_N_go x s = String c r /\ digit c <> None.
Proof.
  induction (N.lt_wf_0 x) as [x _ IH]; intros s Hx.
  rewrite pretty_N_go_step by lia.
  destruct (N.eq_dec (x `div` 10)%N 0%N) as [E | Hd].
  - rewrite E, pretty_N_go_0. eexists _, _. split; [reflexivity|].
    rewrite digit_pretty_N_char by (apply N.mod_lt; lia). discriminate.
  - apply IH; [apply N.div_lt; lia | apply N.neq_0_lt_0; exact Hd].
Qed.

Lemma digit_not_sign (c : ascii) :
  digit c <> None -> c <> "+"%char /\ c <> "-"%char.
Proof. intros H. split; intros ->; apply H; reflexivity. Qed.

Lemma Atoi_unsigned (c : ascii) (r : string) (n : Z) :
  digit c <> None -> digits (String c r) 0 = Some n -> 0 <= n < 2 ^ 63 ->
  Atoi (String c r) = (n, false).
Proof.
  intros Hc Hd Hn. destruct (digit_not_sign c Hc) as [Hp Hm].
  unfold Atoi.
  assert (E : match String c r with
              | String "+"%char r0 => (false, r0)
              | String "-"%char r0 => (true, r0)
              | _ => (false, String c r)
              end = (false, String c r)).
  { destruct c as [[] [] [] [] [] [] [] []]; try reflexivity; congruence. }
  rewrite E, Hd.
  replace (2 ^ 63 - 1 <? n) with false by (symmetry; apply Z.ltb_ge; lia).
  reflexivity.
Qed.

Lemma Atoi_Itoa_pos (p : positive) :
  Z.pos p < 2 ^ 63 -> Atoi (Itoa (Z.pos p)) = (Z.pos p, false).
Proof.
  intros H. unfold Itoa, pretty, pretty_Z, pretty, pretty_positive, pretty,
    pretty_N. rewrite decide_False by discriminate.
  destruct (pretty_N_go_head (N.pos p) "" ltac:(lia)) as (c & r & E & Hc).
  destruct (digits_pretty_N_go (N.pos p) "") as (k & Hk & Hd).
  specialize (Hd 0). rewrite E in *.
  apply Atoi_unsigned; [exact Hc | | lia].
  rewrite Hd. cbn [digits]. f_equal.
Qed.

(** [Atoi] reads back what [%d] prints of a non-negative [int]. *)
Lemma Atoi_Itoa (n : Z) :
  0 <= n < 2 ^ 63 -> Atoi (Itoa n) = (n, false).
Proof.
  intros H. destruct n as [|p|p]; [reflexivity | | lia].
  apply Atoi_Itoa_pos. lia.
Qed.

End strconv_facts.

(** ** Encoding scalars *)

Module encode_facts.
Import binary binary_facts proto proto_facts wire roundtrip.

Lemma length_list_byte_of_string (s : string) :
  len (list_byte_of_string s) = strlen s.
Proof.
  unfold len, strlen. f_equal.
  induction s as [|c s IH]; [reflexivity|].
  change (list_byte_of_string (String c s))
    with (byte_of_ascii c :: list_byte_of_string s).
  cbn [length String.length]. congruence.
Qed.

Lemma u64_u64 z : u64 (u64 z) = u64 z.
Proof. apply u64_small, u64_range. Qed.

Section scalars.
Variable rec : list byte -> Message -> MessageType -> outcome (list byte).

(** An item of a typed field. *)
Lemma encodeTypedField_scalar buf fieldNum v d :
  fits (Some d) v = true ->
  encodeTypedField rec buf fieldNum v d = Ok (buf ++ fieldBytes fieldNum v).
Proof.
  unfold fits, encodeTypedField, fieldBytes.
  destruct (String.eqb (Type_ d) TypeInt).
  { destruct v; try discriminate; intros _; cbn;
      unfold writeVarint, writeTag, writeVarint;
      rewrite ?u64_i64, ?app_nil_l, ?app_assoc; try reflexivity.
    destruct b; cbn; rewrite ?app_assoc; reflexivity. }
  destruct (String.eqb (Type_ d) TypeBool).
  { destruct v; try discriminate; intros _; cbn.
    unfold writeVarint, writeTag, writeVarint.
    destruct b; rewrite ?app_nil_l, ?app_assoc; reflexivity. }
  destruct (String.eqb (Type_ d) TypeString).
  { destruct v; try discriminate; intros _; cbn.
    unfold writeVarint, writeTag, writeVarint.
    rewrite length_list_byte_of_string, ?app_nil_l, ?app_assoc.
    reflexivity. }
  destruct (String.eqb (Type_ d) TypeBytes); [|discriminate].
  destruct v; try discriminate; intros _; cbn;
    unfold writeVarint, writeTag, writeVarint;
    rewrite ?length_list_byte_of_string, ?app_nil_l, ?app_assoc;
    reflexivity.
Qed.

(** A field without schema entry. *)
Lemma encodeAutoField_scalar buf fieldNum v :
  fits None v = true ->
  encodeAutoField rec buf fieldNum v = Ok (buf ++ fieldBytes fieldNum v).
Proof.
  unfold fits, encodeAutoField, fieldBytes.
  destruct v; try discriminate; intros _; cbn;
    unfold writeVarint, writeTag, writeVarint;
    rewrite ?length_list_byte_of_string, ?app_nil_l, ?app_assoc;
    try reflexivity.
  destruct b; rewrite ?app_assoc; reflexivity.
Qed.

Lemma fits_not_slice def v : fits def v = true ->
  match v with VSlice _ => False | _ => True end.
Proof.
  destruct v; try exact (fun _ => I). unfold fits.
  destruct def as [d|]; [|discriminate].
  repeat (destruct (String.eqb _ _); [discriminate|]). discriminate.
Qed.

(** One scalar field of a message, under its decimal key. *)
Lemma encodeKey_scalar (msg : Message) (schema : MessageType) buf key n v :
  msg !! key = Some v -> strconv.Atoi key = (n, false) ->
  fits (schema !! key) v = true ->
  encodeKey rec msg schema buf key = Ok (buf ++ fieldBytes n v).
Proof.
  intros Hv Hk Hf. unfold encodeKey. rewrite Hv, Hk. cbn [default].
  destruct (schema !! key) as [d|] eqn:Ed.
  - destruct (Repeated d).
    + pose proof (fits_not_slice _ _ Hf) as Hns.
      destruct v; try contradiction; unfold forEach;
        cbn [foldl mbind outcome_bind];
        apply encodeTypedField_scalar; exact Hf.
    + apply encodeTypedField_scalar. exact Hf.
  - apply encodeAutoField_scalar. exact Hf.
Qed.

End scalars.

Lemma forEach_Ok_cons {A S} (body : S -> A -> outcome S) x xs s s' :
  body s x = Ok s' -> forEach body (x :: xs) s = forEach body xs s'.
Proof. intros E. unfold forEach. cbn. rewrite E. reflexivity. Qed.

End encode_facts.

(** ** Decoding what was encoded *)

Module decode_facts.
Import binary binary_facts proto proto_facts fuel_facts wire roundtrip.

Lemma fits_scalar def v : fits def v = true -> scalar v.
Proof.
  intros H. assert (Hs :
    match v with
    | VInt _ | VInt32 _ | VInt64 _ | VUint64 _ | VBool _
    | VString _ | VBytes _ => True
    | _ => False
    end).
  { unfold fits in H. destruct def as [d|].
    - repeat (destruct (String.eqb _ _); [destruct v; try discriminate; exact I|]).
      discriminate.
    - destruct v; try discriminate; exact I. }
  unfold scalar. destruct v; try contradiction; cbn; eauto.
Qed.

Lemma wireInt_range v z : wireInt v = Some z -> 0 <= z < 2 ^ 64.
Proof.
  destruct v; cbn; intros E; inversion E; subst; try apply u64_range.
  destruct b; lia.
Qed.

Lemma wireInt_recovered v z :
  wireInt v = Some z -> recovered v (VInt64 (i64 z)).
Proof.
  destruct v; cbn; intros E; inversion E; subst; cbn;
    rewrite ?i64_u64; try reflexivity.
  destruct b; reflexivity.
Qed.

Lemma wirePayload_recovered v p d :
  wireInt v = None -> wirePayload v = Some p ->
  recoveredPayload p d -> recovered v d.
Proof.
  destruct v; cbn; intros E1 E2; inversion E2; subst; try discriminate;
    intros H; exact H.
Qed.

Lemma PutUvarint_nonempty x : 0 <= x < 2 ^ 64 -> 0 < len (PutUvarint x).
Proof. intros H. apply (Uvarint_PutUvarint x [] H). Qed.

Lemma fieldBytes_nonempty n v : scalar v -> 1 < len (fieldBytes n v).
Proof.
  intros Hs. unfold fieldBytes.
  assert (Ht : forall wt, 0 <= wt < 8 -> 0 < len (PutUvarint (tagOf n wt))).
  { intros wt Hw. apply PutUvarint_nonempty.
    apply (tagOf_spec n wt Hw). }
  destruct (wireInt v) as [z|] eqn:Ei.
  - unfold writeVarint. rewrite writeTag_eq, app_nil_l, length_app_len.
    pose proof (PutUvarint_nonempty z (wireInt_range _ _ Ei)).
    pose proof (Ht WireVarint ltac:(unfold WireVarint; lia)). lia.
  - destruct Hs as [[? ?]|[p Ep]]; [congruence|]. rewrite Ep.
    unfold writeVarint. rewrite writeTag_eq, app_nil_l, !length_app_len.
    pose proof (PutUvarint_nonempty (u64 (len p)) (u64_range _)).
    pose proof (Ht WireBytes ltac:(unfold WireBytes; lia)).
    unfold len in *. lia.
Qed.

(** The outcome of classifying a payload whose nested attempt neither
    panics nor runs out of budget. *)
Lemma classify_recovered p :
  DecodeMessage p <> Panic ->
  exists d, classify (DecodeMessage p) p = Ok d /\ recoveredPayload p d.
Proof.
  intros Hp.
  assert (Hf : DecodeMessage p <> Fuel).
  { unfold DecodeMessage. apply decodeLoop_not_Fuel; unfold len; lia. }
  unfold classify, recoveredPayload, textOrBytes.
  destruct (DecodeMessage p) as [m|e| |] eqn:E; try congruence.
  - destruct (0 <? size m)%nat eqn:Hs.
    + exists (VMap m). split; [reflexivity|]. right. exists m.
      apply Nat.ltb_lt in Hs. auto.
    + destruct (isLikelyString p); eexists; split; try reflexivity;
        left; reflexivity.
  - destruct (isLikelyString p); eexists; split; try reflexivity;
      left; reflexivity.
Qed.

(** One scalar field, written at [pos], read back. *)
Lemma decode_scalar_field fuel data pos result n v rest :
  0 <= pos -> len data < 2 ^ 63 ->
  Z.max 0 (len data - pos) < Z.of_nat (S fuel) ->
  scalar v -> decodable v ->
  drop (Z.to_nat pos) data = fieldBytes n v ++ rest ->
  exists d,
    recovered v d
    /\ decodeLoop (S fuel) data pos result
       = decodeLoop fuel data (pos + len (fieldBytes n v))
           (addToResult result (keyOf n) d).
Proof.
  intros Hp Hd Hf Hs Hdec E. unfold fieldBytes in *.
  destruct (wireInt v) as [z|] eqn:Ei.
  - exists (VInt64 (i64 z)). split; [apply wireInt_recovered; exact Ei|].
    apply decode_varint_field with (rest := rest); auto.
    eapply wireInt_range; eauto.
  - destruct Hs as [[? ?]|[p Ep]]; [congruence|]. rewrite Ep in *.
    unfold decodable in Hdec. rewrite Ep in Hdec.
    destruct (classify_recovered p Hdec) as (d & Ec & Hr).
    exists d. split; [eapply wirePayload_recovered; eauto|].
    rewrite <- app_assoc in E.
    rewrite (decode_bytes_field fuel data pos result n p rest Hp Hd E).
    pose proof (drop_len_le _ _ _ _ Hp E) as Hl.
    rewrite !length_app_len in Hl.
    assert (Hh : 0 < len (writeVarint (writeTag [] n WireBytes) (u64 (len p)))).
    { unfold writeVarint. rewrite length_app_len.
      pose proof (PutUvarint_nonempty (u64 (len p)) (u64_range _)).
      unfold len in *. lia. }
    rewrite decodeLoop_DecodeMessage by (unfold len in *; lia).
    rewrite Ec. cbn [mbind outcome_bind].
    rewrite length_app_len. f_equal. lia.
Qed.

(** A run of scalar fields: each is read back and filed with
    [addToResult], in the order written. *)
Lemma decode_fields (L : list (Z * value)) : forall fuel data pos result,
  0 <= pos -> len data < 2 ^ 63 ->
  Z.max 0 (len data - pos) < Z.of_nat fuel ->
  Forall (fun nv => scalar nv.2 /\ decodable nv.2) L ->
  drop (Z.to_nat pos) data = concat (map (fun nv => fieldBytes nv.1 nv.2) L) ->
  exists ds,
    Forall2 (fun nv d => recovered nv.2 d) L ds
    /\ decodeLoop fuel data pos result
       = Ok (foldl (fun r nd => addToResult r (keyOf nd.1) nd.2) result
                   (zip (map fst L) ds)).
Proof.
  induction L as [|[n v] L IH]; intros fuel data pos result Hp Hd Hf HL E.
  - exists []. split; [constructor|]. cbn.
    destruct fuel as [|fuel]; [lia|].
    apply decodeLoop_end. apply (f_equal length) in E.
    rewrite length_drop in E. cbn in E. unfold len. lia.
  - inversion HL as [|? ? [Hs Hdec] HL']; subst. cbn [fst snd] in *.
    cbn [map concat] in E. cbn [fst snd] in E.
    destruct fuel as [|fuel]; [lia|].
    destruct (decode_scalar_field fuel data pos result n v _ Hp Hd Hf Hs Hdec E)
      as (d & Hr & Estep).
    pose proof (fieldBytes_nonempty n v Hs) as Hne.
    pose proof (drop_len_le _ _ _ _ Hp E) as Hl.
    destruct (IH fuel data (pos + len (fieldBytes n v))
                 (addToResult result (keyOf n) d))
      as (ds & Hds & Erest);
      [lia | exact Hd | unfold len in *; lia | exact HL'
      | eapply drop_app_len; eauto |].
    exists (d :: ds). split; [constructor; assumption|].
    rewrite Estep, Erest. reflexivity.
Qed.

End decode_facts.

(** ** The round trip of a message of scalar fields *)

Module roundtrip_facts.
Import binary binary_facts proto proto_facts fuel_facts wire roundtrip.
Import encode_facts decode_facts fields.

Lemma canonicalKey_Atoi key :
  canonicalKey key -> strconv.Atoi key = ((strconv.Atoi key).1, false).
Proof.
  intros [Hk Hn]. rewrite <- Hk at 1.
  apply strconv_facts.Atoi_Itoa. lia.
Qed.

Lemma canonicalKey_keyOf key :
  canonicalKey key -> keyOf (strconv.Atoi key).1 = key.
Proof.
  intros [Hk Hn]. unfold keyOf. rewrite Z.mod_small by lia. exact Hk.
Qed.

(** The encoder on a list of keys of scalar fields. *)
Lemma forEach_scalars rec (m : Message) (schema : MessageType) (L : list string) :
  forall buf,
  Forall (fun k => exists v, m !! k = Some v /\ roundTrips schema k v) L ->
  forEach (encodeKey rec m schema) L buf
  = Ok (buf ++ concat (map (fieldOf m) L)).
Proof.
  induction L as [|k L IH]; intros buf HL.
  - cbn. rewrite app_nil_r. reflexivity.
  - inversion HL as [|? ? (v & Hv & Hc & Hf & _) HL']; subst.
    rewrite (forEach_Ok_cons _ _ _ _ (buf ++ fieldOf m k)).
    + rewrite IH by exact HL'. cbn [map concat]. rewrite app_assoc.
      reflexivity.
    + unfold fieldOf. rewrite Hv. cbn [default].
      apply encodeKey_scalar; auto. apply canonicalKey_Atoi. exact Hc.
Qed.

Lemma sortedKeys_spec (m : Message) :
  NoDup (sortedKeys m) /\ forall k, k ∈ sortedKeys m <-> is_Some (m !! k).
Proof.
  unfold sortedKeys.
  pose proof (merge_sort_Permutation keyLe (map fst (map_to_list m))) as HP.
  split.
  - rewrite HP. apply NoDup_fst_map_to_list.
  - intros k. rewrite HP. rewrite list_elem_of_fmap. split.
    + intros ([k' v] & -> & Hin). apply elem_of_map_to_list in Hin.
      cbn. eauto.
    + intros [v Hv]. exists (k, v). split; [reflexivity|].
      apply elem_of_map_to_list. exact Hv.
Qed.

Lemma Encode_unfold (m : Message) (schema : MessageType) :
  exists fuel,
    Encode m schema
    = forEach (encodeKey (encodeMessage fuel) m schema) (sortedKeys m) [].
Proof. unfold Encode. cbn [depth]. eexists. reflexivity. Qed.

Lemma addToResult_fresh (result : Message) key v :
  result !! key = None -> addToResult result key v = <[key := v]> result.
Proof. intros H. unfold addToResult. rewrite H. reflexivity. Qed.

(** The decoder on the fields of distinct keys: each key gets the value
    recovered from its field, and no other key is touched. *)
Lemma decode_keys (m : Message) (schema : MessageType) (L : list string) :
  forall fuel data pos (result : Message),
  0 <= pos -> len data < 2 ^ 63 ->
  Z.max 0 (len data - pos) < Z.of_nat fuel ->
  NoDup L ->
  Forall (fun k => result !! k = None
                   /\ exists v, m !! k = Some v /\ roundTrips schema k v) L ->
  drop (Z.to_nat pos) data = concat (map (fieldOf m) L) ->
  exists r : Message,
    decodeLoop fuel data pos result = Ok r
    /\ (forall k v, k ∈ L -> m !! k = Some v ->
          exists d, r !! k = Some d /\ recovered v d)
    /\ (forall k, k ∉ L -> r !! k = result !! k).
Proof.
  induction L as [|k0 L IH]; intros fuel data pos result Hp Hd Hf Hnd HL E.
  - exists result. destruct fuel as [|fuel]; [lia|]. split; [|split].
    + apply decodeLoop_end. apply (f_equal length) in E.
      rewrite length_drop in E. cbn in E. unfold len. lia.
    + intros k v Hin. inversion Hin.
    + reflexivity.
  - inversion HL as [|? ? (Hfresh & v0 & Hv0 & Hc & Hfit & Hdec) HL']; subst.
    inversion Hnd as [|? ? Hnotin Hnd']; subst.
    cbn [map concat] in E. unfold fieldOf at 1 in E.
    rewrite Hv0 in E. change (default VOther (Some v0)) with v0 in E.
    destruct fuel as [|fuel]; [lia|].
    pose proof (fits_scalar _ _ Hfit) as Hs.
    destruct (decode_scalar_field fuel data pos result _ v0 _
                Hp Hd Hf Hs Hdec E) as (d0 & Hr0 & Estep).
    rewrite canonicalKey_keyOf in Estep by exact Hc.
    rewrite addToResult_fresh in Estep by exact Hfresh.
    pose proof (fieldBytes_nonempty (strconv.Atoi k0).1 v0 Hs) as Hne.
    pose proof (drop_len_le _ _ _ _ Hp E) as Hl.
    destruct (IH fuel data (pos + len (fieldBytes (strconv.Atoi k0).1 v0))
                 (<[k0 := d0]> result))
      as (r & Er & Hin & Hout);
      [lia | exact Hd | unfold len in *; lia | exact Hnd' | |
       eapply drop_app_len; eauto |].
    { rewrite Forall_forall in HL' |- *. intros k Hk.
      destruct (HL' k Hk) as [Hnone Hrest]. split; [|exact Hrest].
      rewrite lookup_insert_ne; [exact Hnone|]. intros ->. contradiction. }
    exists r. split; [rewrite Estep; exact Er|]. split.
    + intros k v Hk Hv. apply elem_of_cons in Hk as [-> | Hk].
      * rewrite Hout by exact Hnotin. rewrite lookup_insert_eq.
        assert (v = v0) by congruence. subst. eauto.
      * eauto.
    + intros k Hk. apply not_elem_of_cons in Hk as [Hne0 Hk].
      rewrite Hout by exact Hk. apply lookup_insert_ne. congruence.
Qed.

End roundtrip_facts.

(** C1, as the code has it.  For every message whose keys are the decimal
    numerals of field numbers below [2^61] and whose values are scalars
    consistent with the schema (and no text or byte payload makes the
    nested decoding attempt panic), [Encode] succeeds; and when the
    encoding is shorter than [2^63] bytes, as every Go slice is,
    [DecodeMessage] succeeds on it and yields a mapping with the same keys
    whose values recover the message's: integers as the [int64] with the
    same bits, booleans as 0 or 1, text and bytes with the same bytes,
    except that a payload which parses as a non-empty nested message comes
    back as that message. *)
Theorem C1_scalar_round_trip (m : proto.Message) (schema : proto.MessageType) :
  map_Forall (fields.roundTrips schema) m ->
  exists enc,
    proto.Encode m schema = Ok enc
    /\ (len enc < 2 ^ 63 ->
        exists r : proto.Message,
          proto.DecodeMessage enc = Ok r
          /\ dom r = dom m
          /\ forall k v, m !! k = Some v ->
               exists d, r !! k = Some d /\ roundtrip.recovered v d).
Proof.
  intros Hm.
  destruct (roundtrip_facts.sortedKeys_spec m) as [Hnd Hkeys].
  assert (HL : Forall (fun k => (∅ : proto.Message) !! k = None
                /\ exists v, m !! k = Some v /\ fields.roundTrips schema k v)
                (proto.sortedKeys m)).
  { rewrite Forall_forall. intros k Hk. split; [apply lookup_empty|].
    apply Hkeys in Hk as [v Hv]. exists v. split; [exact Hv|].
    exact (Hm k v Hv). }
  destruct (roundtrip_facts.Encode_unfold m schema) as [fuel Henc].
  rewrite roundtrip_facts.forEach_scalars in Henc
    by (eapply Forall_impl; [exact HL|]; intros k [_ H]; exact H).
  eexists. split; [exact Henc|]. cbn [app]. intros Hlen.
  set (enc := concat (map (roundtrip.fieldOf m) (proto.sortedKeys m)))
    in *.
  destruct (roundtrip_facts.decode_keys m schema (proto.sortedKeys m)
              (S (length enc)) enc 0 ∅)
    as (r & Er & Hin & Hout); auto; try (unfold len; lia).
  exists r. split; [exact Er|]. split.
  - apply set_eq. intros k. rewrite !elem_of_dom, <- Hkeys.
    split.
    + intros Hr. destruct (decide (k ∈ proto.sortedKeys m)) as [|Hn]; [done|].
      rewrite (Hout k Hn), lookup_empty in Hr. destruct Hr; discriminate.
    + intros Hk. pose proof Hk as Hk'. apply Hkeys in Hk' as [v Hv].
      destruct (Hin k v Hk Hv) as (d & Hd & _). eauto.
  - intros k v Hv. apply Hin; [|exact Hv]. apply Hkeys. eauto.
Qed.

Lemma C1_scalar_round_trip_witness :
  exists enc,
    proto.Encode
      (list_to_map [("1", proto.VInt64 (-1)); ("2", proto.VString "hi");
                    ("15", proto.VBool true)]%string)
      (list_to_map [("1", proto.field proto.TypeInt);
                    ("2", proto.field proto.TypeString)]%string)
    = Ok enc
    /\ (len enc < 2 ^ 63 ->
        exists r : proto.Message,
          proto.DecodeMessage enc = Ok r
          /\ dom r
             = dom (list_to_map
                      [("1", proto.VInt64 (-1)); ("2", proto.VString "hi");
                       ("15", proto.VBool true)]%string : proto.Message)
          /\ forall k v,
               (list_to_map
                  [("1", proto.VInt64 (-1)); ("2", proto.VString "hi");
                   ("15", proto.VBool true)]%string : proto.Message) !! k
               = Some v ->
               exists d, r !! k = Some d /\ roundtrip.recovered v d).
Proof.
  apply C1_scalar_round_trip.
  assert (Hkey : forall key v,
            (strconv.Itoa (strconv.Atoi key).1 =? key)%string = true ->
            (0 <=? (strconv.Atoi key).1) && ((strconv.Atoi key).1 <? 2 ^ 61)
            = true ->
            roundtrip.fits
              ((list_to_map [("1", proto.field proto.TypeInt);
                             ("2", proto.field proto.TypeString)]%string
                : proto.MessageType) !! key) v = true ->
            roundtrip.decodable v ->
            fields.roundTrips
              (list_to_map [("1", proto.field proto.TypeInt);
                            ("2", proto.field proto.TypeString)]%string)
              key v).
  { intros key v Hk Hn Hf Hd.
    apply String.eqb_eq in Hk. apply andb_prop in Hn as [H0 H1].
    apply Z.leb_le in H0. apply Z.ltb_lt in H1.
    split; [split; [exact Hk | split; [exact H0 | exact H1]]|].
    split; [exact Hf | exact Hd]. }
  apply map_Forall_insert_2; [|apply map_Forall_insert_2;
    [|apply map_Forall_insert_2; [|apply map_Forall_empty]]]; apply Hkey;
    try (vm_compute; reflexivity); try exact I.
  vm_compute. discriminate.
Defined.

(** C1, as the claim states it, fails for a field number of [2^61] or
    more: the shift in the tag drops its high bits, and the value comes
    back under another key. *)
Lemma C1_large_field_number_counterexample :
  ~ (forall (m : proto.Message) (schema : proto.MessageType),
       map_Forall (fields.parses schema) m ->
       exists enc (r : proto.Message),
         proto.Encode m schema = Ok enc
         /\ proto.DecodeMessage enc = Ok r
         /\ forall k v, m !! k = Some v ->
              exists d, r !! k = Some d /\ roundtrip.recovered v d).
Proof.
  intros H.
  destruct (H {[ "2305843009213693952"%string := proto.VInt64 5 ]}
              {[ "2305843009213693952"%string := proto.field proto.TypeInt ]})
    as (enc & r & He & Hd & Hl).
  - apply map_Forall_singleton. split; [reflexivity|].
    split; [reflexivity | exact I].
  - vm_compute in He. inversion He; subst enc. clear He.
    destruct (Hl "2305843009213693952"%string (proto.VInt64 5)
                 (lookup_singleton_eq _ _)) as (d & Hr & _).
    assert (E : proto.DecodeMessage [Byte.x00; Byte.x05]
                = Ok {[ "0"%string := proto.VInt64 5 ]})
      by (vm_compute; reflexivity).
    rewrite E in Hd. inversion Hd; subst r.
    rewrite lookup_singleton_ne in Hr by discriminate. discriminate.
Qed.

(** ** Repeated fields *)

(** C7.  A repeated bytes field holding three byte strings is written as
    three tag and payload pairs with the same field number, but decoding
    that output does not always yield a sequence: the decoder tries every
    payload as a nested message, and the second payload here makes that
    attempt panic (the defect of C4). *)
Theorem C7_repeated_bytes_field_panics :
  let wrapped :=
    [Byte.x0a; Byte.xff; Byte.xff; Byte.xff; Byte.xff; Byte.xff;
     Byte.xff; Byte.xff; Byte.xff; Byte.xff; Byte.x01] in
  let items :=
    [proto.VBytes [Byte.x01]; proto.VBytes wrapped; proto.VBytes [Byte.x02]] in
  let enc :=
    roundtrip.fieldBytes 1 (proto.VBytes [Byte.x01])
    ++ roundtrip.fieldBytes 1 (proto.VBytes wrapped)
    ++ roundtrip.fieldBytes 1 (proto.VBytes [Byte.x02]) in
  proto.Encode {[ "1"%string := proto.VSlice items ]}
               {[ "1"%string := proto.repeated proto.TypeBytes ]}
  = Ok enc
  /\ proto.DecodeMessage enc = Panic.
Proof. vm_compute. split; reflexivity. Qed.

Module repeated_facts.
Import binary binary_facts proto proto_facts fuel_facts wire roundtrip.
Import encode_facts decode_facts.

Lemma recovered_notSlice v d : recovered v d -> notSlice d.
Proof.
  assert (Hp : forall p, recoveredPayload p d -> notSlice d).
  { intros p [-> | (nested & _ & _ & ->)]; [|exact I].
    unfold textOrBytes. destruct (isLikelyString p); exact I. }
  destruct v; cbn; try contradiction; try (intros ->; exact I); eauto.
Qed.

(** Further occurrences are appended to the sequence. *)
Lemma addToResult_more (r0 : Message) key (ds : list value) : forall pre,
  foldl (fun r d => addToResult r key d) (<[key := VSlice pre]> r0) ds
  = <[key := VSlice (pre ++ ds)]> r0.
Proof.
  induction ds as [|d ds IH]; intros pre; cbn [foldl].
  - rewrite app_nil_r. reflexivity.
  - unfold addToResult at 2. rewrite lookup_insert_eq, insert_insert_eq.
    rewrite IH, <- app_assoc. reflexivity.
Qed.

(** All occurrences of one key, from a result that has none. *)
Lemma addToResult_collect (r0 : Message) key (ds : list value) :
  r0 !! key = None -> Forall notSlice ds ->
  foldl (fun r d => addToResult r key d) r0 ds
  = match collected ds with
    | Some d => <[key := d]> r0
    | None => r0
    end.
Proof.
  intros Hfresh Hds. destruct ds as [|d1 [|d2 ds]]; cbn [foldl collected].
  - reflexivity.
  - unfold addToResult. rewrite Hfresh. reflexivity.
  - inversion Hds as [|? ? Hd1 _]; subst.
    assert (E1 : addToResult r0 key d1 = <[key := d1]> r0)
      by (unfold addToResult; rewrite Hfresh; reflexivity).
    assert (E2 : addToResult (<[key := d1]> r0) key d2
                 = <[key := VSlice [d1; d2]]> r0).
    { unfold addToResult. rewrite lookup_insert_eq.
      destruct d1; try contradiction; apply insert_insert_eq. }
    rewrite E1, E2. apply (addToResult_more r0 key ds [d1; d2]).
Qed.

(** The items of a repeated field, one tag and payload pair each. *)
Lemma forEach_items rec n d (items : list value) : forall buf,
  Forall (fun v => fits (Some d) v = true) items ->
  forEach (fun buf item => encodeTypedField rec buf n item d) items buf
  = Ok (buf ++ concat (map (fieldBytes n) items)).
Proof.
  induction items as [|v items IH]; intros buf H.
  - cbn. rewrite app_nil_r. reflexivity.
  - inversion H as [|? ? Hv H']; subst.
    rewrite (forEach_Ok_cons _ _ _ _ (buf ++ fieldBytes n v))
      by (apply encodeTypedField_scalar; exact Hv).
    rewrite IH by exact H'. cbn [map concat]. rewrite app_assoc. reflexivity.
Qed.

Lemma sortedKeys_singleton key (v : value) : sortedKeys {[ key := v ]} = [key].
Proof. unfold sortedKeys. rewrite map_to_list_singleton. reflexivity. Qed.

Lemma foldl_same_key n (items : list value) : forall (ds : list value) (r : Message),
  length items = length ds ->
  foldl (fun r nd => addToResult r (keyOf nd.1) nd.2) r
        (zip (map fst (map (fun v => (n, v)) items)) ds)
  = foldl (fun r d => addToResult r (keyOf n) d) r ds.
Proof.
  induction items as [|v items IH]; intros [|d ds] r Hl;
    try discriminate; [reflexivity|].
  cbn. apply IH. cbn in Hl. lia.
Qed.

End repeated_facts.

(** A repeated field of scalar items: [Encode] writes one tag and payload
    pair per item, in order; decoding gives the recovered items under the
    field's key, as a single value for one item and as a sequence in the
    original order for two or more (provided no payload makes the nested
    decoding attempt panic). *)
Theorem repeated_field_round_trip
    (key : string) (n : Z) (def : proto.FieldDef) (items : list proto.value) :
  strconv.Atoi key = (n, false) ->
  proto.Repeated def = true ->
  Forall (fun v => roundtrip.fits (Some def) v = true
                   /\ roundtrip.decodable v) items ->
  let enc := concat (map (roundtrip.fieldBytes n) items) in
  proto.Encode {[ key := proto.VSlice items ]} {[ key := def ]} = Ok enc
  /\ (len enc < 2 ^ 63 ->
      exists ds,
        Forall2 roundtrip.recovered items ds
        /\ proto.DecodeMessage enc
           = Ok (match roundtrip.collected ds with
                 | Some d => {[ wire.keyOf n := d ]}
                 | None => ∅
                 end)).
Proof.
  intros Hk Hrep Hitems enc. split.
  - destruct (roundtrip_facts.Encode_unfold
                {[ key := proto.VSlice items ]} {[ key := def ]})
      as [fuel ->].
    rewrite repeated_facts.sortedKeys_singleton.
    unfold forEach at 1. cbn [foldl mbind outcome_bind].
    unfold proto.encodeKey.
    rewrite !lookup_singleton_eq, Hk, Hrep. cbn [default].
    rewrite repeated_facts.forEach_items; [reflexivity|].
    eapply Forall_impl; [exact Hitems|]. intros v [H _]. exact H.
  - intros Hlen.
    destruct (decode_facts.decode_fields (map (fun v => (n, v)) items)
                (S (length enc)) enc 0 ∅) as (ds & Hds & Edec);
      try (unfold len in *; lia).
    + apply Forall_fmap. eapply Forall_impl; [exact Hitems|].
      intros v [Hf Hd]. split; [|exact Hd].
      eapply decode_facts.fits_scalar; eauto.
    + rewrite map_map. reflexivity.
    + apply Forall2_fmap_l in Hds.
      assert (Em : (map (fun v : proto.value => (n, v)) items).*2 = items)
        by (clear; induction items; cbn; congruence).
      assert (Hrec : Forall2 roundtrip.recovered items ds)
        by (rewrite Em in Hds; exact Hds).
      exists ds. split; [exact Hrec|].
      unfold proto.DecodeMessage. rewrite Edec. f_equal.
      rewrite repeated_facts.foldl_same_key
        by (eapply Forall2_length; eauto).
      rewrite repeated_facts.addToResult_collect.
      * destruct (roundtrip.collected ds); [apply insert_empty | reflexivity].
      * apply lookup_empty.
      * clear - Hrec. induction Hrec; constructor; auto.
        eapply repeated_facts.recovered_notSlice; eauto.
Qed.

Lemma repeated_field_round_trip_witness :
  let items := [proto.VInt64 (-7); proto.VInt64 300; proto.VInt64 0] in
  let enc := concat (map (roundtrip.fieldBytes 3) items) in
  proto.Encode {[ "3"%string := proto.VSlice items ]}
               {[ "3"%string := proto.repeated proto.TypeInt ]} = Ok enc
  /\ (len enc < 2 ^ 63 ->
      exists ds,
        Forall2 roundtrip.recovered items ds
        /\ proto.DecodeMessage enc
           = Ok (match roundtrip.collected ds with
                 | Some d => {[ wire.keyOf 3 := d ]}
                 | None => ∅
                 end)).
Proof.
  apply (repeated_field_round_trip "3" 3 (proto.repeated proto.TypeInt)).
  - reflexivity.
  - reflexivity.
  - repeat (apply List.Forall_cons; [split; [reflexivity | exact I]|]).
    apply List.Forall_nil.
Defined.

(** ** Invariants of the capture state under every schedule *)

Module race_facts.
Import server race.

Lemma countAt_insert p (hs : list Handler) i h h' :
  hs !! i = Some h ->
  (countAt p (<[i := h']> hs) + (if standsAt p h then 1 else 0)
   = countAt p hs + (if standsAt p h' then 1 else 0))%nat.
Proof.
  intros Hi. unfold countAt.
  pose proof (lookup_lt_Some _ _ _ Hi) as Hlt.
  rewrite insert_take_drop by exact Hlt.
  rewrite <- (take_drop_middle hs i h Hi) at 3.
  rewrite !List.filter_app. cbn [List.filter].
  destruct (standsAt p h), (standsAt p h'); rewrite !length_app; cbn; lia.
Qed.

Lemma countAt_le p (hs : list Handler) : (countAt p hs <= length hs)%nat.
Proof. unfold countAt. apply List.filter_length_le. Qed.

Lemma Inv_start responses : Inv (start responses).
Proof.
  split; cbn.
  - split; [discriminate | congruence].
  - discriminate.
  - apply countAt_le.
  - induction responses as [|r rs IH]; [reflexivity|].
    cbn. unfold countAt in *. cbn.
    unfold standsAt at 1, newHandler at 1. cbn.
    destruct (offeredTokens r); exact IH.
Qed.

Lemma Inv_step sys i : Inv sys -> Inv (step sys i).
Proof.
  intros [Hc Ht Hs Hg]. unfold step.
  destruct (handlers sys !! i) as [h|] eqn:Hi; [|split; assumption].
  unfold stepHandler. destruct (tokens h) as [|token rest] eqn:Etok;
    [split; assumption|].
  destruct (at_ h) eqn:Eat.
  - (* the test *)
    destruct (IsCaptured (state sys)) eqn:Ecap; split; cbn [state handlers setCalls exchanges]; try assumption.
    + pose proof (countAt_insert AtSetToken _ i h
        {| tokens := rest; at_ := AtIsCaptured |} Hi) as Hins.
      rewrite length_insert. unfold standsAt in Hins at 1 2.
      rewrite Etok, Eat in Hins. cbn in Hins.
      destruct rest; cbn in Hins; lia.
    + pose proof (countAt_insert AtGo _ i h
        {| tokens := rest; at_ := AtIsCaptured |} Hi) as Hins.
      unfold standsAt in Hins at 1 2. rewrite Etok, Eat in Hins.
      cbn in Hins. destruct rest; cbn in Hins; lia.
    + rewrite length_insert.
      assert (setCalls sys = []) as ->.
      { destruct (setCalls sys) eqn:E; [reflexivity|].
        unfold IsCaptured in Ecap.
        assert (captured (state sys) = true) by (apply Hc; discriminate).
        congruence. }
      cbn [length Nat.add]. rewrite <- (length_insert (handlers sys) i
                         {| tokens := token :: rest; at_ := AtSetToken |}).
      apply countAt_le.
    + pose proof (countAt_insert AtGo _ i h
        {| tokens := token :: rest; at_ := AtSetToken |} Hi) as Hins.
      unfold standsAt in Hins at 1 2. rewrite Etok, Eat in Hins.
      cbn in Hins. lia.
  - (* the write *)
    split; cbn [state handlers setCalls exchanges].
    + split; [intros _; destruct (setCalls sys); discriminate | reflexivity].
    + intros tok. rewrite last_snoc. intros [= <-]. reflexivity.
    + pose proof (countAt_insert AtSetToken _ i h
        {| tokens := token :: rest; at_ := AtGo |} Hi) as Hins.
      unfold standsAt in Hins at 1 2. rewrite Etok, Eat in Hins.
      cbn in Hins. rewrite length_insert, length_app. cbn. lia.
    + pose proof (countAt_insert AtGo _ i h
        {| tokens := token :: rest; at_ := AtGo |} Hi) as Hins.
      unfold standsAt in Hins at 1 2. rewrite Etok, Eat in Hins.
      cbn in Hins. rewrite length_app. cbn. lia.
  - (* the goroutine *)
    split; cbn [state handlers setCalls exchanges]; try assumption.
    + pose proof (countAt_insert AtSetToken _ i h
        {| tokens := rest; at_ := AtIsCaptured |} Hi) as Hins.
      unfold standsAt in Hins at 1 2. rewrite Etok, Eat in Hins.
      cbn in Hins. rewrite length_insert.
      destruct rest; cbn in Hins; lia.
    + pose proof (countAt_insert AtGo _ i h
        {| tokens := rest; at_ := AtIsCaptured |} Hi) as Hins.
      unfold standsAt in Hins at 1 2. rewrite Etok, Eat in Hins.
      cbn in Hins. rewrite length_app. cbn.
      destruct rest; cbn in Hins; lia.
Qed.

Lemma Inv_run schedule : forall sys, Inv sys -> Inv (run sys schedule).
Proof.
  unfold run. induction schedule as [|i s IH]; intros sys H; [exact H|].
  cbn. apply IH, Inv_step, H.
Qed.

Lemma step_handlers_length sys i :
  length (handlers (step sys i)) = length (handlers sys).
Proof.
  unfold step. destruct (handlers sys !! i) as [h|]; [|reflexivity].
  unfold stepHandler. destruct (tokens h); [reflexivity|].
  destruct (at_ h); [destruct (IsCaptured _)|..]; cbn;
    apply length_insert.
Qed.

Lemma run_handlers_length schedule : forall sys,
  length (handlers (run sys schedule)) = length (handlers sys).
Proof.
  unfold run. induction schedule as [|i s IH]; intros sys; [reflexivity|].
  cbn. rewrite IH. apply step_handlers_length.
Qed.

Lemma finished_countAt p sys : finished sys -> countAt p (handlers sys) = O.
Proof.
  unfold finished, countAt. induction 1 as [|h hs Hh _ IH]; [reflexivity|].
  cbn. unfold standsAt at 1. rewrite Hh. destruct (at_ h); exact IH.
Qed.

(** Once captured, with no handler between test and exchange, a step
    changes neither the state nor the history. *)
Lemma step_after_capture sys i :
  captured (state sys) = true -> quiet (handlers sys) ->
  state (step sys i) = state sys
  /\ setCalls (step sys i) = setCalls sys
  /\ exchanges (step sys i) = exchanges sys
  /\ quiet (handlers (step sys i)).
Proof.
  intros Hc Hq. unfold step.
  destruct (handlers sys !! i) as [h|] eqn:Hi; [|auto].
  unfold stepHandler. destruct (tokens h) as [|token rest] eqn:Etok; [auto|].
  unfold quiet in Hq. pose proof Hq as Hq'.
  rewrite Forall_lookup in Hq'. specialize (Hq' i h Hi).
  unfold standsAt in Hq'. rewrite Etok in Hq'.
  destruct (at_ h) eqn:Eat; destruct Hq' as [H1 H2]; try discriminate.
  unfold IsCaptured. rewrite Hc. cbn. repeat split.
  apply Forall_insert; [exact Hq|].
  unfold standsAt. cbn. destruct rest; auto.
Qed.

Lemma run_after_capture schedule : forall sys,
  captured (state sys) = true -> quiet (handlers sys) ->
  state (run sys schedule) = state sys
  /\ setCalls (run sys schedule) = setCalls sys
  /\ exchanges (run sys schedule) = exchanges sys.
Proof.
  unfold run. induction schedule as [|i s IH]; intros sys Hc Hq; [auto|].
  cbn. destruct (step_after_capture sys i Hc Hq) as (Es & Ec & Ee & Hq').
  destruct (IH (step sys i)) as (Es' & Ec' & Ee'); [congruence | exact Hq'|].
  repeat split; congruence.
Qed.

End race_facts.

(** Under every schedule each handler writes the state at most once: the
    number of exchanges started never exceeds the number of [SetToken]
    calls, which never exceeds the number of handlers; the state is
    captured exactly when [SetToken] was called, and then holds the token
    of the last call; and when all handlers are done, every [SetToken] has
    started its exchange. *)
Theorem captures_bounded_by_handlers
    (responses : list (list string)) (schedule : list nat) :
  let sys := server.run (server.start responses) schedule in
  (length (server.exchanges sys) <= length (server.setCalls sys)
   <= length responses)%nat
  /\ (server.captured (server.state sys) = true <-> server.setCalls sys <> [])
  /\ (forall tok, last (server.setCalls sys) = Some tok ->
                  server.oauthToken (server.state sys) = tok)
  /\ (server.finished sys ->
      length (server.exchanges sys) = length (server.setCalls sys)).
Proof.
  intros sys.
  destruct (race_facts.Inv_run schedule _ (race_facts.Inv_start responses))
    as [Hc Ht Hs Hg]. fold sys in Hc, Ht, Hs, Hg.
  assert (Hlen : length (server.handlers sys) = length responses).
  { unfold sys. rewrite race_facts.run_handlers_length. cbn.
    apply length_map. }
  split; [lia|]. split; [exact Hc|]. split; [exact Ht|].
  intros Hf. rewrite (race_facts.finished_countAt _ _ Hf) in Hg. lia.
Qed.

(** First writer wins when the first capture is not interleaved: if the
    handler of a response offering a token performs its test, its write and
    the start of its exchange before any other handler moves, then whatever
    the schedule afterwards, and whatever the other responses carry, that
    token is the only one recorded and its exchange the only one started. *)
Theorem first_capture_uninterrupted_wins
    (first : list string) (others : list (list string))
    (token : string) (rest : list string) (later : list nat) :
  server.offeredTokens first = token :: rest ->
  let sys := server.run (server.start (first :: others))
                        ([0; 0; 0]%nat ++ later) in
  server.setCalls sys = [token]
  /\ server.exchanges sys = [token]
  /\ server.captured (server.state sys) = true
  /\ server.oauthToken (server.state sys) = token.
Proof.
  intros Hfirst sys. unfold sys, server.run. rewrite foldl_app.
  set (mid := foldl server.step (server.start (first :: others)) [0; 0; 0]%nat).
  assert (Hmid : server.state mid
                 = server.SetToken server.NewProxyState token
                 /\ server.setCalls mid = [token]
                 /\ server.exchanges mid = [token]
                 /\ race.quiet (server.handlers mid)).
  { assert (E0 : server.start (first :: others)
                 = {| server.state := server.NewProxyState;
                      server.handlers :=
                        {| server.tokens := token :: rest;
                           server.at_ := server.AtIsCaptured |}
                        :: map server.newHandler others;
                      server.setCalls := [];
                      server.exchanges := [] |}).
    { unfold server.start. cbn [map]. unfold server.newHandler at 1.
      rewrite Hfirst. reflexivity. }
    unfold mid. rewrite E0. repeat split.
    cbn. constructor.
    - unfold race.standsAt. cbn. destruct rest; auto.
    - clear. induction others as [|r rs IH]; constructor; [|exact IH].
      unfold race.standsAt, server.newHandler. cbn.
      destruct (server.offeredTokens r); auto. }
  destruct Hmid as (Es & Ec & Ee & Hq).
  destruct (race_facts.run_after_capture later mid) as (Es' & Ec' & Ee').
  { rewrite Es. reflexivity. }
  { exact Hq. }
  unfold server.run in *. rewrite Es', Ec', Ee', Es, Ec, Ee. auto.
Qed.

Lemma first_capture_uninterrupted_witness :
  let sys :=
    server.run
      (server.start [["oauth_token=A; Path=/; HttpOnly"%string];
                     ["oauth_token=B; Path=/; HttpOnly"%string]])
      ([0; 0; 0]%nat ++ [1; 1; 0; 1]%nat) in
  server.setCalls sys = ["A"%string]
  /\ server.exchanges sys = ["A"%string]
  /\ server.captured (server.state sys) = true
  /\ server.oauthToken (server.state sys) = "A"%string.
Proof.
  apply (first_capture_uninterrupted_wins
           ["oauth_token=A; Path=/; HttpOnly"%string]
           [["oauth_token=B; Path=/; HttpOnly"%string]] "A" [] [1; 1; 0; 1]%nat).
  vm_compute. reflexivity.
Defined.

(** ** The exchange that succeeds, and the token endpoint *)

(** When the exchange returns status 200 with a token ([Token], or [Auth]
    when [Token] is empty), [exchangeToken] sends the one request, assigns
    the token and the email to the shared configuration and saves it: a
    save that succeeds writes that configuration and the email is recorded
    as the result.  If saving fails, the failure is recorded, with no
    email, while the configuration in memory already carries the new token
    and email; what the failed write leaves in the file is not stated. *)
Theorem exchange_stores_master_token
    (env : world.Env) (w : world.World) (cfg : config.Config)
    (state : server.ProxyState) (oauthToken : string)
    (resp : world.Response) (body : string) :
  let req := auth.authRequest cfg (auth.masterForm cfg oauthToken) in
  let r := auth.parseAuthResponse body in
  let masterToken :=
    if String.eqb (auth.Token r) "" then auth.Auth r else auth.Token r in
  let cfg' := config.setAccount cfg masterToken (auth.Email r) in
  world.Do env req = inr resp ->
  world.reader resp = inr (world.Data body) ->
  world.StatusCode resp = 200 ->
  masterToken <> EmptyString ->
  let '(w', cfg1, state') :=
    server.exchangeToken env w cfg state oauthToken in
  world.sent w' = world.sent w ++ [req]
  /\ cfg1 = cfg'
  /\ match world.WriteFile env cfg' with
     | None =>
         world.disk w' = cfg' :: world.disk w
         /\ state' = server.SetResult state (auth.Email r) ""
     | Some err =>
         state' = server.SetResult state "" ("save failed: " +:+ err)
     end.
Proof.
  intros req r masterToken cfg' Hdo Hrd Hs Hm.
  unfold server.exchangeToken, auth.ExchangeOAuthForMaster, auth.doAuthRequest.
  fold req. rewrite Hdo, Hrd, Hs. cbn [Z.eqb Pos.eqb negb]. fold r.
  fold masterToken. apply String.eqb_neq in Hm. rewrite Hm.
  fold cfg'. destruct (world.WriteFile env cfg'); cbn; auto.
Qed.

Lemma exchange_stores_master_token_witness :
  world.disk
    (server.exchangeToken
       (samples.answering 200 "Token=aas_et/abc") samples.nothingSent
       config.DefaultConfig server.NewProxyState "oauth2_4/x").1.1
  = [config.setAccount config.DefaultConfig "aas_et/abc" ""]
  /\ (server.exchangeToken
        (samples.answering 200 "Token=aas_et/abc") samples.nothingSent
        config.DefaultConfig server.NewProxyState "oauth2_4/x").2
     = server.SetResult server.NewProxyState "" "".
Proof.
  pose proof (exchange_stores_master_token
           (samples.answering 200 "Token=aas_et/abc") samples.nothingSent
           config.DefaultConfig server.NewProxyState "oauth2_4/x"
           {| world.StatusCode := 200; world.ContentEncoding := "";
              world.Raw := world.Data "Token=aas_et/abc";
              world.Gzip := inl "not gzip"%string |}
           "Token=aas_et/abc"
           eq_refl eq_refl eq_refl ltac:(vm_compute; discriminate)) as H.
  destruct (server.exchangeToken _ _ _ _ _) as [[w' cfg1] state'].
  destruct H as (_ & _ & Hd & Hst). split; [exact Hd | exact Hst].
Defined.

Module handler_facts.
Import world config server.

Lemma GoogleSig_nonempty : auth.GoogleSig <> EmptyString.
Proof. discriminate. Qed.

Lemma FetchServiceToken_sent env w cfg scope appPackage appSig w' rep :
  auth.FetchServiceToken env w cfg scope appPackage appSig = (w', rep) ->
  disk w' = disk w
  /\ (sent w' = sent w
      \/ sent w'
         = sent w ++ [auth.authRequest cfg
                        (auth.serviceForm cfg scope appPackage appSig)]).
Proof.
  unfold auth.FetchServiceToken, auth.doAuthRequest.
  destruct (negb (HasMasterToken cfg)).
  { intros [= <- _]. auto. }
  destruct (Do env _) as [|resp]; [intros [= <- _]; auto|].
  destruct (reader resp) as [|[|body]]; try (intros [= <- _]; auto).
  destruct (negb _); intros [= <- _]; auto.
Qed.

End handler_facts.

(** The [/api/token] handler never writes the configuration, sends nothing
    unless the caller asked with GET or POST while logged in and named a
    scope, and then sends exactly one request, whose scope, app package and
    signature are all non-empty.  Every answer other than 200 carries an
    error message and no token. *)
Theorem token_handler_discipline
    (env : world.Env) (w : world.World) (cfg : config.Config)
    (r : server.APIRequest) :
  let '(w', (status, json)) := server.tokenHandler env w cfg r in
  world.disk w' = world.disk w
  /\ (world.sent w' = world.sent w
      \/ exists scope appPackage appSig,
           scope <> EmptyString /\ appPackage <> EmptyString
           /\ appSig <> EmptyString
           /\ config.HasMasterToken cfg = true
           /\ world.sent w'
              = world.sent w
                ++ [auth.authRequest cfg
                      (auth.serviceForm cfg scope appPackage appSig)])
  /\ (status <> 200 ->
      server.Token json = EmptyString /\ server.Error json <> EmptyString).
Proof.
  unfold server.tokenHandler.
  destruct (negb (String.eqb (server.Method r) "POST")
            && negb (String.eqb (server.Method r) "GET")).
  { cbn. split; [reflexivity|]. split; [auto|]. intros _.
    split; [reflexivity | discriminate]. }
  destruct (config.HasMasterToken cfg) eqn:Hlog; cbn [negb].
  2: { cbn. split; [reflexivity|]. split; [auto|]. intros _.
       split; [reflexivity | discriminate]. }
  match goal with
  | |- context [match ?d with inl _ => _ | inr _ => _ end] =>
      destruct d as [err|req]
  end.
  { cbn. split; [reflexivity|]. split; [auto|]. intros _.
    split; [reflexivity | discriminate]. }
  match goal with
  | |- context [String.eqb (server.Scope ?q) ""] => set (req' := q)
  end.
  destruct (String.eqb (server.Scope req') "") eqn:Hscope.
  { cbn. split; [reflexivity|]. split; [auto|]. intros _.
    split; [reflexivity | discriminate]. }
  apply String.eqb_neq in Hscope.
  set (pkg := if String.eqb (server.AppPackage req') ""
              then "com.google.android.gms"%string
              else server.AppPackage req').
  set (sig := if String.eqb (server.AppSig req') ""
              then auth.GoogleSig else server.AppSig req').
  assert (Hpkg : pkg <> EmptyString).
  { unfold pkg. destruct (String.eqb (server.AppPackage req') "") eqn:E;
      [discriminate | apply String.eqb_neq; exact E]. }
  assert (Hsig : sig <> EmptyString).
  { unfold sig. destruct (String.eqb (server.AppSig req') "") eqn:E;
      [apply handler_facts.GoogleSig_nonempty | apply String.eqb_neq; exact E]. }
  destruct (auth.FetchServiceToken env w cfg (server.Scope req') pkg sig)
    as [w' rep] eqn:Ef.
  destruct (handler_facts.FetchServiceToken_sent _ _ _ _ _ _ _ _ Ef)
    as [Hdisk Hsent].
  assert (Hs : world.sent w' = world.sent w
               \/ exists scope appPackage appSig,
                    scope <> EmptyString /\ appPackage <> EmptyString
                    /\ appSig <> EmptyString
                    /\ true = true
                    /\ world.sent w'
                       = world.sent w
                         ++ [auth.authRequest cfg
                               (auth.serviceForm cfg scope appPackage appSig)]).
  { destruct Hsent as [H|H]; [left; exact H|]. right.
    exists (server.Scope req'), pkg, sig. auto. }
  destruct rep as [resp|resp err].
  - destruct (String.eqb (auth.Auth resp) "").
    + split; [exact Hdisk|]. split; [exact Hs|]. intros _.
      split; [reflexivity | discriminate].
    + split; [exact Hdisk|]. split; [exact Hs|]. intros H.
      contradiction.
  - split; [exact Hdisk|]. split; [exact Hs|]. intros _.
    split; [reflexivity|]. apply exchange_facts.errorString_nonempty.
Qed.

(** ** Known apps, and what a finished exchange leaves behind *)

Module shortcut_facts.
Import world config server.

Lemma KnownApps_nonempty name package scope :
  auth.KnownApps !! name = Some (package, scope) ->
  package <> EmptyString /\ scope <> EmptyString.
Proof.
  unfold auth.KnownApps. cbn [list_to_map foldr fst snd].
  intros H.
  repeat (apply lookup_insert_Some in H
          as [[_ [= <- <-]] | [_ H]]; [split; discriminate|]).
  rewrite lookup_empty in H. discriminate.
Qed.

Lemma FetchServiceToken_sends env w cfg scope appPackage appSig :
  HasMasterToken cfg = true ->
  sent (auth.FetchServiceToken env w cfg scope appPackage appSig).1
  = sent w ++ [auth.authRequest cfg
                 (auth.serviceForm cfg scope appPackage appSig)].
Proof.
  intros H. unfold auth.FetchServiceToken, auth.doAuthRequest.
  rewrite H. cbn [negb].
  destruct (Do env _) as [|resp]; [reflexivity|].
  destruct (reader resp) as [|[|body]]; try reflexivity.
  destruct (negb _); reflexivity.
Qed.

Lemma exchangeToken_success env w cfg state oauthToken resp body :
  let req := auth.authRequest cfg (auth.masterForm cfg oauthToken) in
  let r := auth.parseAuthResponse body in
  let masterToken :=
    if String.eqb (auth.Token r) "" then auth.Auth r else auth.Token r in
  let cfg' := setAccount cfg masterToken (auth.Email r) in
  Do env req = inr resp ->
  reader resp = inr (Data body) ->
  StatusCode resp = 200 ->
  masterToken <> EmptyString ->
  exchangeToken env w cfg state oauthToken
  = match WriteFile env cfg' with
    | None => (save (send w req) cfg', cfg', SetResult state (auth.Email r) "")
    | Some err =>
        (send w req, cfg', SetResult state "" ("save failed: " +:+ err))
    end.
Proof.
  intros req r masterToken cfg' Hdo Hrd Hs Hm.
  unfold exchangeToken, auth.ExchangeOAuthForMaster, auth.doAuthRequest.
  fold req. rewrite Hdo, Hrd, Hs. cbn [Z.eqb Pos.eqb negb]. fold r.
  fold masterToken. apply String.eqb_neq in Hm. rewrite Hm.
  fold cfg'. destruct (WriteFile env cfg'); reflexivity.
Qed.

End shortcut_facts.

(** A logged-in caller who names a known app by its short name gets the
    request sent with that app's scope, and with that app's package unless
    the caller gave a package of their own; the signature defaults to
    Google's. *)
Theorem known_app_shortcut
    (env : world.Env) (w : world.World) (cfg : config.Config)
    (r : server.APIRequest) (req : server.TokenRequest)
    (package scope : string) :
  config.HasMasterToken cfg = true ->
  (server.Method r = "POST"%string /\ server.JSONBody r = inr req)
  \/ (server.Method r = "GET"%string
      /\ req = {| server.Scope := server.Query r "scope";
                  server.AppPackage := server.Query r "app";
                  server.AppSig := server.Query r "sig" |}) ->
  auth.KnownApps !! server.Scope req = Some (package, scope) ->
  let appPackage := if String.eqb (server.AppPackage req) ""
                    then package else server.AppPackage req in
  let appSig := if String.eqb (server.AppSig req) ""
                then auth.GoogleSig else server.AppSig req in
  world.sent (server.tokenHandler env w cfg r).1
  = world.sent w
    ++ [auth.authRequest cfg (auth.serviceForm cfg scope appPackage appSig)]
  /\ world.disk (server.tokenHandler env w cfg r).1 = world.disk w.
Proof.
  intros Hlog Hreq Hknown appPackage appSig.
  destruct (shortcut_facts.KnownApps_nonempty _ _ _ Hknown) as [Hp Hs].
  pose proof (shortcut_facts.FetchServiceToken_sends env w cfg scope
                appPackage appSig Hlog) as Hsent.
  assert (Hpkg : (if String.eqb appPackage ""
                  then "com.google.android.gms"%string else appPackage)
                 = appPackage).
  { destruct (String.eqb appPackage "") eqn:E; [|reflexivity].
    apply String.eqb_eq in E. unfold appPackage in E.
    destruct (String.eqb (server.AppPackage req) "") eqn:E';
      [contradiction|].
    apply String.eqb_neq in E'. contradiction. }
  apply String.eqb_neq in Hs.
  assert (Hgoal : forall decoded,
    decoded = inr req ->
    let out :=
      match decoded with
      | inl err =>
          (w, (400, server.errorResponse ("invalid JSON: " +:+ err)))
      | inr req =>
          let req :=
            match auth.KnownApps !! server.Scope req with
            | Some (package, scope) =>
                {| server.Scope := scope;
                   server.AppPackage :=
                     if String.eqb (server.AppPackage req) ""
                     then package else server.AppPackage req;
                   server.AppSig := server.AppSig req |}
            | None => req
            end in
          if String.eqb (server.Scope req) "" then
            (w, (400, server.errorResponse
              "scope is required. Try: photos, youtube, gmail, drive, or a full OAuth2 scope"))
          else
          let appPackage := if String.eqb (server.AppPackage req) ""
                            then "com.google.android.gms"%string
                            else server.AppPackage req in
          let appSig := if String.eqb (server.AppSig req) ""
                        then auth.GoogleSig else server.AppSig req in
          match auth.FetchServiceToken env w cfg (server.Scope req)
                  appPackage appSig with
          | (w, auth.Failed _ err) =>
              (w, (500, server.errorResponse (auth.errorString err)))
          | (w, auth.Returned resp) =>
              if String.eqb (auth.Auth resp) "" then
                (w, (500, server.errorResponse "empty token in response"))
              else
                (w, (200, {| server.Token := auth.Auth resp;
                             server.Email := config.Email cfg;
                             server.TokenType :=
                               server.tokenTypeOf (auth.Auth resp);
                             server.GrantedScopes := auth.GrantedScopes resp;
                             server.Error := "" |}))
          end
      end in
    out.1 = (auth.FetchServiceToken env w cfg scope appPackage appSig).1).
  { intros decoded ->. cbn zeta. rewrite Hknown.
    cbn [server.Scope server.AppPackage server.AppSig].
    rewrite Hs. fold appPackage. rewrite Hpkg. fold appSig.
    destruct (auth.FetchServiceToken env w cfg scope appPackage appSig)
      as [w' [resp|resp err]]; [|reflexivity].
    destruct (String.eqb (auth.Auth resp) ""); reflexivity. }
  assert (Hw : (server.tokenHandler env w cfg r).1
               = (auth.FetchServiceToken env w cfg scope appPackage appSig).1).
  { unfold server.tokenHandler. rewrite Hlog. cbn [negb].
    destruct Hreq as [[Hm Hb] | [Hm Hq]]; rewrite Hm.
    - cbn [String.eqb Ascii.eqb Bool.eqb negb andb].
      apply Hgoal. exact Hb.
    - cbn [String.eqb Ascii.eqb Bool.eqb negb andb].
      exact (Hgoal (inr {| server.Scope := server.Query r "scope";
                           server.AppPackage := server.Query r "app";
                           server.AppSig := server.Query r "sig" |})
                   (f_equal inr (eq_sym Hq))). }
  rewrite Hw. split; [exact Hsent|].
  destruct (auth.FetchServiceToken env w cfg scope appPackage appSig)
    as [w' rep] eqn:Ef.
  apply handler_facts.FetchServiceToken_sent in Ef. apply Ef.
Qed.

Lemma known_app_shortcut_witness :
  world.sent
    (server.tokenHandler samples.offline samples.nothingSent samples.loggedIn
       {| server.Method := "GET";
          server.JSONBody := inl "EOF"%string;
          server.Query := fun k => if String.eqb k "scope" then "gmail"
                                   else ""%string |}).1
  = world.sent samples.nothingSent
    ++ [auth.authRequest samples.loggedIn
          (auth.serviceForm samples.loggedIn
             "oauth2:https://mail.google.com/" "com.google.android.gm"
             auth.GoogleSig)]
  /\ world.disk
       (server.tokenHandler samples.offline samples.nothingSent
          samples.loggedIn
          {| server.Method := "GET";
             server.JSONBody := inl "EOF"%string;
             server.Query := fun k => if String.eqb k "scope" then "gmail"
                                      else ""%string |}).1
     = world.disk samples.nothingSent.
Proof.
  apply (known_app_shortcut samples.offline samples.nothingSent
           samples.loggedIn
           {| server.Method := "GET";
              server.JSONBody := inl "EOF"%string;
              server.Query := fun k => if String.eqb k "scope" then "gmail"
                                       else ""%string |}
           {| server.Scope := "gmail"; server.AppPackage := "";
              server.AppSig := "" |}
           "com.google.android.gm" "oauth2:https://mail.google.com/").
  - reflexivity.
  - right. split; reflexivity.
  - vm_compute. reflexivity.
Defined.

(** After an exchange that returned a token, the server counts as logged in
    exactly when the response also carried an email.  With no [Email] line
    the exchange is recorded as a success (no error), the token is saved,
    and [/api/token] keeps answering 401. *)
Theorem exchange_logs_in_only_with_email
    (env : world.Env) (w : world.World) (cfg : config.Config)
    (state : server.ProxyState) (oauthToken : string)
    (resp : world.Response) (body : string) (r : server.APIRequest) :
  let req := auth.authRequest cfg (auth.masterForm cfg oauthToken) in
  let reply := auth.parseAuthResponse body in
  let masterToken :=
    if String.eqb (auth.Token reply) ""
    then auth.Auth reply else auth.Token reply in
  world.Do env req = inr resp ->
  world.reader resp = inr (world.Data body) ->
  world.StatusCode resp = 200 ->
  masterToken <> EmptyString ->
  let '(w', cfg', state') :=
    server.exchangeToken env w cfg state oauthToken in
  config.HasMasterToken cfg' = negb (String.eqb (auth.Email reply) "")
  /\ (auth.Email reply = EmptyString ->
      world.WriteFile env cfg' = None ->
      server.error state' = EmptyString
      /\ world.disk w' = cfg' :: world.disk w
      /\ (server.Method r = "POST"%string \/ server.Method r = "GET"%string ->
          server.tokenHandler env w' cfg' r
          = (w', (401, server.errorResponse
                         "not logged in; run 'gauth login' first")))).
Proof.
  intros req reply masterToken Hdo Hrd Hs Hm.
  pose proof (shortcut_facts.exchangeToken_success env w cfg state oauthToken
                resp body Hdo Hrd Hs Hm) as E.
  cbn zeta in E. fold req reply masterToken in E.
  set (cfg1 := config.setAccount cfg masterToken (auth.Email reply)) in *.
  assert (Hlog : config.HasMasterToken cfg1
                 = negb (String.eqb (auth.Email reply) "")).
  { unfold config.HasMasterToken, cfg1, config.setAccount, config.nonEmpty.
    cbn [config.MasterToken config.Email].
    apply String.eqb_neq in Hm. rewrite Hm. reflexivity. }
  destruct (world.WriteFile env cfg1) as [err|] eqn:Ew; rewrite E.
  - split; [exact Hlog|]. intros _ H. rewrite Ew in H. discriminate H.
  - split; [exact Hlog|]. intros He _.
    split; [reflexivity|]. split; [reflexivity|].
    intros Hmeth. unfold server.tokenHandler.
    rewrite Hlog, He. cbn [String.eqb negb].
    destruct Hmeth as [-> | ->]; reflexivity.
Qed.

Lemma exchange_logs_in_only_with_email_witness :
  let '(w', cfg', state') :=
    server.exchangeToken
      (samples.answering 200 "Token=aas_et/abc") samples.nothingSent
      config.DefaultConfig server.NewProxyState "oauth2_4/x" in
  config.HasMasterToken cfg' = false
  /\ server.error state' = EmptyString.
Proof.
  pose proof (exchange_logs_in_only_with_email
           (samples.answering 200 "Token=aas_et/abc") samples.nothingSent
           config.DefaultConfig server.NewProxyState "oauth2_4/x"
           {| world.StatusCode := 200; world.ContentEncoding := "";
              world.Raw := world.Data "Token=aas_et/abc";
              world.Gzip := inl "not gzip"%string |}
           "Token=aas_et/abc"
           {| server.Method := "GET"; server.JSONBody := inl "EOF"%string;
              server.Query := fun _ => ""%string |}
           eq_refl eq_refl eq_refl) as H.
  cbn zeta in H.
  assert (Hm : (if String.eqb
                     (auth.Token (auth.parseAuthResponse "Token=aas_et/abc")) ""
                then auth.Auth (auth.parseAuthResponse "Token=aas_et/abc")
                else auth.Token (auth.parseAuthResponse "Token=aas_et/abc"))
               <> EmptyString).
  { vm_compute. discriminate. }
  specialize (H Hm).
  destruct (server.exchangeToken _ _ _ _ _) as [[w' cfg'] state'].
  destruct H as [H1 H2]. split.
  - rewrite H1. vm_compute. reflexivity.
  - apply H2; vm_compute; reflexivity.
Defined.

(** ** An empty primary token: what the operations return and what the
    callers make of it *)

Module empty_token_facts.
Import world config auth server.

(** What the handler of [/api/token] answers: it refuses before any call,
    or it calls [FetchServiceToken] once and answers by the reply alone. *)
Lemma tokenHandler_answers env w cfg r w' status json :
  tokenHandler env w cfg r = (w', (status, json)) ->
  (w' = w /\ (status = 405 \/ status = 401 \/ status = 400))
  \/ exists scope appPackage appSig reply,
       FetchServiceToken env w cfg scope appPackage appSig = (w', reply)
       /\ (status, json)
          = match reply with
            | Failed _ err => (500, errorResponse (errorString err))
            | Returned resp =>
                if String.eqb (Auth resp) ""
                then (500, errorResponse "empty token in response")
                else (200, {| Token := Auth resp;
                              Email := config.Email cfg;
                              TokenType := tokenTypeOf (Auth resp);
                              GrantedScopes := auth.GrantedScopes resp;
                              Error := "" |})
            end.
Proof.
  unfold tokenHandler. intros E.
  repeat match type of E with
  | (if ?c then _ else _) = _ => destruct c eqn:?
  | match ?d with inl _ => _ | inr _ => _ end = _ => destruct d eqn:?
  end;
  try (inversion E; subst; left; split; [reflexivity | tauto]).
  all: right.
  all: match type of E with
       | (let (_, _) := ?p in _) = _ => destruct p as [w1 reply] eqn:Ecall
       end.
  all: destruct reply as [resp|partial err];
       [destruct (String.eqb (Auth resp) "") eqn:Ea|];
       inversion E; subst;
       do 4 eexists; (split; [exact Ecall|]); cbv beta iota;
       rewrite ?Ea; reflexivity.
Qed.

(** The exchange only sends. *)
Lemma ExchangeOAuthForMaster_disk env w cfg oauthToken w' reply :
  ExchangeOAuthForMaster env w cfg oauthToken = (w', reply) ->
  disk w' = disk w.
Proof.
  unfold ExchangeOAuthForMaster, doAuthRequest.
  destruct (Do env _) as [|resp]; [intros [= <- _]; reflexivity|].
  destruct (reader resp) as [|[|body]]; try (intros [= <- _]; reflexivity).
  destruct (negb _); intros [= <- _]; reflexivity.
Qed.

(** A master token in [Token] is stored whatever [Auth] holds. *)
Lemma exchangeToken_stores_Token env w cfg state oauthToken w' resp :
  ExchangeOAuthForMaster env w cfg oauthToken = (w', Returned resp) ->
  auth.Token resp <> EmptyString ->
  WriteFile env (setAccount cfg (auth.Token resp) (auth.Email resp)) = None ->
  exchangeToken env w cfg state oauthToken
  = (save w' (setAccount cfg (auth.Token resp) (auth.Email resp)),
     setAccount cfg (auth.Token resp) (auth.Email resp),
     SetResult state (auth.Email resp) "").
Proof.
  intros E Ht Hw. unfold exchangeToken. rewrite E.
  apply String.eqb_neq in Ht. rewrite Ht. cbv zeta. rewrite Ht, Hw.
  reflexivity.
Qed.

(** A GET that names a scope, from a logged-in configuration, when the
    network answers 200 with a body that has no [Auth] line. *)
Lemma tokenHandler_empty_Auth env w cfg r resp body :
  (forall req, Do env req = inr resp) ->
  reader resp = inr (Data body) ->
  StatusCode resp = 200 ->
  Auth (parseAuthResponse body) = EmptyString ->
  HasMasterToken cfg = true ->
  Method r = "GET"%string ->
  Query r "scope" <> EmptyString ->
  (tokenHandler env w cfg r).2
  = (500, errorResponse "empty token in response").
Proof.
  intros Hdo Hrd Hs Ha Hm Hg Hq. unfold tokenHandler.
  rewrite Hg, Hm. cbn [String.eqb Ascii.eqb Bool.eqb negb andb].
  cbn [Scope AppPackage AppSig].
  assert (Hcall : forall scope appPackage appSig,
            (FetchServiceToken env w cfg scope appPackage appSig).2
            = Returned (parseAuthResponse body)).
  { intros. unfold FetchServiceToken, doAuthRequest.
    rewrite Hm, Hdo, Hrd, Hs. reflexivity. }
  match goal with
  | |- context [if String.eqb (Scope ?q) "" then _ else _] =>
      assert (Hscope : String.eqb (Scope q) "" = false)
  end.
  { apply String.eqb_neq.
    destruct (KnownApps !! Query r "scope") as [[package scope]|] eqn:Ek;
      cbn [Scope].
    - exact (proj2 (shortcut_facts.KnownApps_nonempty _ _ _ Ek)).
    - exact Hq. }
  rewrite Hscope.
  match goal with
  | |- context [FetchServiceToken env w cfg ?a ?b ?c] =>
      specialize (Hcall a b c);
      destruct (FetchServiceToken env w cfg a b c) as [w1 reply]
  end.
  cbn [snd] in Hcall. subst reply. rewrite Ha. reflexivity.
Qed.

End empty_token_facts.
(** C3, as the code has it.  [doAuthRequest], and with it
    [ExchangeOAuthForMaster] and [FetchServiceToken], does not look at the
    [Auth] field: at status 200 it returns the parsed response and no
    error.  An empty token is turned into a failure by the callers.  The
    [/api/token] handler either refuses before any call or answers by the
    reply of [FetchServiceToken] alone: 500 with the error of a failed
    call, 500 with ["empty token in response"] for a returned response
    whose [Auth] is empty, and 200 with [Auth] as the token otherwise; so
    it answers 200 only with a non-empty token.  [exchangeToken] stores
    nothing and records ["empty token in response: "], followed by the
    response's [Error], when the response has neither [Token] nor [Auth];
    it stores a non-empty [Token] whatever [Auth] holds, when the save
    succeeds. *)
Theorem C3_empty_token_fails_in_the_callers :
  (forall env w cfg form resp body,
     world.Do env (auth.authRequest cfg form) = inr resp ->
     world.reader resp = inr (world.Data body) ->
     world.StatusCode resp = 200 ->
     auth.doAuthRequest env w cfg form
     = (world.send w (auth.authRequest cfg form),
        auth.Returned (auth.parseAuthResponse body)))
  /\ (forall env w cfg oauthToken resp body,
        world.Do env (auth.authRequest cfg (auth.masterForm cfg oauthToken))
        = inr resp ->
        world.reader resp = inr (world.Data body) ->
        world.StatusCode resp = 200 ->
        auth.ExchangeOAuthForMaster env w cfg oauthToken
        = (world.send w
             (auth.authRequest cfg (auth.masterForm cfg oauthToken)),
           auth.Returned (auth.parseAuthResponse body)))
  /\ (forall env w cfg scope appPackage appSig resp body,
        config.HasMasterToken cfg = true ->
        world.Do env
          (auth.authRequest cfg
             (auth.serviceForm cfg scope appPackage appSig))
        = inr resp ->
        world.reader resp = inr (world.Data body) ->
        world.StatusCode resp = 200 ->
        auth.FetchServiceToken env w cfg scope appPackage appSig
        = (world.send w
             (auth.authRequest cfg
                (auth.serviceForm cfg scope appPackage appSig)),
           auth.Returned (auth.parseAuthResponse body)))
  /\ (forall env w cfg r w' status json,
        server.tokenHandler env w cfg r = (w', (status, json)) ->
        (status = 200 -> server.Token json <> EmptyString)
        /\ ((w' = w /\ (status = 405 \/ status = 401 \/ status = 400))
            \/ exists scope appPackage appSig reply,
                 auth.FetchServiceToken env w cfg scope appPackage appSig
                 = (w', reply)
                 /\ (status, json)
                    = match reply with
                      | auth.Failed _ err =>
                          (500, server.errorResponse (auth.errorString err))
                      | auth.Returned resp =>
                          if String.eqb (auth.Auth resp) ""
                          then (500, server.errorResponse
                                       "empty token in response")
                          else (200,
                                {| server.Token := auth.Auth resp;
                                   server.Email := config.Email cfg;
                                   server.TokenType :=
                                     server.tokenTypeOf (auth.Auth resp);
                                   server.GrantedScopes :=
                                     auth.GrantedScopes resp;
                                   server.Error := "" |})
                      end))
  /\ (forall env w cfg r resp body,
        (forall req, world.Do env req = inr resp) ->
        world.reader resp = inr (world.Data body) ->
        world.StatusCode resp = 200 ->
        auth.Auth (auth.parseAuthResponse body) = EmptyString ->
        config.HasMasterToken cfg = true ->
        server.Method r = "GET"%string ->
        server.Query r "scope" <> EmptyString ->
        (server.tokenHandler env w cfg r).2
        = (500, server.errorResponse "empty token in response"))
  /\ (forall env w cfg state oauthToken w' resp,
        auth.ExchangeOAuthForMaster env w cfg oauthToken
        = (w', auth.Returned resp) ->
        auth.Token resp = EmptyString -> auth.Auth resp = EmptyString ->
        server.exchangeToken env w cfg state oauthToken
        = (w', cfg,
           server.SetResult state ""
             ("empty token in response: " +:+ auth.Error resp))
        /\ world.disk w' = world.disk w)
  /\ (forall env w cfg state oauthToken w' resp,
        auth.ExchangeOAuthForMaster env w cfg oauthToken
        = (w', auth.Returned resp) ->
        auth.Token resp <> EmptyString ->
        world.WriteFile env
          (config.setAccount cfg (auth.Token resp) (auth.Email resp))
        = None ->
        server.exchangeToken env w cfg state oauthToken
        = (world.save w'
             (config.setAccount cfg (auth.Token resp) (auth.Email resp)),
           config.setAccount cfg (auth.Token resp) (auth.Email resp),
           server.SetResult state (auth.Email resp) "")).
Proof.
  assert (Hdo : forall env w cfg form resp body,
     world.Do env (auth.authRequest cfg form) = inr resp ->
     world.reader resp = inr (world.Data body) ->
     world.StatusCode resp = 200 ->
     auth.doAuthRequest env w cfg form
     = (world.send w (auth.authRequest cfg form),
        auth.Returned (auth.parseAuthResponse body))).
  { intros env w cfg form resp body E Er Hs.
    unfold auth.doAuthRequest. rewrite E, Er, Hs. reflexivity. }
  split; [exact Hdo|]. split; [|split; [|split; [|split; [|split]]]].
  - intros env w cfg oauthToken resp body. apply Hdo.
  - intros env w cfg scope appPackage appSig resp body Hm.
    unfold auth.FetchServiceToken. rewrite Hm. cbn [negb]. apply Hdo.
  - intros env w cfg r w' status json E. split.
    + intros Hs.
      exact (proj1 (token_facts.tokenHandler_200 _ _ _ _ _ _ _ E Hs)).
    + exact (empty_token_facts.tokenHandler_answers _ _ _ _ _ _ _ E).
  - intros env w cfg r resp body.
    apply empty_token_facts.tokenHandler_empty_Auth.
  - intros env w cfg state oauthToken w' resp E Ht Ha. split.
    + apply exchange_facts.exchangeToken_empty; assumption.
    + exact (empty_token_facts.ExchangeOAuthForMaster_disk _ _ _ _ _ _ E).
  - intros. apply empty_token_facts.exchangeToken_stores_Token; assumption.
Qed.

Lemma C3_empty_token_witness :
  auth.ExchangeOAuthForMaster (samples.answering 200 "Error=NeedsBrowser")
    samples.nothingSent samples.loggedIn "oauth2_4/x"
  = (world.send samples.nothingSent
       (auth.authRequest samples.loggedIn
          (auth.masterForm samples.loggedIn "oauth2_4/x")),
     auth.Returned (auth.parseAuthResponse "Error=NeedsBrowser"))
  /\ server.Token
       (server.tokenHandler (samples.answering 200 "Auth=ya29.a0")
          samples.nothingSent samples.loggedIn
          {| server.Method := "GET"; server.JSONBody := inl "";
             server.Query := fun _ => "photos"%string |}).2.2
     <> EmptyString
  /\ (server.tokenHandler (samples.answering 200 "Error=NeedsBrowser")
        samples.nothingSent samples.loggedIn
        {| server.Method := "GET"; server.JSONBody := inl "";
           server.Query := fun _ => "photos"%string |}).2
     = (500, server.errorResponse "empty token in response")
  /\ server.exchangeToken (samples.answering 200 "Error=NeedsBrowser")
       samples.nothingSent samples.loggedIn server.NewProxyState "oauth2_4/x"
     = (world.send samples.nothingSent
          (auth.authRequest samples.loggedIn
             (auth.masterForm samples.loggedIn "oauth2_4/x")),
        samples.loggedIn,
        server.SetResult server.NewProxyState ""
          ("empty token in response: "
           +:+ auth.Error (auth.parseAuthResponse "Error=NeedsBrowser")))
  /\ server.exchangeToken (samples.answering 200 "Token=aas_et/abc")
       samples.nothingSent samples.loggedIn server.NewProxyState "oauth2_4/x"
     = (world.save
          (world.send samples.nothingSent
             (auth.authRequest samples.loggedIn
                (auth.masterForm samples.loggedIn "oauth2_4/x")))
          (config.setAccount samples.loggedIn "aas_et/abc" ""),
        config.setAccount samples.loggedIn "aas_et/abc" "",
        server.SetResult server.NewProxyState "" "").
Proof.
  destruct C3_empty_token_fails_in_the_callers
    as (Hdo & Hmaster & Hservice & Hhandler & Hget & Hempty & Hstore).
  split; [|split; [|split; [|split]]].
  - eapply Hmaster; reflexivity.
  - set (r := {| server.Method := "GET"; server.JSONBody := inl "";
                 server.Query := fun _ => "photos"%string |}).
    set (env := samples.answering 200 "Auth=ya29.a0").
    assert (E : server.tokenHandler env samples.nothingSent samples.loggedIn r
                = ((server.tokenHandler env samples.nothingSent
                      samples.loggedIn r).1,
                   (200, (server.tokenHandler env samples.nothingSent
                            samples.loggedIn r).2.2)))
      by reflexivity.
    exact (proj1 (Hhandler _ _ _ _ _ _ _ E) eq_refl).
  - eapply (Hget _ _ _ _ _ "Error=NeedsBrowser"%string).
    + intros req. reflexivity.
    + reflexivity.
    + reflexivity.
    + reflexivity.
    + reflexivity.
    + reflexivity.
    + discriminate.
  - refine (proj1 (Hempty _ _ _ _ _ _
                     (auth.parseAuthResponse "Error=NeedsBrowser") _ _ _)).
    + eapply Hmaster; reflexivity.
    + reflexivity.
    + reflexivity.
  - eapply (Hstore _ _ _ _ _ _ (auth.parseAuthResponse "Token=aas_et/abc")).
    + eapply Hmaster; reflexivity.
    + discriminate.
    + reflexivity.
Defined.

(** C3, as the claim states it, fails: at status 200 the exchange for a
    master token returns a response and no error although [Auth] is empty. *)
Lemma C3_returned_without_auth_counterexample :
  ~ (forall env w cfg oauthToken resp,
       snd (auth.ExchangeOAuthForMaster env w cfg oauthToken)
       = auth.Returned resp ->
       auth.Auth resp <> EmptyString).
Proof.
  intros H.
  apply (H (samples.answering 200 "Token=aas_et/abc") samples.nothingSent
           samples.loggedIn "oauth2_4/x"%string
           (auth.parseAuthResponse "Token=aas_et/abc")).
  - reflexivity.
  - reflexivity.
Qed.

(** ** Notifications of the capture *)

Module calls_facts.
Import server calls.

Lemma perform_inv s c :
  (captured s = true -> Forall (fun b => b = true) (listeners s)) ->
  (captured s = false ->
   Forall (fun b => b = false) (listeners s) /\ oauthToken s = EmptyString) ->
  (captured (perform s c) = true ->
   Forall (fun b => b = true) (listeners (perform s c)))
  /\ (captured (perform s c) = false ->
      Forall (fun b => b = false) (listeners (perform s c))
      /\ oauthToken (perform s c) = EmptyString).
Proof.
  intros Ht Hf. destruct c; cbn.
  - split; [|discriminate]. intros _.
    clear. induction (listeners s) as [|b l IH]; cbn; constructor;
      [reflexivity | exact IH].
  - auto.
  - split.
    + intros H. apply Forall_app. split; [auto|]. constructor; auto.
    + intros H. destruct (Hf H) as [H1 H2]. split; [|exact H2].
      apply Forall_app. split; [auto|]. constructor; auto.
Qed.

Lemma perform_listeners s c :
  length (listeners (perform s c))
  = (length (listeners s) + (if isSubscribe c then 1 else 0))%nat.
Proof.
  destruct c; cbn.
  - rewrite length_map. lia.
  - lia.
  - rewrite length_app. cbn. lia.
Qed.

End calls_facts.

(** Whatever calls are made on a fresh capture state, in whatever order: once
    a token has been set every subscribed channel holds a notification, also
    the channels subscribed afterwards; before that none does and the token
    is empty.  There are as many channels as calls of [Subscribe]. *)
Theorem no_subscriber_misses_the_capture (history : list calls.call) :
  let s := foldl calls.perform server.NewProxyState history in
  (server.captured s = true ->
   Forall (fun b => b = true) (server.listeners s))
  /\ (server.captured s = false ->
      Forall (fun b => b = false) (server.listeners s)
      /\ server.oauthToken s = EmptyString)
  /\ length (server.listeners s)
     = length (filter (fun c => calls.isSubscribe c = true) history)
  /\ (server.captured s = true
      <-> exists token, calls.CallSetToken token ∈ history).
Proof.
  cbn zeta. induction history as [|c history IH] using rev_ind.
  - cbn. split; [discriminate|]. split; [auto|]. split; [reflexivity|].
    split; [discriminate|]. intros [t H]. inversion H.
  - rewrite foldl_app. cbn [foldl].
    set (s := foldl calls.perform server.NewProxyState history) in *.
    destruct IH as (Ht & Hf & Hlen & Hcap).
    destruct (calls_facts.perform_inv s c Ht Hf) as [Ht' Hf'].
    split; [exact Ht'|]. split; [exact Hf'|]. split.
    + rewrite calls_facts.perform_listeners, Hlen, filter_app, length_app.
      f_equal. destruct c; reflexivity.
    + split.
      * intros H. destruct c; cbn in H.
        -- exists token. apply elem_of_app. right. constructor.
        -- apply Hcap in H as [t H]. exists t. apply elem_of_app. auto.
        -- apply Hcap in H as [t H]. exists t. apply elem_of_app. auto.
      * intros [t H]. apply elem_of_app in H as [H|H].
        -- assert (Hc : server.captured s = true) by (apply Hcap; eauto).
           destruct c; cbn; auto.
        -- apply list_elem_of_singleton in H. subst c. reflexivity.
Qed.

(** ** What the decoder returns on any input *)

Module shape_facts.
Import binary proto wire roundtrip fields shape proto_facts.

Lemma lor_range (a b n : Z) :
  0 <= n -> 0 <= a < 2 ^ n -> 0 <= b < 2 ^ n -> 0 <= Z.lor a b < 2 ^ n.
Proof.
  intros Hn Ha Hb. split; [apply Z.lor_nonneg; lia|].
  destruct (Z.eq_dec (Z.lor a b) 0) as [->|Hz]; [lia|].
  apply Z.log2_lt_pow2; [pose proof (Z.lor_nonneg a b); lia|].
  rewrite Z.log2_lor by lia.
  destruct (Z.eq_dec a 0) as [->|Ha0], (Z.eq_dec b 0) as [->|Hb0].
  - exfalso. apply Hz. reflexivity.
  - rewrite Z.max_r by (cbn; apply Z.log2_nonneg).
    apply Z.log2_lt_pow2; lia.
  - rewrite Z.max_l by (cbn; apply Z.log2_nonneg).
    apply Z.log2_lt_pow2; lia.
  - apply Z.max_lub_lt; apply Z.log2_lt_pow2; lia.
Qed.

Lemma Uvarint_loop_range (buf : list byte) : forall x s i v n,
  0 <= x < 2 ^ 64 -> Uvarint_loop buf x s i = (v, n) -> 0 <= v < 2 ^ 64.
Proof.
  induction buf as [|b buf IH]; intros x s i v n Hx E; cbn [Uvarint_loop] in E.
  - inversion E. lia.
  - destruct (i =? MaxVarintLen64); [inversion E; lia|].
    destruct (byte_val b <? 0x80).
    + destruct ((i =? MaxVarintLen64 - 1) && (1 <? byte_val b));
        inversion E; subst; [lia|].
      apply lor_range; [lia | exact Hx | apply u64_range].
    + eapply IH; [|exact E].
      apply lor_range; [lia | exact Hx | apply u64_range].
Qed.

Lemma Uvarint_range (buf : list byte) v n :
  Uvarint buf = (v, n) -> 0 <= v < 2 ^ 64.
Proof. intros E. eapply Uvarint_loop_range; [|exact E]. lia. Qed.

Lemma LittleEndian_range (b : list byte) :
  0 <= LittleEndian b < 2 ^ (8 * len b).
Proof.
  unfold LittleEndian, len. induction b as [|x b IH]; cbn [foldr length].
  - cbn. lia.
  - replace (8 * Z.of_nat (S (length b)))
      with (8 + 8 * Z.of_nat (length b)) by lia.
    set (acc := foldr _ 0 b) in *.
    assert (Hx := byte_val_range x).
    assert (Hs : 0 <= Z.shiftl acc 8 < 2 ^ (8 + 8 * Z.of_nat (length b))).
    { rewrite Z.shiftl_mul_pow2 by lia. rewrite Z.pow_add_r by lia.
      change (2 ^ 8) with 256. nia. }
    apply lor_range; [lia| |exact Hs].
    split; [lia|]. apply Z.lt_le_trans with (2 ^ 8); [cbn; lia|].
    apply Z.pow_le_mono_r; lia.
Qed.

Lemma length_slice {A} (data : list A) (lo hi : Z) :
  0 <= lo <= hi -> hi <= len data -> len (slice data lo hi) = hi - lo.
Proof.
  intros H1 H2. unfold slice, len in *. rewrite length_take, length_drop. lia.
Qed.

Lemma canonicalKey_Itoa (n : Z) :
  0 <= n < 2 ^ 61 -> canonicalKey (strconv.Itoa n).
Proof.
  intros H. unfold canonicalKey. cbn zeta.
  rewrite strconv_facts.Atoi_Itoa by lia. cbn [fst]. auto.
Qed.

Lemma slice_len_le {A} (data : list A) (lo hi : Z) :
  len (slice data lo hi) <= Z.max 0 (hi - lo).
Proof. unfold slice, len. rewrite length_take. lia. Qed.

Lemma addToResult_decoded result key v :
  decoded result -> canonicalKey key -> item v ->
  decoded (addToResult result key v).
Proof.
  intros Hr Hk Hv. unfold addToResult.
  destruct (result !! key) as [existing|] eqn:E.
  - destruct (Hr _ _ E) as [_ [Hi | (l & -> & Hl & Hf)]].
    + assert (Hnew : decoded (<[key := VSlice [existing; v]]> result)).
      { intros k' v' H. apply lookup_insert_Some in H
          as [[<- <-] | [Hne H]]; [|exact (Hr _ _ H)].
        split; [exact Hk|]. right. exists [existing; v].
        split; [reflexivity|]. split; [cbn; lia|].
        constructor; [exact Hi|]. constructor; [exact Hv | constructor]. }
      destruct existing; try exact Hnew. inversion Hi.
    + intros k' v' H. apply lookup_insert_Some in H
        as [[<- <-] | [Hne H]]; [|exact (Hr _ _ H)].
      split; [exact Hk|]. right. exists (l ++ [v]).
      split; [reflexivity|]. split; [rewrite length_app; cbn; lia|].
      apply Forall_app. split; [exact Hf|]. constructor; [exact Hv|constructor].
  - intros k' v' H. apply lookup_insert_Some in H
      as [[<- <-] | [Hne H]]; [|exact (Hr _ _ H)].
    split; [exact Hk|]. left. exact Hv.
Qed.

Lemma decoded_empty : decoded ∅.
Proof. intros k v H. rewrite lookup_empty in H. discriminate. Qed.

Lemma classify_item nested payload v :
  (forall m, nested = Ok m -> decoded m) ->
  classify nested payload = Ok v -> item v.
Proof.
  intros Hn. unfold classify.
  destruct nested as [m|e| |]; try discriminate.
  - destruct (0 <? size m)%nat eqn:Hs.
    + intros [= <-]. apply item_message.
      * apply Nat.ltb_lt. exact Hs.
      * apply Hn. reflexivity.
    + destruct (isLikelyString payload) eqn:Hl; intros [= <-];
        [apply item_text | apply item_bytes]; exact Hl.
  - destruct (isLikelyString payload) eqn:Hl; intros [= <-];
      [apply item_text | apply item_bytes]; exact Hl.
Qed.

Lemma decodeLoop_decoded (fuel : nat) : forall data pos result m,
  decoded result -> decodeLoop fuel data pos result = Ok m -> decoded m.
Proof.
  induction fuel as [|fuel IH]; intros data pos result m Hr E;
    [discriminate|].
  rewrite decodeLoop_unfold in E.
  destruct (pos <? len data) eqn:Hlt; cbn [negb] in E;
    [|inversion E; subst; exact Hr].
  destruct (Uvarint (drop (Z.to_nat pos) data)) as [tag n] eqn:Etag.
  destruct (n <=? 0) eqn:Hn; [discriminate|].
  cbv zeta in E.
  pose proof (Uvarint_range _ _ _ Etag) as Htag.
  assert (Hnum : 0 <= Z.shiftr tag 3 < 2 ^ 61).
  { rewrite Z.shiftr_div_pow2 by lia. change (2 ^ 3) with 8.
    split; [apply Z.div_pos; lia|].
    apply Z.div_lt_upper_bound; [lia|]. change (8 * 2 ^ 61) with (2 ^ 64).
    lia. }
  assert (Hkey : canonicalKey (strconv.Itoa (i64 (Z.shiftr tag 3)))).
  { rewrite i64_small by lia. apply canonicalKey_Itoa. exact Hnum. }
  destruct (Z.land tag 7 =? WireVarint).
  { destruct (Uvarint (drop (Z.to_nat (pos + n)) data)) as [val n2].
    destruct (n2 <=? 0); [discriminate|].
    eapply IH; [|exact E]. apply addToResult_decoded; [exact Hr|exact Hkey|].
    apply item_varint. unfold i64. Z.to_euclidean_division_equations. lia. }
  destruct (Z.land tag 7 =? WireFixed64).
  { destruct (len data <? pos + n + 8); [discriminate|].
    eapply IH; [|exact E]. apply addToResult_decoded; [exact Hr|exact Hkey|].
    apply item_fixed64.
    pose proof (LittleEndian_range (slice data (pos + n) (pos + n + 8))) as H.
    pose proof (slice_len_le data (pos + n) (pos + n + 8)) as Hl.
    split; [lia|]. eapply Z.lt_le_trans; [apply H|].
    apply Z.pow_le_mono_r; lia. }
  destruct (Z.land tag 7 =? WireBytes).
  { destruct (Uvarint (drop (Z.to_nat (pos + n)) data)) as [length n2].
    destruct (n2 <=? 0); [discriminate|].
    destruct (len data <? _); [discriminate|].
    destruct (_ <? pos + n + n2); [discriminate|].
    match type of E with
    | context [classify ?nested ?payload] =>
        destruct (classify nested payload) as [v| | |] eqn:Ec;
          try discriminate;
        assert (Hv : item v)
          by (eapply classify_item; [|exact Ec];
              intros m' Hm'; eapply IH; [apply decoded_empty | exact Hm'])
    end.
    cbn [mbind outcome_bind] in E.
    eapply IH; [|exact E]. apply addToResult_decoded; assumption. }
  destruct (Z.land tag 7 =? WireFixed32); [|discriminate].
  destruct (len data <? pos + n + 4); [discriminate|].
  eapply IH; [|exact E]. apply addToResult_decoded; [exact Hr|exact Hkey|].
  apply item_fixed32.
  pose proof (LittleEndian_range (slice data (pos + n) (pos + n + 4))) as H.
  pose proof (slice_len_le data (pos + n) (pos + n + 4)) as Hl.
  split; [lia|]. eapply Z.lt_le_trans; [apply H|].
  apply Z.pow_le_mono_r; lia.
Qed.

End shape_facts.

(** Whatever bytes [DecodeMessage] is given, a message it returns has only
    keys that are the decimal numerals of field numbers in [[0, 2^61)], and
    under each key either one decoded value or a sequence of two or more:
    a signed 64-bit integer for a varint, an unsigned 64-bit one for a
    fixed64, 32 bits for a fixed32, a text made of printable bytes, a byte
    string that is not such a text, or a non-empty nested message of the
    same kind.  A sequence never holds a sequence. *)
Theorem DecodeMessage_shape (data : list byte) (m : proto.Message) :
  proto.DecodeMessage data = Ok m -> shape.decoded m.
Proof.
  unfold proto.DecodeMessage. apply shape_facts.decodeLoop_decoded.
  apply shape_facts.decoded_empty.
Qed.

Lemma DecodeMessage_shape_witness :
  shape.decoded (<["1" := proto.VInt64 1]> ∅).
Proof.
  apply (DecodeMessage_shape [x08; x01]%byte). vm_compute. reflexivity.
Defined.

(** ** Decoding terminates, continues over a concatenation, and reports a
    field that is cut off *)

Module concat_facts.
Import binary proto wire binary_facts proto_facts fuel_facts.

Lemma Uvarint_loop_app (buf rest : list byte) : forall x s i v n,
  0 <= i -> Uvarint_loop buf x s i = (v, n) -> n <> 0 ->
  Uvarint_loop (buf ++ rest) x s i = (v, n).
Proof.
  induction buf as [|b buf IH]; intros x s i v n Hi E Hn;
    cbn [Uvarint_loop app] in *.
  - inversion E. lia.
  - destruct (i =? MaxVarintLen64); [exact E|].
    destruct (byte_val b <? 0x80); [exact E|].
    apply IH; [lia | exact E | exact Hn].
Qed.

Lemma Uvarint_app (buf rest : list byte) v n :
  Uvarint buf = (v, n) -> n <> 0 -> Uvarint (buf ++ rest) = (v, n).
Proof. intros E Hn. apply Uvarint_loop_app; [lia | exact E | exact Hn]. Qed.

Lemma drop_app_l {A} (a b : list A) (pos : Z) :
  0 <= pos <= len a ->
  drop (Z.to_nat pos) (a ++ b) = drop (Z.to_nat pos) a ++ b.
Proof.
  intros H. unfold len in H. rewrite drop_app.
  replace (Z.to_nat pos - length a)%nat with O by lia. reflexivity.
Qed.

Lemma drop_app_r {A} (a b : list A) (p : Z) :
  0 <= p -> drop (Z.to_nat (len a + p)) (a ++ b) = drop (Z.to_nat p) b.
Proof.
  intros H. unfold len. rewrite drop_app.
  rewrite (drop_ge a) by lia. cbn [app]. f_equal. lia.
Qed.

Lemma slice_app_l {A} (a b : list A) (lo hi : Z) :
  0 <= lo -> hi <= len a -> slice (a ++ b) lo hi = slice a lo hi.
Proof.
  intros Hlo Hhi. unfold slice.
  destruct (Z_le_gt_dec lo (len a)) as [Hle|Hgt].
  - rewrite drop_app_l by lia. rewrite take_app.
    rewrite length_drop. unfold len in *.
    replace (Z.to_nat (hi - lo) - (length a - Z.to_nat lo))%nat with O by lia.
    cbn [take]. rewrite app_nil_r. reflexivity.
  - replace (Z.to_nat (hi - lo)) with O by lia. reflexivity.
Qed.

Lemma slice_app_r {A} (a b : list A) (lo hi : Z) :
  0 <= lo -> slice (a ++ b) (len a + lo) (len a + hi) = slice b lo hi.
Proof.
  intros Hlo. unfold slice. rewrite drop_app_r by lia.
  f_equal. lia.
Qed.

Lemma classify_Ok_nested nested payload v :
  classify nested payload = Ok v -> nested <> Panic /\ nested <> Fuel.
Proof.
  unfold classify. destruct nested; try discriminate; intros _; split;
    discriminate.
Qed.

(** Over [a ++ b] the loop does on the bytes of [a] what it does on [a]
    alone, when that succeeds. *)
Lemma decodeLoop_prefix (fuel : nat) : forall a b pos result m fuel2,
  0 <= pos <= len a ->
  Z.max 0 (len a - pos) < Z.of_nat fuel ->
  decodeLoop fuel a pos result = Ok m ->
  len (a ++ b) - pos < Z.of_nat fuel2 ->
  decodeLoop fuel2 (a ++ b) pos result
  = decodeLoop fuel2 (a ++ b) (len a) m.
Proof.
  induction fuel as [|fuel IH]; intros a b pos result m fuel2 Hp Hf E Hf2;
    [lia|].
  assert (Hab : len (a ++ b) = len a + len b) by apply length_app_len.
  assert (Hb : 0 <= len b) by (unfold len; lia).
  destruct fuel2 as [|f2]; [lia|].
  rewrite decodeLoop_unfold in E.
  destruct (pos <? len a) eqn:Hlt; cbn [negb] in E.
  2: { apply Z.ltb_ge in Hlt. assert (pos = len a) by lia. subst pos.
       inversion E. reflexivity. }
  apply Z.ltb_lt in Hlt.
  assert (Hcont : forall pos' result',
    pos < pos' <= len a ->
    decodeLoop fuel a pos' result' = Ok m ->
    decodeLoop f2 (a ++ b) pos' result'
    = decodeLoop (S f2) (a ++ b) (len a) m).
  { intros pos' result' Hp' E'.
    rewrite (IH a b pos' result' m f2) by (try exact E'; lia).
    apply decodeLoop_fuel; lia. }
  rewrite (decodeLoop_unfold f2 (a ++ b) pos).
  replace (pos <? len (a ++ b)) with true by (symmetry; apply Z.ltb_lt; lia).
  cbn [negb].
  destruct (Uvarint (drop (Z.to_nat pos) a)) as [tag n] eqn:Etag.
  destruct (n <=? 0) eqn:Hn; [discriminate|]. apply Z.leb_gt in Hn.
  pose proof (Uvarint_bound _ _ _ Etag) as Hbn.
  assert (Hpn : pos + n <= len a).
  { unfold len in *. rewrite length_drop in Hbn. lia. }
  rewrite drop_app_l by lia.
  rewrite (Uvarint_app _ b _ _ Etag) by lia.
  replace (n <=? 0) with false by (symmetry; apply Z.leb_gt; lia).
  cbv zeta in E |- *.
  destruct (Z.land tag 7 =? WireVarint).
  { destruct (Uvarint (drop (Z.to_nat (pos + n)) a)) as [val n2] eqn:Eval.
    destruct (n2 <=? 0) eqn:Hn2; [discriminate|]. apply Z.leb_gt in Hn2.
    pose proof (Uvarint_bound _ _ _ Eval) as Hbn2.
    assert (Hpn2 : pos + n + n2 <= len a).
    { unfold len in *. rewrite length_drop in Hbn2. lia. }
    rewrite drop_app_l by lia.
    rewrite (Uvarint_app _ b _ _ Eval) by lia.
    replace (n2 <=? 0) with false by (symmetry; apply Z.leb_gt; lia).
    apply Hcont; [lia | exact E]. }
  destruct (Z.land tag 7 =? WireFixed64).
  { destruct (len a <? pos + n + 8) eqn:H8; [discriminate|].
    apply Z.ltb_ge in H8.
    replace (len (a ++ b) <? pos + n + 8) with false
      by (symmetry; apply Z.ltb_ge; lia).
    rewrite slice_app_l by lia.
    apply Hcont; [lia | exact E]. }
  destruct (Z.land tag 7 =? WireBytes).
  { destruct (Uvarint (drop (Z.to_nat (pos + n)) a)) as [length n2] eqn:Eval.
    destruct (n2 <=? 0) eqn:Hn2; [discriminate|]. apply Z.leb_gt in Hn2.
    pose proof (Uvarint_bound _ _ _ Eval) as Hbn2.
    assert (Hpn2 : pos + n + n2 <= len a).
    { unfold len in *. rewrite length_drop in Hbn2. lia. }
    rewrite drop_app_l by lia.
    rewrite (Uvarint_app _ b _ _ Eval) by lia.
    replace (n2 <=? 0) with false by (symmetry; apply Z.leb_gt; lia).
    set (hi := i64 (pos + n + n2 + i64 length)) in *.
    destruct (len a <? hi) eqn:Hhi; [discriminate|].
    destruct (hi <? pos + n + n2) eqn:Hlo; [discriminate|].
    apply Z.ltb_ge in Hhi, Hlo.
    replace (len (a ++ b) <? hi) with false
      by (symmetry; apply Z.ltb_ge; lia).
    rewrite slice_app_l by lia.
    pose proof (slice_len a (pos + n + n2) hi ltac:(lia)) as Hs.
    rewrite (decodeLoop_fuel f2 fuel (slice a (pos + n + n2) hi) 0 ∅)
      by lia.
    destruct (classify _ _) as [v|e| |]; cbn [mbind outcome_bind] in E |- *;
      try discriminate.
    apply Hcont; [lia | exact E]. }
  destruct (Z.land tag 7 =? WireFixed32); [|discriminate].
  destruct (len a <? pos + n + 4) eqn:H4; [discriminate|].
  apply Z.ltb_ge in H4.
  replace (len (a ++ b) <? pos + n + 4) with false
    by (symmetry; apply Z.ltb_ge; lia).
  rewrite slice_app_l by lia.
  apply Hcont; [lia | exact E].
Qed.

(** Behind [a] the loop reads [b] as it reads [b] alone, when that
    succeeds. *)
Lemma decodeLoop_shift (fuel : nat) : forall a b p result m fuel2,
  0 <= p -> len (a ++ b) < 2 ^ 63 ->
  Z.max 0 (len b - p) < Z.of_nat fuel ->
  decodeLoop fuel b p result = Ok m ->
  Z.max 0 (len b - p) < Z.of_nat fuel2 ->
  decodeLoop fuel2 (a ++ b) (len a + p) result = Ok m.
Proof.
  induction fuel as [|fuel IH]; intros a b p result m fuel2 Hp Hlen Hf E Hf2;
    [lia|].
  assert (Hab : len (a ++ b) = len a + len b) by apply length_app_len.
  assert (Ha : 0 <= len a) by (unfold len; lia).
  destruct fuel2 as [|f2]; [lia|].
  rewrite decodeLoop_unfold in E. rewrite decodeLoop_unfold.
  destruct (p <? len b) eqn:Hlt; cbn [negb] in E.
  2: { apply Z.ltb_ge in Hlt.
       replace (len a + p <? len (a ++ b)) with false
         by (symmetry; apply Z.ltb_ge; lia).
       exact E. }
  apply Z.ltb_lt in Hlt.
  replace (len a + p <? len (a ++ b)) with true
    by (symmetry; apply Z.ltb_lt; lia).
  cbn [negb]. rewrite drop_app_r by lia.
  destruct (Uvarint (drop (Z.to_nat p) b)) as [tag n] eqn:Etag.
  destruct (n <=? 0) eqn:Hn; [discriminate|]. apply Z.leb_gt in Hn.
  pose proof (Uvarint_bound _ _ _ Etag) as Hbn.
  assert (Hpn : p + n <= len b).
  { unfold len in *. rewrite length_drop in Hbn. lia. }
  cbv zeta in E |- *.
  assert (Hcont : forall p' result',
    p < p' -> decodeLoop fuel b p' result' = Ok m ->
    decodeLoop f2 (a ++ b) (len a + p') result' = Ok m).
  { intros p' result' Hp' E'. apply (IH a b p' result' m f2); try lia.
    exact E'. }
  replace (len a + p + n) with (len a + (p + n)) by lia.
  destruct (Z.land tag 7 =? WireVarint).
  { rewrite drop_app_r by lia.
    destruct (Uvarint (drop (Z.to_nat (p + n)) b)) as [val n2] eqn:Eval.
    destruct (n2 <=? 0) eqn:Hn2; [discriminate|]. apply Z.leb_gt in Hn2.
    replace (len a + (p + n) + n2) with (len a + (p + n + n2)) by lia.
    apply Hcont; [lia | exact E]. }
  destruct (Z.land tag 7 =? WireFixed64).
  { destruct (len b <? p + n + 8) eqn:H8; [discriminate|].
    apply Z.ltb_ge in H8.
    replace (len (a ++ b) <? len a + (p + n) + 8) with false
      by (symmetry; apply Z.ltb_ge; lia).
    replace (len a + (p + n) + 8) with (len a + (p + n + 8)) by lia.
    rewrite slice_app_r by lia.
    apply Hcont; [lia | exact E]. }
  destruct (Z.land tag 7 =? WireBytes).
  { rewrite drop_app_r by lia.
    destruct (Uvarint (drop (Z.to_nat (p + n)) b)) as [length n2] eqn:Eval.
    destruct (n2 <=? 0) eqn:Hn2; [discriminate|]. apply Z.leb_gt in Hn2.
    pose proof (Uvarint_bound _ _ _ Eval) as Hbn2.
    assert (Hpn2 : p + n + n2 <= len b).
    { unfold len in *. rewrite length_drop in Hbn2. lia. }
    set (hi := i64 (p + n + n2 + i64 length)) in *.
    destruct (len b <? hi) eqn:Hhi; [discriminate|].
    destruct (hi <? p + n + n2) eqn:Hlo; [discriminate|].
    apply Z.ltb_ge in Hhi, Hlo.
    assert (Ehi : i64 (len a + (p + n) + n2 + i64 length) = len a + hi).
    { unfold hi, i64 in *. Z.to_euclidean_division_equations. lia. }
    rewrite Ehi.
    replace (len (a ++ b) <? len a + hi) with false
      by (symmetry; apply Z.ltb_ge; lia).
    replace (len a + hi <? len a + (p + n) + n2) with false
      by (symmetry; apply Z.ltb_ge; lia).
    replace (len a + (p + n) + n2) with (len a + (p + n + n2)) by lia.
    rewrite slice_app_r by lia.
    pose proof (slice_len b (p + n + n2) hi ltac:(lia)) as Hs.
    rewrite (decodeLoop_fuel f2 fuel (slice b (p + n + n2) hi) 0 ∅)
      by lia.
    destruct (classify _ _) as [v|e| |]; cbn [mbind outcome_bind] in E |- *;
      try discriminate.
    apply Hcont; [lia | exact E]. }
  destruct (Z.land tag 7 =? WireFixed32); [|discriminate].
  destruct (len b <? p + n + 4) eqn:H4; [discriminate|].
  apply Z.ltb_ge in H4.
  replace (len (a ++ b) <? len a + (p + n) + 4) with false
    by (symmetry; apply Z.ltb_ge; lia).
  replace (len a + (p + n) + 4) with (len a + (p + n + 4)) by lia.
  rewrite slice_app_r by lia.
  apply Hcont; [lia | exact E].
Qed.

End concat_facts.

(** The budget of the model never decides the outcome of [DecodeMessage]:
    the loop stops by itself on every input, and any larger budget gives the
    same result. *)
Theorem DecodeMessage_terminates (data : list byte) (extra : nat) :
  proto.DecodeMessage data <> Fuel
  /\ proto.decodeLoop (S (length data) + extra) data 0 ∅
     = proto.DecodeMessage data.
Proof.
  unfold proto.DecodeMessage. split.
  - apply fuel_facts.decodeLoop_not_Fuel; unfold len; lia.
  - apply fuel_facts.decodeLoop_fuel; unfold len; lia.
Qed.

(** Decoding a concatenation: when [a] decodes to [ma] and reading [b] on
    top of the fields of [ma] succeeds with [m], then [a ++ b] decodes to
    [m].  Fields of [b] that [a] already has are accumulated, not
    replaced. *)
Theorem DecodeMessage_concat (a b : list byte) (ma m : proto.Message) :
  len (a ++ b) < 2 ^ 63 ->
  proto.DecodeMessage a = Ok ma ->
  proto.decodeLoop (S (length b)) b 0 ma = Ok m ->
  proto.DecodeMessage (a ++ b) = Ok m.
Proof.
  intros Hlen Ea Eb. unfold proto.DecodeMessage in *.
  rewrite (concat_facts.decodeLoop_prefix (S (length a)) a b 0 ∅ ma
             (S (length (a ++ b))));
    try exact Ea; try (unfold len; rewrite ?length_app; lia).
  replace (len a) with (len a + 0) by lia.
  apply (concat_facts.decodeLoop_shift (S (length b))); try exact Eb;
    try exact Hlen; unfold len; rewrite ?length_app; lia.
Qed.

Lemma DecodeMessage_concat_witness :
  proto.DecodeMessage ([x08; x01] ++ [x08; x02])%byte
  = Ok (<["1" := proto.VSlice [proto.VInt64 1; proto.VInt64 2]]> ∅).
Proof.
  apply (DecodeMessage_concat [x08; x01]%byte [x08; x02]%byte
           (<["1" := proto.VInt64 1]> ∅)).
  - vm_compute. reflexivity.
  - vm_compute. reflexivity.
  - vm_compute. reflexivity.
Defined.

(** ** Fields that are cut off, and the length of a varint *)

Module truncation_facts.
Import binary proto wire binary_facts proto_facts fuel_facts.

Lemma header data pos fieldNum wireType rest :
  0 <= pos -> 0 <= wireType < 8 -> 0 <= fieldNum < 2 ^ 61 ->
  drop (Z.to_nat pos) data = writeTag [] fieldNum wireType ++ rest ->
  exists n,
    Uvarint (drop (Z.to_nat pos) data) = (tagOf fieldNum wireType, n)
    /\ 0 < n /\ pos < len data
    /\ drop (Z.to_nat (pos + n)) data = rest
    /\ len data = pos + n + len rest
    /\ i64 (Z.shiftr (tagOf fieldNum wireType) 3) = fieldNum
    /\ Z.land (tagOf fieldNum wireType) 7 = wireType.
Proof.
  intros Hp Hw Hf E. rewrite writeTag_eq in E. cbn [app] in E.
  destruct (read_tag _ _ _ _ _ Hp Hw E) as (Etag & Hn & Hlt & Erest).
  destruct (tagOf_spec fieldNum wireType Hw) as (Ht & Hshift & Hland).
  eexists. split; [exact Etag|]. split; [exact Hn|]. split; [exact Hlt|].
  split; [exact Erest|]. split.
  - pose proof (drop_len_le _ _ _ _ Hp E) as Hl. lia.
  - rewrite Hshift, Z.mod_small by lia. rewrite i64_small by lia. auto.
Qed.

Lemma short_bytes fuel data pos result fieldNum length rest :
  0 <= pos -> 0 <= fieldNum < 2 ^ 61 ->
  len rest < length -> len data + length < 2 ^ 63 ->
  drop (Z.to_nat pos) data
    = writeVarint (writeTag [] fieldNum WireBytes) length ++ rest ->
  decodeLoop (S fuel) data pos result = Err (ShortBytes fieldNum).
Proof.
  intros Hp Hf Hr Hl E. unfold writeVarint in E. rewrite <- app_assoc in E.
  assert (Hw : 0 <= WireBytes < 8) by (unfold WireBytes; lia).
  destruct (header _ _ _ _ _ Hp Hw Hf E)
    as (n & Etag & Hn & Hlt & Erest & Hlen & Hnum & Hland).
  assert (Hr0 : 0 <= len rest) by (unfold len; lia).
  assert (Hd0 : 0 <= len data) by (unfold len; lia).
  assert (Hv : 0 <= length < 2 ^ 64) by lia.
  destruct (Uvarint_PutUvarint length rest Hv) as [Ev Hnv].
  set (k := len (PutUvarint length)) in *.
  rewrite length_app_len in Hlen. fold k in Hlen.
  rewrite decodeLoop_unfold.
  replace (pos <? len data) with true by (symmetry; apply Z.ltb_lt; lia).
  cbn [negb]. rewrite Etag. cbv zeta.
  replace (n <=? 0) with false by (symmetry; apply Z.leb_gt; lia).
  rewrite Hland, Hnum. cbn [Z.eqb Pos.eqb WireVarint WireFixed64 WireBytes].
  rewrite Erest, Ev.
  replace (k <=? 0) with false by (symmetry; apply Z.leb_gt; lia).
  rewrite (i64_small length) by lia.
  rewrite (i64_small (pos + n + k + length)) by lia.
  replace (len data <? pos + n + k + length) with true
    by (symmetry; apply Z.ltb_lt; lia).
  reflexivity.
Qed.

Lemma short_fixed fuel data pos result fieldNum rest :
  0 <= pos -> 0 <= fieldNum < 2 ^ 61 ->
  (len rest < 8 ->
   drop (Z.to_nat pos) data = writeTag [] fieldNum WireFixed64 ++ rest ->
   decodeLoop (S fuel) data pos result = Err (ShortFixed64 fieldNum))
  /\ (len rest < 4 ->
      drop (Z.to_nat pos) data = writeTag [] fieldNum WireFixed32 ++ rest ->
      decodeLoop (S fuel) data pos result = Err (ShortFixed32 fieldNum)).
Proof.
  intros Hp Hf. split; intros Hr E.
  - assert (Hw : 0 <= WireFixed64 < 8) by (unfold WireFixed64; lia).
    destruct (header _ _ _ _ _ Hp Hw Hf E)
      as (n & Etag & Hn & Hlt & Erest & Hlen & Hnum & Hland).
    rewrite decodeLoop_unfold.
    replace (pos <? len data) with true by (symmetry; apply Z.ltb_lt; lia).
    cbn [negb]. rewrite Etag. cbv zeta.
    replace (n <=? 0) with false by (symmetry; apply Z.leb_gt; lia).
    rewrite Hland, Hnum. cbn [Z.eqb Pos.eqb WireVarint WireFixed64].
    replace (len data <? pos + n + 8) with true
      by (symmetry; apply Z.ltb_lt; lia).
    reflexivity.
  - assert (Hw : 0 <= WireFixed32 < 8) by (unfold WireFixed32; lia).
    destruct (header _ _ _ _ _ Hp Hw Hf E)
      as (n & Etag & Hn & Hlt & Erest & Hlen & Hnum & Hland).
    rewrite decodeLoop_unfold.
    replace (pos <? len data) with true by (symmetry; apply Z.ltb_lt; lia).
    cbn [negb]. rewrite Etag. cbv zeta.
    replace (n <=? 0) with false by (symmetry; apply Z.leb_gt; lia).
    rewrite Hland, Hnum.
    cbn [Z.eqb Pos.eqb WireVarint WireFixed64 WireBytes WireFixed32].
    replace (len data <? pos + n + 4) with true
      by (symmetry; apply Z.ltb_lt; lia).
    reflexivity.
Qed.

Lemma after_prefix good m tail :
  DecodeMessage good = Ok m ->
  DecodeMessage (good ++ tail)
  = decodeLoop (S (length (good ++ tail))) (good ++ tail) (len good) m.
Proof.
  intros E. unfold DecodeMessage in *.
  apply (concat_facts.decodeLoop_prefix (S (length good))); try exact E;
    unfold len; rewrite ?length_app; lia.
Qed.

Lemma drop_len_app {A} (a b : list A) : drop (Z.to_nat (len a)) (a ++ b) = b.
Proof. unfold len. rewrite Nat2Z.id. apply drop_app_length. Qed.

(** The number of bytes of a varint: one per started group of seven bits. *)
Lemma PutUvarint_loop_length (n : nat) : forall x k,
  (1 <= k <= n)%nat ->
  0 <= x < 2 ^ (7 * Z.of_nat k) ->
  (k = 1%nat \/ 2 ^ (7 * (Z.of_nat k - 1)) <= x) ->
  length (PutUvarint_loop n x) = k.
Proof.
  induction n as [|n IH]; intros x k Hk Hx Hmin; [lia|].
  cbn [PutUvarint_loop].
  destruct (0x80 <=? x) eqn:H80.
  - apply Z.leb_le in H80. cbn [length].
    destruct k as [|[|k]]; [lia| |].
    + change (2 ^ (7 * Z.of_nat 1)) with 128 in Hx. lia.
    + f_equal. apply IH; [lia| |].
      * rewrite Z.shiftr_div_pow2 by lia. change (2 ^ 7) with 128.
        replace (7 * Z.of_nat (S (S k))) with (7 + 7 * Z.of_nat (S k)) in Hx
          by lia.
        rewrite Z.pow_add_r in Hx by lia. change (2 ^ 7) with 128 in Hx.
        split; [apply Z.div_pos; lia|].
        apply Z.div_lt_upper_bound; lia.
      * destruct k as [|k]; [left; reflexivity|right].
        destruct Hmin as [Hmin|Hmin]; [lia|].
        rewrite Z.shiftr_div_pow2 by lia. change (2 ^ 7) with 128.
        replace (7 * (Z.of_nat (S (S (S k))) - 1))
          with (7 + 7 * (Z.of_nat (S (S k)) - 1)) in Hmin by lia.
        rewrite Z.pow_add_r in Hmin by lia. change (2 ^ 7) with 128 in Hmin.
        apply Z.div_le_lower_bound; lia.
  - apply Z.leb_gt in H80. cbn [length].
    destruct Hmin as [->|Hmin]; [reflexivity|].
    destruct k as [|[|k]]; [lia|reflexivity|].
    exfalso.
    assert (2 ^ 7 <= 2 ^ (7 * (Z.of_nat (S (S k)) - 1)))
      by (apply Z.pow_le_mono_r; lia).
    change (2 ^ 7) with 128 in *. lia.
Qed.

Lemma PutUvarint_le (x : Z) : len (PutUvarint x) <= 10.
Proof.
  unfold len, PutUvarint.
  assert (H : forall n x, (length (PutUvarint_loop n x) <= n)%nat).
  { clear. induction n as [|n IH]; intros x; cbn [PutUvarint_loop length];
      [lia|].
    destruct (128 <=? x); cbn [length]; [specialize (IH (Z.shiftr x 7))|];
      lia. }
  specialize (H (Z.to_nat MaxVarintLen64) x).
  change (Z.to_nat MaxVarintLen64) with 10%nat in *. lia.
Qed.

End truncation_facts.

(** A message cut off inside its last field is reported as that field's
    error, when the fields before it decode: a length-delimited field whose
    declared length exceeds the bytes that follow (for lengths that fit the
    signed position arithmetic), and a fixed64 or fixed32 field followed by
    fewer than 8 or 4 bytes. *)
Theorem truncated_field_is_an_error
    (good : list byte) (m : proto.Message) (fieldNum length : Z)
    (rest : list byte) :
  proto.DecodeMessage good = Ok m ->
  0 <= fieldNum < 2 ^ 61 ->
  (len rest < length -> len good + 20 + len rest + length < 2 ^ 63 ->
   proto.DecodeMessage
     (good ++ proto.writeVarint
                (proto.writeTag [] fieldNum proto.WireBytes) length ++ rest)
   = Err (ShortBytes fieldNum))
  /\ (len rest < 8 ->
      proto.DecodeMessage
        (good ++ proto.writeTag [] fieldNum proto.WireFixed64 ++ rest)
      = Err (ShortFixed64 fieldNum))
  /\ (len rest < 4 ->
      proto.DecodeMessage
        (good ++ proto.writeTag [] fieldNum proto.WireFixed32 ++ rest)
      = Err (ShortFixed32 fieldNum)).
Proof.
  intros Eg Hf.
  assert (Hg : 0 <= len good) by (unfold len; lia).
  split; [|split].
  - intros Hr Hl.
    rewrite (truncation_facts.after_prefix _ _ _ Eg).
    apply (truncation_facts.short_bytes _ _ _ _ fieldNum length rest);
      try lia.
    + rewrite !proto_facts.length_app_len.
      unfold proto.writeVarint, proto.writeTag, proto.writeVarint.
      rewrite !proto_facts.length_app_len. cbn [app].
      pose proof (truncation_facts.PutUvarint_le length) as H1.
      pose proof (truncation_facts.PutUvarint_le
                    (Z.lor (u64 (i64 (Z.shiftl fieldNum 3)))
                           (u64 proto.WireBytes))) as H2.
      unfold len in *. cbn [List.length]. lia.
    + apply truncation_facts.drop_len_app.
  - intros Hr.
    rewrite (truncation_facts.after_prefix _ _ _ Eg).
    apply (truncation_facts.short_fixed _ _ _ _ fieldNum rest); try lia.
    apply truncation_facts.drop_len_app.
  - intros Hr.
    rewrite (truncation_facts.after_prefix _ _ _ Eg).
    apply (truncation_facts.short_fixed _ _ _ _ fieldNum rest); try lia.
    apply truncation_facts.drop_len_app.
Qed.

Lemma truncated_field_is_an_error_witness :
  proto.DecodeMessage
    ([x08; x01]%byte
     ++ proto.writeVarint (proto.writeTag [] 2 proto.WireBytes) 5
     ++ [x61; x62]%byte)
  = Err (ShortBytes 2).
Proof.
  apply (truncated_field_is_an_error [x08; x01]%byte
           (<["1" := proto.VInt64 1]> ∅) 2 5 [x61; x62]%byte).
  - vm_compute. reflexivity.
  - lia.
  - vm_compute. reflexivity.
  - vm_compute. reflexivity.
Defined.

(** [writeVarint] keeps what the buffer holds and appends between one and
    ten bytes, one per started group of seven bits of the value, which
    [Uvarint] reads back as the value whatever follows them. *)
Theorem writeVarint_round_trip
    (buf : list byte) (value : Z) (rest : list byte) (k : nat) :
  0 <= value < 2 ^ 64 ->
  (1 <= k <= 10)%nat ->
  value < 2 ^ (7 * Z.of_nat k) ->
  (k = 1%nat \/ 2 ^ (7 * (Z.of_nat k - 1)) <= value) ->
  exists written,
    proto.writeVarint buf value = buf ++ written
    /\ length written = k
    /\ binary.Uvarint (written ++ rest) = (value, Z.of_nat k).
Proof.
  intros Hv Hk Hlt Hmin. exists (binary.PutUvarint value).
  split; [reflexivity|].
  assert (Hl : length (binary.PutUvarint value) = k).
  { unfold binary.PutUvarint.
    apply truncation_facts.PutUvarint_loop_length;
      [change (Z.to_nat binary.MaxVarintLen64) with 10%nat; lia | lia
      | exact Hmin]. }
  split; [exact Hl|].
  destruct (binary_facts.Uvarint_PutUvarint value rest Hv) as [E _].
  rewrite E. unfold len. rewrite Hl. reflexivity.
Qed.

Lemma writeVarint_round_trip_witness :
  exists written,
    proto.writeVarint [x08]%byte 300 = [x08]%byte ++ written
    /\ length written = 2%nat
    /\ binary.Uvarint (written ++ [xff]%byte) = (300, 2).
Proof.
  apply (writeVarint_round_trip [x08]%byte 300 [xff]%byte 2).
  - lia.
  - lia.
  - vm_compute. reflexivity.
  - right. vm_compute. discriminate.
Defined.

(** ** Empty input and empty payloads *)

Module empty_facts.
Import proto wire.

(** A field of wire type 2 with a zero-length payload, standing at [pos]:
    the loop files the empty string under its key and goes on behind it. *)
Lemma zero_length_step fuel data pos result fieldNum rest :
  0 <= pos -> len data < 2 ^ 63 ->
  drop (Z.to_nat pos) data
    = writeVarint (writeTag [] fieldNum WireBytes) 0 ++ rest ->
  decodeLoop (S (S fuel)) data pos result
  = decodeLoop (S fuel) data
      (pos + len (writeVarint (writeTag [] fieldNum WireBytes) 0))
      (addToResult result (keyOf fieldNum) (VString EmptyString)).
Proof.
  intros Hp Hd E.
  pose proof (proto_facts.decode_bytes_field (S fuel) data pos result
                fieldNum [] rest Hp Hd) as H.
  change (u64 (len (@nil byte))) with 0 in H.
  rewrite H by exact E. cbn [decodeLoop].
  change (len (@nil byte)) with 0. rewrite Z.add_0_r. reflexivity.
Qed.

(** Between a prefix that decodes and a rest that decodes, the field adds
    the empty string to what the prefix gave. *)
Lemma zero_length_between before after fieldNum m m' :
  len (before ++ writeVarint (writeTag [] fieldNum WireBytes) 0 ++ after)
    < 2 ^ 63 ->
  DecodeMessage before = Ok m ->
  decodeLoop (S (length after)) after 0
    (addToResult m (keyOf fieldNum) (VString EmptyString)) = Ok m' ->
  DecodeMessage
    (before ++ writeVarint (writeTag [] fieldNum WireBytes) 0 ++ after)
  = Ok m'.
Proof.
  set (field := writeVarint (writeTag [] fieldNum WireBytes) 0).
  intros Hlen Eb Ea. unfold DecodeMessage in *.
  assert (Hf : (1 <= length field)%nat).
  { unfold field. unfold writeVarint at 1. rewrite length_app.
    assert (length (binary.PutUvarint 0) = 1%nat) by reflexivity. lia. }
  assert (Hl : len (before ++ field ++ after)
               = len before + len field + len after).
  { unfold len. rewrite !length_app. lia. }
  assert (Hb : 0 <= len before) by (unfold len; lia).
  assert (Hfl : 1 <= len field) by (unfold len; lia).
  assert (Hal : 0 <= len after) by (unfold len; lia).
  rewrite (concat_facts.decodeLoop_prefix (S (length before)) before
             (field ++ after) 0 ∅ m
             (S (length (before ++ field ++ after))));
    try exact Eb; try (unfold len in *; lia).
  destruct (length (before ++ field ++ after)) as [|n] eqn:En.
  { unfold len in Hl. rewrite En in Hl. lia. }
  rewrite (zero_length_step n (before ++ field ++ after) (len before) m
             fieldNum after Hb Hlen).
  2: { unfold len. rewrite Nat2Z.id. apply drop_app_length. }
  fold field.
  replace (len before + len field) with (len (before ++ field) + 0)
    by (unfold len; rewrite length_app; lia).
  rewrite (app_assoc before field after).
  apply (concat_facts.decodeLoop_shift (S (length after)));
    try exact Ea; try lia.
  - rewrite <- app_assoc. exact Hlen.
  - unfold len in *. lia.
  - unfold len in *. rewrite En in Hl. lia.
Qed.

End empty_facts.

Lemma DecodeMessage_nil : proto.DecodeMessage [] = Ok ∅.
Proof. reflexivity. Qed.

(** C9.  [DecodeMessage] on the empty byte sequence returns the empty
    mapping and no error; so a length-delimited field whose payload has
    length zero decodes to the empty text string, not to a nested message
    and not to an error.  Alone, the field decodes to the mapping that
    holds the empty string under its key; between a prefix and a rest that
    decode, it adds the empty string under its key to what the prefix
    gave. *)
Theorem C9_zero_length_payload_is_empty_text (fieldNum : Z) :
  proto.DecodeMessage [] = Ok ∅
  /\ proto.classify (proto.DecodeMessage []) []
     = Ok (proto.VString EmptyString)
  /\ proto.DecodeMessage
       (proto.writeVarint (proto.writeTag [] fieldNum proto.WireBytes) 0)
     = Ok (<[wire.keyOf fieldNum := proto.VString EmptyString]> ∅)
  /\ (forall (before after : list byte) (m m' : proto.Message),
        len (before
             ++ proto.writeVarint
                  (proto.writeTag [] fieldNum proto.WireBytes) 0
             ++ after) < 2 ^ 63 ->
        proto.DecodeMessage before = Ok m ->
        proto.decodeLoop (S (length after)) after 0
          (proto.addToResult m (wire.keyOf fieldNum)
                             (proto.VString EmptyString)) = Ok m' ->
        proto.DecodeMessage
          (before
           ++ proto.writeVarint
                (proto.writeTag [] fieldNum proto.WireBytes) 0
           ++ after)
        = Ok m').
Proof.
  split; [reflexivity|]. split; [reflexivity|]. split.
  - pose proof (empty_facts.zero_length_between [] [] fieldNum ∅
                  (<[wire.keyOf fieldNum := proto.VString EmptyString]> ∅))
      as H.
    rewrite app_nil_r in H. apply H.
    + pose proof (truncation_facts.PutUvarint_le 0).
      pose proof (truncation_facts.PutUvarint_le
                    (Z.lor (u64 (i64 (Z.shiftl fieldNum 3)))
                           (u64 proto.WireBytes))).
      unfold proto.writeVarint, proto.writeTag, proto.writeVarint, len in *.
      cbn [app]. rewrite length_app. lia.
    + reflexivity.
    + reflexivity.
  - intros before after m m'. apply empty_facts.zero_length_between.
Qed.

Lemma C9_zero_length_payload_witness :
  proto.DecodeMessage [Byte.x0a; Byte.x00]
  = Ok (<["1"%string := proto.VString EmptyString]> ∅)
  /\ proto.DecodeMessage
       [Byte.x08; Byte.x01; Byte.x0a; Byte.x00; Byte.x10; Byte.x02]
     = Ok (<["2"%string := proto.VInt64 2]>
             (<["1"%string := proto.VSlice [proto.VInt64 1;
                                             proto.VString EmptyString]]> ∅)).
Proof.
  split.
  - exact (proj1 (proj2 (proj2 (C9_zero_length_payload_is_empty_text 1)))).
  - apply (proj2 (proj2 (proj2 (C9_zero_length_payload_is_empty_text 1)))
             [Byte.x08; Byte.x01] [Byte.x10; Byte.x02]
             (<["1"%string := proto.VInt64 1]> ∅)).
    + vm_compute. reflexivity.
    + vm_compute. reflexivity.
    + vm_compute. reflexivity.
Defined.

(** ** The messages the encoder accepts *)

Module accept_facts.
Import binary proto wire roundtrip conformance proto_facts encode_facts.

Lemma depth_lookup (m : Message) key v :
  m !! key = Some v -> (depth v < depth (VMap m))%nat.
Proof.
  cbn [depth]. intros H. apply Nat.lt_succ_r. revert key v H.
  apply (map_fold_weak_ind
           (fun r (m : Message) => forall key v, m !! key = Some v ->
                                                 (depth v <= r)%nat)).
  - intros key v H. rewrite lookup_empty in H. discriminate.
  - intros i x m' r Hi IH key v H.
    apply lookup_insert_Some in H as [[<- <-] | [_ H]]; [lia|].
    specialize (IH _ _ H). lia.
Qed.

Lemma depth_item (l : list value) v :
  v ∈ l -> (depth v < depth (VSlice l))%nat.
Proof.
  cbn [depth]. intros H. apply Nat.lt_succ_r.
  induction H as [v l | v w l H IH]; cbn [foldr]; lia.
Qed.

Lemma forEach_cons {A S} (body : S -> A -> outcome S) x xs s :
  forEach body (x :: xs) s = (s' ← body s x; forEach body xs s').
Proof.
  unfold forEach. cbn [foldl]. cbn [mbind outcome_bind].
  destruct (body s x) as [s'|e| |]; cbn [mbind outcome_bind];
    try reflexivity.
  - induction xs as [|y ys IH]; [reflexivity|exact IH].
  - induction xs as [|y ys IH]; [reflexivity|exact IH].
  - induction xs as [|y ys IH]; [reflexivity|exact IH].
Qed.

Lemma forEach_decides {A S} (p : A -> bool) (body : S -> A -> outcome S) xs :
  (forall x, x ∈ xs -> forall s, decides (p x) (body s x)) ->
  forall s, decides (forallb p xs) (forEach body xs s).
Proof.
  induction xs as [|x xs IH]; intros H s.
  - cbn. eauto.
  - rewrite forEach_cons. cbn [forallb].
    pose proof (H x ltac:(constructor) s) as Hx. unfold decides in Hx.
    destruct (p x); cbn [andb].
    + destruct Hx as [s' ->]. cbn [mbind outcome_bind].
      apply IH. intros y Hy. apply H. constructor. exact Hy.
    + destruct Hx as [e ->]. cbn. eauto.
Qed.

Section fields.
Variable rec : list byte -> Message -> MessageType -> outcome (list byte).
Variable recb : Message -> MessageType -> bool.

Lemma typed_decides buf fieldNum v def :
  (forall m schema, (depth (VMap m) <= depth v)%nat ->
                    decides (recb m schema) (rec [] m schema)) ->
  decides (typed recb def v) (encodeTypedField rec buf fieldNum v def).
Proof.
  intros Hrec. unfold typed, encodeTypedField.
  destruct (String.eqb (Type_ def) TypeInt).
  { destruct v; cbn; eauto. destruct b; cbn; eauto. }
  destruct (String.eqb (Type_ def) TypeBool).
  { destruct v; cbn; eauto. destruct b; cbn; eauto. }
  destruct (String.eqb (Type_ def) TypeString).
  { destruct v; cbn; eauto. }
  destruct (String.eqb (Type_ def) TypeBytes).
  { destruct v; cbn; eauto. }
  destruct (String.eqb (Type_ def) TypeMessage); [|cbn; eauto].
  destruct v; try (cbn; eauto; fail).
  specialize (Hrec m (default ∅ (MessageDef def)) ltac:(lia)).
  replace (match MessageDef def with Some d => d | None => ∅ end)
    with (default ∅ (MessageDef def)) by (destruct (MessageDef def); reflexivity).
  unfold decides in *.
  destruct (recb m (default ∅ (MessageDef def))).
  - destruct Hrec as [out ->]. cbn. eauto.
  - destruct Hrec as [e ->]. cbn. eauto.
Qed.

Lemma untyped_decides buf fieldNum v :
  (forall m schema, (depth (VMap m) <= depth v)%nat ->
                    decides (recb m schema) (rec [] m schema)) ->
  decides (untyped recb v) (encodeAutoField rec buf fieldNum v).
Proof.
  intros Hrec. unfold untyped, encodeAutoField.
  destruct v; try (cbn; eauto; fail).
  - destruct b; cbn; eauto.
  - specialize (Hrec m ∅ ltac:(lia)). unfold decides in *.
    destruct (recb m ∅).
    + destruct Hrec as [out ->]. cbn. eauto.
    + destruct Hrec as [e ->]. cbn. eauto.
Qed.

Lemma acceptsKey_decides (msg : Message) (schema : MessageType) buf key :
  (forall m s, (depth (VMap m) < depth (VMap msg))%nat ->
               decides (recb m s) (rec [] m s)) ->
  is_Some (msg !! key) ->
  decides (acceptsKey recb msg schema key) (encodeKey rec msg schema buf key).
Proof.
  intros Hrec [v Hv]. unfold acceptsKey, encodeKey. rewrite Hv.
  cbn [default]. unfold id. pose proof (depth_lookup _ _ _ Hv) as Hd.
  destruct (strconv.Atoi key) as [fieldNum err]. cbn [snd].
  destruct err; [cbn; eauto|]. cbn [negb andb].
  destruct (schema !! key) as [def|].
  - destruct (Repeated def).
    + assert (Hone : decides (typed recb def v)
                       (forEach (fun buf item =>
                                   encodeTypedField rec buf fieldNum item def)
                                [v] buf)).
      { unfold forEach. cbn [foldl mbind outcome_bind].
        apply typed_decides. intros m s Hm. apply Hrec. lia. }
      destruct v; try exact Hone.
      apply forEach_decides. intros item Hitem s.
      apply typed_decides. intros m s' Hm. apply Hrec.
      pose proof (depth_item _ _ Hitem). lia.
    + apply typed_decides. intros m s Hm. apply Hrec. lia.
  - apply untyped_decides. intros m s Hm. apply Hrec. lia.
Qed.



End fields.




Lemma encodeMessage_decides (fuel : nat) :
  forall buf (msg : Message) (schema : MessageType),
  (depth (VMap msg) <= fuel)%nat ->
  decides (accepts fuel msg schema) (encodeMessage fuel buf msg schema).
Proof.
  induction fuel as [|fuel IH]; intros buf msg schema Hd.
  - cbn [depth] in Hd. lia.
  - cbn [accepts encodeMessage]. apply forEach_decides.
    intros key Hkey s. apply acceptsKey_decides.
    + intros m s' Hm. apply IH. lia.
    + apply roundtrip_facts.sortedKeys_spec. exact Hkey.
Qed.

Lemma Encode_decides (msg : Message) (schema : MessageType) :
  decides (conforms msg schema) (Encode msg schema).
Proof. apply encodeMessage_decides. lia. Qed.

End accept_facts.

Module ordering_facts.
Import proto ordering.




End ordering_facts.



(** The check-in request conforms to the check-in schema whatever the
    device profile, the clock, the random logging id and the time zone:
    [Checkin] never fails in the encoder and always sends exactly one
    request, carrying the encoding. *)
Theorem checkin_request_always_encodes
    (env : world.Env) (cfg : config.Config) :
  exists encoded,
    proto.Encode (checkin.buildCheckinRequest env cfg)
                 proto.CheckinRequestSchema = Ok encoded
    /\ forall w, world.sent (checkin.Checkin env w cfg).1
                 = world.sent w ++ [checkin.checkinRequest encoded].
Proof.
  pose proof (accept_facts.Encode_decides
                (checkin.buildCheckinRequest env cfg)
                proto.CheckinRequestSchema) as H.
  assert (Hc : conformance.conforms (checkin.buildCheckinRequest env cfg)
                 proto.CheckinRequestSchema = true).
  { vm_compute. reflexivity. }
  rewrite Hc in H. destruct H as [encoded E]. exists encoded.
  split; [exact E|]. intros w. unfold checkin.Checkin. rewrite E.
  destruct (world.Do env _) as [|resp]; [reflexivity|].
  destruct (negb _); [reflexivity|].
  destruct (world.reader resp) as [|[|body]]; try reflexivity.
  destruct (proto.DecodeMessage _); try reflexivity.
  destruct (_ =? 0); reflexivity.
Qed.



(** ** Check-in, end to end *)

Module registration_facts.
Import binary proto wire world config binary_facts proto_facts.

Lemma LittleEndian_bytes (k : nat) : forall n,
  LittleEndian (littleEndianBytes k n) = n mod 2 ^ (8 * Z.of_nat k)
  /\ length (littleEndianBytes k n) = k.
Proof.
  induction k as [|k IH]; intros n.
  - cbn. rewrite Z.mod_1_r. auto.
  - cbn [littleEndianBytes length]. destruct (IH (n / 256)) as [E L].
    split; [|congruence].
    unfold LittleEndian in *. cbn [foldr]. rewrite E.
    rewrite byte_val_of, Z.mod_mod by lia.
    assert (H0 : 0 <= n mod 256 < 2 ^ 8)
      by (change (2 ^ 8) with 256; apply Z.mod_pos_bound; lia).
    rewrite lor_shiftl_add by (lia || exact H0).
    replace (8 * Z.of_nat (S k)) with (8 + 8 * Z.of_nat k) by lia.
    rewrite Z.pow_add_r by lia. change (2 ^ 8) with 256.
    rewrite Z.rem_mul_r by (try lia; apply Z.pow_pos_nonneg; lia).
    ring.
Qed.

(** A fixed64 field at [pos] is read as a [uint64] and filed under its
    key. *)
Lemma decode_fixed64_field fuel data pos result fieldNum n rest :
  0 <= pos -> 0 <= fieldNum < 2 ^ 61 -> 0 <= n < 2 ^ 64 ->
  drop (Z.to_nat pos) data = fixed64 fieldNum n ++ rest ->
  decodeLoop (S fuel) data pos result
  = decodeLoop fuel data (pos + len (fixed64 fieldNum n))
      (addToResult result (strconv.Itoa fieldNum) (VUint64 n)).
Proof.
  intros Hp Hf Hn E. unfold fixed64 in *. rewrite <- app_assoc in E.
  assert (Hw : 0 <= WireFixed64 < 8) by (unfold WireFixed64; lia).
  destruct (truncation_facts.header _ _ _ _ _ Hp Hw Hf E)
    as (k & Etag & Hk & Hlt & Erest & Hlen & Hnum & Hland).
  destruct (LittleEndian_bytes 8 n) as [Ele Hl8].
  rewrite Z.mod_small in Ele by (change (2 ^ (8 * Z.of_nat 8)) with (2 ^ 64); lia).
  rewrite length_app_len in Hlen.
  assert (Hl : len (littleEndianBytes 8 n) = 8) by (unfold len; rewrite Hl8; reflexivity).
  assert (Hr : 0 <= len rest) by (unfold len; lia).
  rewrite decodeLoop_unfold.
  replace (pos <? len data) with true by (symmetry; apply Z.ltb_lt; lia).
  cbn [negb]. rewrite Etag. cbv zeta.
  replace (k <=? 0) with false by (symmetry; apply Z.leb_gt; lia).
  rewrite Hland, Hnum. cbn [Z.eqb Pos.eqb WireVarint WireFixed64].
  replace (len data <? pos + k + 8) with false
    by (symmetry; apply Z.ltb_ge; lia).
  assert (Es : slice data (pos + k) (pos + k + 8) = littleEndianBytes 8 n).
  { unfold slice. rewrite Erest.
    replace (Z.to_nat (pos + k + 8 - (pos + k))) with 8%nat by lia.
    rewrite <- Hl8 at 1. apply take_app_length. }
  rewrite Es, Ele. f_equal.
  rewrite length_app_len, Hl.
  assert (Ek : len (writeTag [] fieldNum WireFixed64) = k).
  { rewrite writeTag_eq. cbn [app].
    destruct (tagOf_spec fieldNum WireFixed64 Hw) as (Ht & _).
    destruct (Uvarint_PutUvarint (tagOf fieldNum WireFixed64)
                (littleEndianBytes 8 n ++ rest) Ht) as [Eu _].
    rewrite writeTag_eq in E. cbn [app] in E. rewrite E in Etag.
    rewrite Eu in Etag. inversion Etag. reflexivity. }
  rewrite Ek. lia.
Qed.

Lemma DecodeMessage_ids (a s : Z) :
  0 <= a < 2 ^ 64 -> 0 <= s < 2 ^ 64 ->
  DecodeMessage (fixed64 7 a ++ fixed64 8 s)
  = Ok (<["8" := VUint64 s]> (<["7" := VUint64 a]> ∅)).
Proof.
  intros Ha Hs. unfold DecodeMessage.
  set (data := fixed64 7 a ++ fixed64 8 s).
  assert (L7 : 0 < len (fixed64 7 a)).
  { unfold fixed64. rewrite length_app_len.
    destruct (LittleEndian_bytes 8 a) as [_ L]. unfold len at 2.
    rewrite L. unfold len. lia. }
  assert (L8 : 0 < len (fixed64 8 s)).
  { unfold fixed64. rewrite length_app_len.
    destruct (LittleEndian_bytes 8 s) as [_ L]. unfold len at 2.
    rewrite L. unfold len. lia. }
  assert (Ld : len data = len (fixed64 7 a) + len (fixed64 8 s))
    by apply length_app_len.
  destruct (length data) as [|[|fuel]] eqn:El;
    [unfold len in *; lia | unfold len in *; lia |].
  rewrite (decode_fixed64_field _ data 0 ∅ 7 a (fixed64 8 s));
    [|lia|lia|exact Ha|reflexivity].
  rewrite (decode_fixed64_field _ data _ _ 8 s []);
    [|lia|lia|exact Hs|].
  2: { unfold data. rewrite Z.add_0_l.
       rewrite truncation_facts.drop_len_app, app_nil_r. reflexivity. }
  rewrite decodeLoop_end by lia.
  reflexivity.
Qed.

Lemma hexLoop_nonempty fuel u acc :
  fuel <> O -> fmt.hexLoop fuel u acc <> EmptyString.
Proof.
  revert u acc. induction fuel as [|fuel IH]; intros u acc H; [congruence|].
  cbn [fmt.hexLoop]. destruct (16 <=? u); [|discriminate].
  destruct fuel as [|fuel']; [discriminate|]. apply IH. discriminate.
Qed.

Lemma FormatUint_nonempty (u : Z) : fmt.FormatUint u <> EmptyString.
Proof.
  unfold fmt.FormatUint, strconv.Itoa.
  destruct u as [|p|p]; [discriminate| |].
  - unfold pretty, pretty_Z, pretty, pretty_positive, pretty, pretty_N.
    rewrite decide_False by discriminate.
    destruct (strconv_facts.pretty_N_go_head (N.pos p) "" ltac:(lia))
      as (c & r & E & _).
    rewrite E. discriminate.
  - unfold pretty, pretty_Z. cbn [String.append]. discriminate.
Qed.

Lemma setRegistration_registered cfg a s :
  a <> EmptyString -> s <> EmptyString ->
  HasRegistration (setRegistration cfg a s) = true.
Proof.
  intros Ha Hs. unfold HasRegistration, setRegistration, nonEmpty.
  cbn [AndroidID SecurityToken].
  apply String.eqb_neq in Ha, Hs. rewrite Ha, Hs. reflexivity.
Qed.

Lemma Checkin_sent env w cfg :
  exists encoded,
    sent (checkin.Checkin env w cfg).1 = sent w ++ [checkin.checkinRequest encoded].
Proof.
  pose proof (accept_facts.Encode_decides
                (checkin.buildCheckinRequest env cfg) CheckinRequestSchema) as H.
  assert (Hc : conformance.conforms (checkin.buildCheckinRequest env cfg)
                 CheckinRequestSchema = true) by (vm_compute; reflexivity).
  rewrite Hc in H. destruct H as [encoded E]. exists encoded.
  unfold checkin.Checkin. rewrite E.
  destruct (Do env _) as [|resp]; [reflexivity|].
  destruct (negb _); [reflexivity|].
  destruct (reader resp) as [|[|body]]; try reflexivity.
  destruct (DecodeMessage _); try reflexivity.
  destruct (_ =? 0); reflexivity.
Qed.

End registration_facts.

(** A 200 response whose body holds the device id as fixed64 field 7 and the
    security token as fixed64 field 8 makes [Checkin] return exactly these
    two numbers, for every configuration. *)
Theorem Checkin_reads_the_ids
    (env : world.Env) (w : world.World) (cfg : config.Config)
    (resp : world.Response) (body : string) (androidID securityToken : Z) :
  (forall req, world.Do env req = inr resp) ->
  world.StatusCode resp = 200 ->
  world.reader resp = inr (world.Data body) ->
  list_byte_of_string body
  = wire.fixed64 7 androidID ++ wire.fixed64 8 securityToken ->
  0 < androidID < 2 ^ 64 ->
  0 <= securityToken < 2 ^ 64 ->
  (checkin.Checkin env w cfg).2
  = Ok {| checkin.AndroidID := androidID;
          checkin.SecurityToken := securityToken |}.
Proof.
  intros Hdo Hs Hr Hb Ha Ht.
  pose proof (accept_facts.Encode_decides
                (checkin.buildCheckinRequest env cfg)
                proto.CheckinRequestSchema) as H.
  assert (Hc : conformance.conforms (checkin.buildCheckinRequest env cfg)
                 proto.CheckinRequestSchema = true) by (vm_compute; reflexivity).
  rewrite Hc in H. destruct H as [encoded E].
  unfold checkin.Checkin. rewrite E, Hdo, Hs, Hr, Hb.
  rewrite registration_facts.DecodeMessage_ids by lia.
  cbn [Z.eqb Pos.eqb negb].
  assert (E7 : checkin.fixed64Field
                 (<["8" := proto.VUint64 securityToken]>
                    (<["7" := proto.VUint64 androidID]> ∅)) "7" 0
               = androidID).
  { unfold checkin.fixed64Field.
    rewrite lookup_insert_ne by discriminate.
    rewrite lookup_insert. rewrite decide_True by reflexivity. reflexivity. }
  assert (E8 : checkin.fixed64Field
                 (<["8" := proto.VUint64 securityToken]>
                    (<["7" := proto.VUint64 androidID]> ∅)) "8" 0
               = securityToken).
  { unfold checkin.fixed64Field.
    rewrite lookup_insert. rewrite decide_True by reflexivity. reflexivity. }
  rewrite E7, E8.
  replace (androidID =? 0) with false by (symmetry; apply Z.eqb_neq; lia).
  reflexivity.
Qed.

Lemma Checkin_reads_the_ids_witness :
  (checkin.Checkin
     (samples.answering 200
        (string_of_list_byte (wire.fixed64 7 5 ++ wire.fixed64 8 0)))
     samples.nothingSent config.DefaultConfig).2
  = Ok {| checkin.AndroidID := 5; checkin.SecurityToken := 0 |}.
Proof.
  apply (Checkin_reads_the_ids _ _ _
           {| world.StatusCode := 200; world.ContentEncoding := "";
              world.Raw :=
                world.Data
                  (string_of_list_byte (wire.fixed64 7 5 ++ wire.fixed64 8 0));
              world.Gzip := inl "not gzip"%string |}
           (string_of_list_byte (wire.fixed64 7 5 ++ wire.fixed64 8 0))).
  - intros req. reflexivity.
  - reflexivity.
  - reflexivity.
  - vm_compute. reflexivity.
  - lia.
  - lia.
Defined.

(** [doCheckin] on any configuration and network: a check-in that fails
    leaves the configuration as it was and writes nothing; one that
    succeeds sets both the device id and the security token to non-empty
    strings, so that the configuration counts as registered, and saves it;
    if saving fails the configuration in memory is registered all the same
    (what the failed write leaves in the file is not stated).  The account
    and the device profile are never touched, and exactly one request is
    sent. *)
Theorem doCheckin_registers
    (env : world.Env) (w : world.World) (cfg : config.Config) :
  let '(w', cfg', r) := main.doCheckin env w cfg in
  match r with
  | Ok _ =>
      config.HasRegistration cfg' = true
      /\ world.disk w' = cfg' :: world.disk w
  | Err (main.SaveError _) => config.HasRegistration cfg' = true
  | _ => cfg' = cfg /\ world.disk w' = world.disk w
  end
  /\ config.MasterToken cfg' = config.MasterToken cfg
  /\ config.Email cfg' = config.Email cfg
  /\ config.Device cfg' = config.Device cfg
  /\ exists encoded,
       world.sent w' = world.sent w ++ [checkin.checkinRequest encoded].
Proof.
  unfold main.doCheckin.
  pose proof (checkin_facts.Checkin_disk env w cfg) as Hd.
  pose proof (registration_facts.Checkin_sent env w cfg) as Hs.
  destruct (checkin.Checkin env w cfg) as [w1 [result|e| |]];
    cbn [fst] in Hd, Hs.
  - set (cfg1 := config.setRegistration cfg _ _).
    assert (Hreg : config.HasRegistration cfg1 = true).
    { apply registration_facts.setRegistration_registered.
      - apply registration_facts.hexLoop_nonempty. discriminate.
      - apply registration_facts.FormatUint_nonempty. }
    destruct (world.WriteFile env cfg1) as [cause|].
    + split; [exact Hreg|]. auto.
    + split; [split; [exact Hreg|]|].
      * cbn. rewrite Hd. reflexivity.
      * auto.
  - auto.
  - auto.
  - auto.
Qed.

(** ** The commands and the server take the same steps *)

Module command_facts.
Import world config server main.

Lemma tokenType_labels (t : string) :
  (tokenTypeOf t = "aes"%string <-> fetchTokenType t = "AES (1P)"%string)
  /\ (tokenTypeOf t = "oauth2"%string <-> fetchTokenType t = "OAuth2"%string)
  /\ (tokenTypeOf t = "unknown"%string <-> fetchTokenType t = "Unknown"%string).
Proof.
  unfold tokenTypeOf, fetchTokenType.
  destruct ((7 <? strlen t) && String.eqb (String.substring 0 7 t) "aas_et/").
  { repeat split; intros H; (reflexivity || discriminate H). }
  destruct ((5 <? strlen t) && String.eqb (String.substring 0 5 t) "ya29.").
  { repeat split; intros H; (reflexivity || discriminate H). }
  repeat split; intros H; (reflexivity || discriminate H).
Qed.

Lemma Checkin_not_Fuel env w cfg : (checkin.Checkin env w cfg).2 <> Fuel.
Proof.
  pose proof (accept_facts.Encode_decides
                (checkin.buildCheckinRequest env cfg)
                proto.CheckinRequestSchema) as H.
  assert (Hc : conformance.conforms (checkin.buildCheckinRequest env cfg)
                 proto.CheckinRequestSchema = true) by (vm_compute; reflexivity).
  rewrite Hc in H. destruct H as [encoded E].
  unfold checkin.Checkin. rewrite E.
  destruct (Do env _) as [|resp];
    [intros H; cbn [snd] in H; discriminate H|].
  destruct (negb _); [intros H; cbn [snd] in H; discriminate H|].
  destruct (reader resp) as [|[|body]];
    try (intros H; cbn [snd] in H; discriminate H).
  pose proof (fuel_facts.decodeLoop_not_Fuel
                (S (length (list_byte_of_string body)))
                (list_byte_of_string body) 0 ∅ ltac:(lia)
                ltac:(unfold len; lia)) as Hd.
  fold (proto.DecodeMessage (list_byte_of_string body)) in Hd.
  destruct (proto.DecodeMessage (list_byte_of_string body)) as [decoded|e| |];
    try (intros H; cbn [snd] in H; discriminate H); [|congruence].
  destruct (_ =? 0); intros H; cbn [snd] in H; discriminate H.
Qed.

End command_facts.

(** [gauth fetch] and a GET on [/api/token] with only a scope take the same
    step for every non-empty scope, known app or not, and every network:
    they send the same request and leave the same world; the endpoint
    answers 200 exactly when the command prints a token, and then both show
    the same token, classified alike. *)
Theorem fetch_command_matches_endpoint
    (env : world.Env) (w : world.World) (cfg : config.Config)
    (scope : string) (r : server.APIRequest) :
  scope <> EmptyString ->
  server.Method r = "GET"%string ->
  server.Query r "scope" = scope ->
  server.Query r "app" = EmptyString ->
  server.Query r "sig" = EmptyString ->
  let '(w1, (status, json)) := server.tokenHandler env w cfg r in
  let '(w2, ending) := main.cmdFetch env w cfg scope in
  w1 = w2
  /\ (status = 200
      <-> ending = main.Done (main.fetchTokenType (server.Token json),
                              server.Token json))
  /\ (status = 200 ->
      server.TokenType json = server.tokenTypeOf (server.Token json)
      /\ server.Token json <> EmptyString)
  /\ (status = 401 <-> ending = main.Fatal main.NotLoggedIn).
Proof.
  intros Hscope Hm Hq Ha Hs.
  unfold server.tokenHandler, main.cmdFetch. rewrite Hm, Hq, Ha, Hs.
  cbn [String.eqb Ascii.eqb Bool.eqb negb andb].
  destruct (config.HasMasterToken cfg); cbn [negb].
  2: { split; [reflexivity|]. split; [split; discriminate|].
       split; [discriminate|]. split; reflexivity. }
  cbn [server.Scope server.AppPackage server.AppSig String.eqb].
  destruct (auth.KnownApps !! scope) as [[package appScope]|] eqn:Ek;
    cbn [server.Scope server.AppPackage server.AppSig String.eqb].
  - destruct (shortcut_facts.KnownApps_nonempty _ _ _ Ek) as [Hp Hc].
    apply String.eqb_neq in Hp, Hc. rewrite Hp, Hc.
    destruct (auth.FetchServiceToken env w cfg appScope package auth.GoogleSig)
      as [w' [resp|resp err]].
    + destruct (String.eqb (auth.Auth resp) "") eqn:Eauth.
      * split; [reflexivity|]. split; [split; discriminate|].
        split; [discriminate|]. split; discriminate.
      * cbn [server.Token server.TokenType].
        split; [reflexivity|]. split; [split; reflexivity|].
        split; [|split; discriminate].
        intros _. split; [reflexivity|]. apply String.eqb_neq. exact Eauth.
    + split; [reflexivity|]. split; [split; discriminate|].
      split; [discriminate|]. split; discriminate.
  - apply String.eqb_neq in Hscope. rewrite Hscope.
    destruct (auth.FetchServiceToken env w cfg scope "com.google.android.gms"
                auth.GoogleSig) as [w' [resp|resp err]].
    + destruct (String.eqb (auth.Auth resp) "") eqn:Eauth.
      * split; [reflexivity|]. split; [split; discriminate|].
        split; [discriminate|]. split; discriminate.
      * cbn [server.Token server.TokenType].
        split; [reflexivity|]. split; [split; reflexivity|].
        split; [|split; discriminate].
        intros _. split; [reflexivity|]. apply String.eqb_neq. exact Eauth.
    + split; [reflexivity|]. split; [split; discriminate|].
      split; [discriminate|]. split; discriminate.
Qed.

Lemma fetch_command_matches_endpoint_witness :
  let '(w1, (status, json)) :=
    server.tokenHandler (samples.answering 200 "Auth=ya29.token")
      samples.nothingSent samples.loggedIn
      {| server.Method := "GET"; server.JSONBody := inl "EOF"%string;
         server.Query := fun k => if String.eqb k "scope" then "drive"
                                  else ""%string |} in
  let '(w2, ending) :=
    main.cmdFetch (samples.answering 200 "Auth=ya29.token")
      samples.nothingSent samples.loggedIn "drive" in
  w1 = w2.
Proof.
  pose proof (fetch_command_matches_endpoint
                (samples.answering 200 "Auth=ya29.token")
                samples.nothingSent samples.loggedIn "drive"
                {| server.Method := "GET"; server.JSONBody := inl "EOF"%string;
                   server.Query := fun k => if String.eqb k "scope"
                                            then "drive" else ""%string |}
                ltac:(discriminate) eq_refl eq_refl eq_refl eq_refl) as H.
  destruct (server.tokenHandler _ _ _ _) as [w1 [status json]].
  destruct (main.cmdFetch _ _ _ _) as [w2 ending].
  apply H.
Defined.

(** Each token type has one label in the endpoint and one in the command,
    and the two classifications agree on every token. *)
Theorem token_type_labels_agree (token : string) :
  (server.tokenTypeOf token = "aes"%string
   <-> main.fetchTokenType token = "AES (1P)"%string)
  /\ (server.tokenTypeOf token = "oauth2"%string
      <-> main.fetchTokenType token = "OAuth2"%string)
  /\ (server.tokenTypeOf token = "unknown"%string
      <-> main.fetchTokenType token = "Unknown"%string).
Proof. apply command_facts.tokenType_labels. Qed.

(** [gauth login] on a registered configuration and the proxy's background
    exchange store the same: for the same OAuth token and network they send
    the same request, leave the same configuration in memory and the same
    files on disk, and the proxy records no error exactly when the command
    gets past saving (it then prints its summary, or panics on a master
    token shorter than ten bytes, which it has already saved). *)
Theorem login_command_matches_proxy_exchange
    (env : world.Env) (webview : config.Config -> string + string)
    (w : world.World) (cfg : config.Config) (state : server.ProxyState)
    (oauthToken : string) :
  config.HasRegistration cfg = true ->
  webview cfg = inr oauthToken ->
  let '(w1, cfg1, state1) := server.exchangeToken env w cfg state oauthToken in
  let '(w2, cfg2, ending) := main.cmdLogin env webview w cfg in
  w1 = w2 /\ cfg1 = cfg2
  /\ (server.error state1 = EmptyString
      <-> (exists summary, ending = main.Done summary)
          \/ ending = main.Panicked)
  /\ (ending = main.Panicked ->
      strlen (config.MasterToken cfg2) < 10
      /\ world.disk w2 = cfg2 :: world.disk w)
  /\ (forall summary, ending = main.Done summary ->
      10 <= strlen (config.MasterToken cfg2)
      /\ main.summaryEmail summary = server.email state1
      /\ world.disk w2 = cfg2 :: world.disk w).
Proof.
  intros Hreg Hweb. unfold server.exchangeToken, main.cmdLogin.
  rewrite Hreg. cbn [negb]. rewrite Hweb.
  pose proof (exchange_facts.errorString_nonempty) as Hne.
  destruct (auth.ExchangeOAuthForMaster env w cfg oauthToken)
    as [w' [resp|resp err]] eqn:Ex.
  2: { cbv beta iota. split; [reflexivity|]. split; [reflexivity|]. cbn [server.error server.SetResult].
       split; [|split; [discriminate|discriminate]].
       split.
       - intros H. exfalso. exact (Hne err H).
       - intros [[summary H]|H]; discriminate H. }
  assert (Hdisk : world.disk w' = world.disk w).
  { unfold auth.ExchangeOAuthForMaster, auth.doAuthRequest in Ex.
    destruct (world.Do env _) as [|r0]; [inversion Ex; reflexivity|].
    destruct (world.reader r0) as [|[|body]];
      try (inversion Ex; reflexivity).
    destruct (negb _); inversion Ex; reflexivity. }
  destruct (String.eqb (auth.Token resp) "") eqn:Et.
  - destruct (String.eqb (auth.Auth resp) "") eqn:Ea; cbn [andb].
    + cbv beta iota. split; [reflexivity|]. split; [reflexivity|].
      cbn [server.error server.SetResult].
      split; [|split; [discriminate|discriminate]].
      split; [discriminate|].
      intros [[summary H]|H]; discriminate H.
    + cbv beta iota zeta.
      set (cfg' := config.setAccount cfg (auth.Auth resp) (auth.Email resp)).
      destruct (world.WriteFile env cfg') as [cause|]; cbv beta iota zeta.
      * split; [reflexivity|]. split; [reflexivity|].
        cbn [server.error server.SetResult].
        split; [|split; [discriminate|discriminate]].
        split; [discriminate|].
        intros [[summary H]|H]; discriminate H.
      * destruct (strlen (auth.Auth resp) <? 10) eqn:El; cbv beta iota zeta.
        -- apply Z.ltb_lt in El.
           split; [reflexivity|]. split; [reflexivity|].
           cbn [server.error server.SetResult].
           split; [split; [auto|reflexivity]|].
           split; [|discriminate].
           intros _. split; [exact El|]. cbn. rewrite Hdisk. reflexivity.
        -- apply Z.ltb_ge in El.
           split; [reflexivity|]. split; [reflexivity|].
           cbn [server.error server.SetResult].
           split; [split; [eauto|reflexivity]|].
           split; [discriminate|].
           intros summary [= <-]. split; [exact El|].
           split; [reflexivity|]. cbn. rewrite Hdisk. reflexivity.
  - cbn [andb]. cbv beta iota zeta. rewrite Et.
    set (cfg' := config.setAccount cfg (auth.Token resp) (auth.Email resp)).
    destruct (world.WriteFile env cfg') as [cause|]; cbv beta iota zeta.
    + split; [reflexivity|]. split; [reflexivity|].
      cbn [server.error server.SetResult].
      split; [|split; [discriminate|discriminate]].
      split; [discriminate|].
      intros [[summary H]|H]; discriminate H.
    + destruct (strlen (auth.Token resp) <? 10) eqn:El; cbv beta iota zeta.
      * apply Z.ltb_lt in El.
        split; [reflexivity|]. split; [reflexivity|].
        cbn [server.error server.SetResult].
        split; [split; [auto|reflexivity]|].
        split; [|discriminate].
        intros _. split; [exact El|]. cbn. rewrite Hdisk. reflexivity.
      * apply Z.ltb_ge in El.
        split; [reflexivity|]. split; [reflexivity|].
        cbn [server.error server.SetResult].
        split; [split; [eauto|reflexivity]|].
        split; [discriminate|].
        intros summary [= <-]. split; [exact El|].
        split; [reflexivity|]. cbn. rewrite Hdisk. reflexivity.
Qed.

Lemma login_command_matches_proxy_exchange_witness :
  let '(w1, cfg1, state1) :=
    server.exchangeToken (samples.answering 200 "Token=aas_et/abc")
      samples.nothingSent
      (config.setRegistration config.DefaultConfig "3f2a" "17")
      server.NewProxyState "oauth2_4/x" in
  let '(w2, cfg2, ending) :=
    main.cmdLogin (samples.answering 200 "Token=aas_et/abc")
      (fun _ => inr "oauth2_4/x"%string) samples.nothingSent
      (config.setRegistration config.DefaultConfig "3f2a" "17") in
  w1 = w2 /\ cfg1 = cfg2.
Proof.
  pose proof (login_command_matches_proxy_exchange
                (samples.answering 200 "Token=aas_et/abc")
                (fun _ => inr "oauth2_4/x"%string) samples.nothingSent
                (config.setRegistration config.DefaultConfig "3f2a" "17")
                server.NewProxyState "oauth2_4/x" eq_refl eq_refl) as H.
  destruct (server.exchangeToken _ _ _ _ _) as [[w1 cfg1] state1].
  destruct (main.cmdLogin _ _ _ _) as [[w2 cfg2] ending].
  split; apply H.
Defined.

(** [gauth login] on an unregistered configuration checks in first, and
    when the check-in does not succeed it stops there: the check-in request
    is the only one sent, the configuration is unchanged, nothing is saved,
    and neither the sign-in nor the exchange is attempted. *)
Theorem login_stops_at_failed_checkin
    (env : world.Env) (webview : config.Config -> string + string)
    (w : world.World) (cfg : config.Config) :
  config.HasRegistration cfg = false ->
  (forall result, (checkin.Checkin env w cfg).2 <> Ok result) ->
  let '(w', cfg', ending) := main.cmdLogin env webview w cfg in
  cfg' = cfg
  /\ world.disk w' = world.disk w
  /\ (exists encoded,
        world.sent w' = world.sent w ++ [checkin.checkinRequest encoded])
  /\ ((exists e,
         ending = main.Fatal (main.CheckinFailed (main.CheckinError e)))
      \/ ending = main.Panicked).
Proof.
  intros Hreg Hfail. unfold main.cmdLogin, main.doCheckin.
  rewrite Hreg. cbn [negb].
  pose proof (checkin_facts.Checkin_disk env w cfg) as Hd.
  pose proof (registration_facts.Checkin_sent env w cfg) as Hs.
  pose proof (command_facts.Checkin_not_Fuel env w cfg) as Hf.
  destruct (checkin.Checkin env w cfg) as [w1 [result|e| |]];
    cbn [fst snd] in Hd, Hs, Hf, Hfail.
  - exfalso. exact (Hfail result eq_refl).
  - cbv beta iota. eauto 6.
  - cbv beta iota. auto.
  - congruence.
Qed.

Lemma login_stops_at_failed_checkin_witness :
  let '(w', cfg', ending) :=
    main.cmdLogin samples.offline (fun _ => inr "oauth2_4/x"%string)
      samples.nothingSent config.DefaultConfig in
  cfg' = config.DefaultConfig /\ world.disk w' = [].
Proof.
  pose proof (login_stops_at_failed_checkin samples.offline
                (fun _ => inr "oauth2_4/x"%string)
                samples.nothingSent config.DefaultConfig eq_refl) as H.
  assert (Hfail : forall result,
            (checkin.Checkin samples.offline samples.nothingSent
               config.DefaultConfig).2 <> Ok result).
  { intros result. unfold checkin.Checkin.
    destruct (proto.Encode _ _); intros E; cbn [snd] in E;
      discriminate E. }
  specialize (H Hfail).
  destruct (main.cmdLogin _ _ _ _) as [[w' cfg'] ending].
  destruct H as (H1 & H2 & _). split; [exact H1 | exact H2].
Defined.

(** ** Reading the token out of cookies *)

Module cookie_facts.
Import gostrings login.

Lemma append_cons c (p r : string) : String c p +:+ r = String c (p +:+ r).
Proof. reflexivity. Qed.

Lemma append_nil (r : string) : "" +:+ r = r.
Proof. reflexivity. Qed.

Lemma prefix_app (p s : string) :
  String.prefix p s = true -> exists r, s = p +:+ r.
Proof.
  revert s. induction p as [|c p IH]; intros s H.
  - exists s. reflexivity.
  - destruct s as [|d s]; [discriminate|]. cbn [String.prefix] in H.
    destruct (Ascii.ascii_dec c d) as [->|]; [|discriminate].
    destruct (IH s H) as [r ->]. exists r. reflexivity.
Qed.

Lemma prefix_refl_app (p r : string) : String.prefix p (p +:+ r) = true.
Proof.
  induction p as [|c p IH].
  - rewrite append_nil. destruct r; reflexivity.
  - rewrite append_cons. cbn [String.prefix].
    destruct (Ascii.ascii_dec c c); [exact IH|congruence].
Qed.

Lemma substring_all (s : string) : String.substring 0 (String.length s) s = s.
Proof.
  induction s as [|c s IH]; cbn [String.substring String.length];
    [reflexivity|]. rewrite IH. reflexivity.
Qed.

Lemma substring_skip (p r : string) (n : nat) :
  String.substring (String.length p) n (p +:+ r) = String.substring 0 n r.
Proof.
  induction p as [|c p IH].
  - reflexivity.
  - rewrite append_cons. cbn [String.length String.substring]. exact IH.
Qed.

Lemma length_append (p r : string) :
  String.length (p +:+ r) = (String.length p + String.length r)%nat.
Proof.
  induction p as [|c p IH]; [reflexivity|].
  rewrite append_cons. cbn [String.length Nat.add]. rewrite IH. reflexivity.
Qed.

Lemma TrimPrefix_app (p r : string) : TrimPrefix (p +:+ r) p = r.
Proof.
  unfold TrimPrefix, HasPrefix.
  rewrite prefix_refl_app, substring_skip, length_append.
  replace (String.length p + String.length r - String.length p)%nat
    with (String.length r) by lia.
  apply substring_all.
Qed.

Lemma SplitN2_oauth (r : string) :
  SplitN2 ("oauth_token=" +:+ r) "=" = ["oauth_token"%string; r].
Proof.
  unfold SplitN2.
  assert (Hi : Index ("oauth_token=" +:+ r) "=" = 11).
  { unfold Index. rewrite !append_cons, append_nil.
    cbn [Index_from String.prefix]. destruct r; reflexivity. }
  rewrite Hi.
  assert (Hn : Z.min 2 (strlen ("oauth_token=" +:+ r) + 1) = 2).
  { unfold strlen. rewrite length_append. cbn [String.length]. lia. }
  rewrite Hn. cbn [Z.leb Z.ltb Z.compare Pos.compare Pos.compare_cont orb].
  f_equal. f_equal.
  change (Z.to_nat (11 + strlen "=")) with (String.length "oauth_token=").
  rewrite substring_skip, length_append.
  replace (String.length "oauth_token=" + String.length r
           - String.length "oauth_token=")%nat
    with (String.length r) by lia.
  apply substring_all.
Qed.

Lemma loops_agree (cookies : list string) :
  ExtractOAuthToken_loop cookies = ParseOAuthFromCookies_loop cookies.
Proof.
  induction cookies as [|cookie rest IH]; [reflexivity|].
  cbn [ExtractOAuthToken_loop ParseOAuthFromCookies_loop]. cbv zeta.
  destruct (HasPrefix (TrimSpace cookie) "oauth_token=") eqn:Hp;
    [|exact IH].
  destruct (prefix_app _ _ Hp) as [r Er]. rewrite Er.
  rewrite SplitN2_oauth, TrimPrefix_app. reflexivity.
Qed.

End cookie_facts.

(** The two functions that read the OAuth token out of a cookie string,
    one cutting the cookie at its first [=] and one trimming the prefix,
    return the same on every input. *)
Theorem cookie_readers_agree (cookies : string) :
  login.ExtractOAuthToken cookies = login.ParseOAuthFromCookies cookies.
Proof. apply cookie_facts.loops_agree. Qed.

(** ** Searching and cutting strings *)

Module strings_facts.
Import gostrings cookie_facts.

Lemma prefix_nil (s : string) : String.prefix "" s = true.
Proof. destruct s; reflexivity. Qed.

Lemma prefix_length (p s : string) :
  String.prefix p s = true -> (String.length p <= String.length s)%nat.
Proof.
  intros H. destruct (prefix_app _ _ H) as [r ->]. rewrite length_append. lia.
Qed.

Lemma from_0 (s : string) : from s 0 = s.
Proof.
  unfold from. change (Z.to_nat 0) with 0%nat. rewrite Nat.sub_0_r.
  apply substring_all.
Qed.

Lemma upto_from (s : string) (i : Z) :
  0 <= i <= strlen s -> upto s i +:+ from s i = s.
Proof.
  unfold upto, from, strlen. intros H.
  assert (Hn : (Z.to_nat i <= String.length s)%nat) by lia.
  revert Hn. generalize (Z.to_nat i) as n. clear.
  induction s as [|c s IH]; intros n Hn.
  - destruct n; [reflexivity|cbn in Hn; lia].
  - destruct n as [|n].
    + rewrite Nat.sub_0_r, substring_all. reflexivity.
    + cbn [String.substring String.length Nat.sub]. rewrite append_cons.
      rewrite IH by (cbn in Hn; lia). reflexivity.
Qed.

Lemma length_upto (s : string) (i : Z) :
  0 <= i <= strlen s -> strlen (upto s i) = i.
Proof.
  unfold upto, strlen. intros H.
  assert (Hn : (Z.to_nat i <= String.length s)%nat) by lia.
  replace i with (Z.of_nat (Z.to_nat i)) at 2 by lia. f_equal.
  revert Hn. generalize (Z.to_nat i) as n. clear.
  induction s as [|c s IH]; intros n Hn.
  - destruct n; [reflexivity|cbn in Hn; lia].
  - destruct n as [|n]; [reflexivity|].
    cbn [String.substring String.length]. rewrite IH by (cbn in Hn; lia).
    reflexivity.
Qed.

(** [Index] finds the first occurrence. *)
Lemma Index_from_spec (sub : string) : forall s i,
  (Index_from s sub i = -1 \/ i <= Index_from s sub i <= i + strlen s).
Proof.
  unfold strlen. induction s as [|c s IH]; intros i; cbn [Index_from].
  - destruct (String.prefix sub ""); [right; cbn; lia|left; reflexivity].
  - destruct (String.prefix sub (String c s)); [right; cbn [String.length]; lia|].
    destruct (IH (i + 1)) as [H|H]; [left; exact H|right].
    cbn [String.length]. lia.
Qed.

Lemma Index_from_found (sub : string) : forall s i,
  0 <= i -> 0 <= Index_from s sub i ->
  String.prefix sub (from s (Index_from s sub i - i)) = true.
Proof.
  induction s as [|c s IH]; intros i Hi H; cbn [Index_from] in *.
  - destruct (String.prefix sub "") eqn:E; [|lia].
    rewrite Z.sub_diag. exact E.
  - destruct (String.prefix sub (String c s)) eqn:E.
    + rewrite Z.sub_diag, from_0. exact E.
    + specialize (IH (i + 1) ltac:(lia) H).
      destruct (Index_from_spec sub s (i + 1)) as [Hn|Hr]; [lia|].
      unfold from in *.
      replace (Z.to_nat (Index_from s sub (i + 1) - i))
        with (S (Z.to_nat (Index_from s sub (i + 1) - (i + 1)))) by lia.
      cbn [String.substring String.length Nat.sub]. exact IH.
Qed.

Lemma Index_spec (s sub : string) :
  Index s sub = -1
  \/ (0 <= Index s sub <= strlen s
      /\ String.prefix sub (from s (Index s sub)) = true).
Proof.
  unfold Index. destruct (Index_from_spec sub s 0) as [H|H]; [left; exact H|].
  right. split; [lia|].
  pose proof (Index_from_found sub s 0 ltac:(lia) ltac:(lia)) as Hf.
  rewrite Z.sub_0_r in Hf. exact Hf.
Qed.

Lemma prefix_trans (a b c : string) :
  String.prefix a b = true -> String.prefix b c = true ->
  String.prefix a c = true.
Proof.
  intros H1 H2. destruct (prefix_app _ _ H1) as [r1 ->].
  destruct (prefix_app _ _ H2) as [r2 ->].
  clear. induction a as [|x a IH]; [apply prefix_nil|].
  rewrite !append_cons. cbn [String.prefix].
  destruct (Ascii.ascii_dec x x); [exact IH|congruence].
Qed.

Lemma prefix_substring_0 (n : nat) (s : string) :
  String.prefix (String.substring 0 n s) s = true.
Proof.
  revert n. induction s as [|c s IH]; intros n.
  - destruct n; reflexivity.
  - destruct n as [|n]; [reflexivity|].
    cbn [String.substring String.prefix].
    destruct (Ascii.ascii_dec c c); [apply IH|congruence].
Qed.

(** Before the first occurrence there is none. *)
Lemma Index_from_before (sub : string) : forall s i k,
  sub <> EmptyString -> 0 <= i -> 0 <= Index_from s sub i ->
  Index_from (upto s (Index_from s sub i - i)) sub k = -1.
Proof.
  induction s as [|c s IH]; intros i k Hsub Hi H; cbn [Index_from] in *.
  - destruct (String.prefix sub "") eqn:E; [|lia].
    destruct sub; [congruence|discriminate].
  - destruct (String.prefix sub (String c s)) eqn:E.
    + rewrite Z.sub_diag. unfold upto. cbn [Z.to_nat String.substring].
      cbn [Index_from]. destruct sub; [congruence|reflexivity].
    + destruct (Index_from_spec sub s (i + 1)) as [Hn|Hr]; [lia|].
      unfold upto in *.
      replace (Z.to_nat (Index_from s sub (i + 1) - i))
        with (S (Z.to_nat (Index_from s sub (i + 1) - (i + 1)))) by lia.
      cbn [String.substring Index_from].
      destruct (String.prefix sub
                  (String c (String.substring 0
                     (Z.to_nat (Index_from s sub (i + 1) - (i + 1))) s)))
        eqn:E2.
      * exfalso. clear IH.
        assert (String.prefix sub (String c s) = true); [|congruence].
        eapply prefix_trans; [exact E2|].
        cbn [String.prefix]. destruct (Ascii.ascii_dec c c); [|congruence].
        apply prefix_substring_0.
      * apply (IH (i + 1) (k + 1) Hsub ltac:(lia) H).
Qed.

Lemma Index_before (s sub : string) :
  sub <> EmptyString -> 0 <= Index s sub ->
  Index (upto s (Index s sub)) sub = -1.
Proof.
  intros Hsub H. unfold Index in *.
  pose proof (Index_from_before sub s 0 0 Hsub ltac:(lia) H) as Hb.
  rewrite Z.sub_0_r in Hb. exact Hb.
Qed.

End strings_facts.

Module proxy_facts.
Import gostrings cookie_facts strings_facts proxy.

Lemma append_assoc (a b c : string) : (a +:+ b) +:+ c = a +:+ b +:+ c.
Proof.
  induction a as [|x a IH]; [reflexivity|].
  rewrite !append_cons, IH. reflexivity.
Qed.

Lemma append_nil_r (a : string) : a +:+ "" = a.
Proof.
  induction a as [|x a IH]; [reflexivity|].
  rewrite append_cons, IH. reflexivity.
Qed.

(** A cut at the first occurrence of [sub]. *)
Lemma cut_at_first (s sub : string) :
  sub <> EmptyString -> 0 <= Index s sub ->
  s = upto s (Index s sub) +:+ from s (Index s sub)
  /\ HasPrefix (from s (Index s sub)) sub = true
  /\ Contains (upto s (Index s sub)) sub = false.
Proof.
  intros Hsub H. destruct (Index_spec s sub) as [Hn|[Hr Hp]]; [lia|].
  split; [symmetry; apply upto_from; exact Hr|].
  split; [exact Hp|].
  unfold Contains. rewrite Index_before by assumption. reflexivity.
Qed.


End proxy_facts.

(** The bridge is injected once and the page is kept whole: the result is
    the page with the tag inserted at one position, directly in front of
    the first [</head>] if there is one, else directly in front of the
    first [<body], else at the very start. *)
Theorem bridge_injected_once (content bridgeTag : string) :
  exists before after,
    content = before +:+ after
    /\ proxy.injectBridge content bridgeTag = before +:+ bridgeTag +:+ after
    /\ if gostrings.Contains content "</head>" then
         gostrings.HasPrefix after "</head>" = true
         /\ gostrings.Contains before "</head>" = false
       else if gostrings.Contains content "<body" then
         gostrings.HasPrefix after "<body" = true
         /\ gostrings.Contains before "<body" = false
       else before = EmptyString.
Proof.
  unfold proxy.injectBridge, gostrings.Contains at 1 3.
  destruct (0 <=? gostrings.Index content "</head>") eqn:H1.
  - apply Z.leb_le in H1.
    destruct (proxy_facts.cut_at_first content "</head>" ltac:(discriminate) H1)
      as (E & Hp & Hc).
    eexists _, _. split; [exact E|]. split; [reflexivity|]. auto.
  - destruct (0 <=? gostrings.Index content "<body") eqn:H2.
    + apply Z.leb_le in H2.
      destruct (proxy_facts.cut_at_first content "<body" ltac:(discriminate) H2)
        as (E & Hp & Hc).
      eexists _, _. split; [exact E|]. split; [reflexivity|]. auto.
    + exists EmptyString, content. auto.
Qed.


(** ** Parsing the body of an auth response *)

Module authlines_facts.
Import gostrings cookie_facts strings_facts proxy_facts authlines.

Lemma lacks_cons c x s :
  lacks c (String x s) = negb (Ascii.eqb x c) && lacks c s.
Proof. reflexivity. Qed.

Lemma lacks_app c a b : lacks c (a +:+ b) = lacks c a && lacks c b.
Proof.
  induction a as [|x a IH]; [reflexivity|].
  rewrite append_cons, !lacks_cons, IH, andb_assoc. reflexivity.
Qed.

(** No carriage return: nothing to replace. *)
Lemma ReplaceAll_none (s : string) :
  lacks carriageReturn s = true -> ReplaceAll s auth.CRLF auth.LF = s.
Proof.
  unfold ReplaceAll. induction s as [|c s IH]; intros H; [reflexivity|].
  rewrite lacks_cons in H. apply andb_true_iff in H as [Hc Hs].
  cbn [ReplaceAll_from].
  assert (Hp : String.prefix auth.CRLF (String c s) = false).
  { unfold auth.CRLF. cbn [String.prefix].
    destruct (Ascii.ascii_dec "013" c) as [<-|]; [|reflexivity].
    discriminate Hc. }
  rewrite Hp, IH by exact Hs. reflexivity.
Qed.

Lemma string_of_rev_snoc cur c :
  string_of_list_ascii (rev (c :: cur))
  = string_of_list_ascii (rev cur) +:+ String c "".
Proof.
  cbn [rev]. induction (rev cur) as [|x l IH]; [reflexivity|].
  cbn [app string_of_list_ascii]. rewrite append_cons, IH. reflexivity.
Qed.

(** One line, up to the end or up to a line feed. *)
Lemma Split_line (l : string) : forall cur,
  lacks lineFeed l = true ->
  Split_from l auth.LF O cur = [string_of_list_ascii (rev cur) +:+ l]
  /\ forall rest,
       Split_from (l +:+ String lineFeed rest) auth.LF O cur
       = (string_of_list_ascii (rev cur) +:+ l)
           :: Split_from rest auth.LF O [].
Proof.
  induction l as [|c l IH]; intros cur H.
  - rewrite append_nil_r. split; [reflexivity|]. intros rest.
    rewrite append_nil. cbn [Split_from].
    assert (Hp : String.prefix auth.LF (String lineFeed rest) = true).
    { unfold auth.LF, lineFeed. cbn [String.prefix].
      destruct (Ascii.ascii_dec "010" "010"); [apply prefix_nil|congruence]. }
    rewrite Hp. reflexivity.
  - rewrite lacks_cons in H. apply andb_true_iff in H as [Hc Hl].
    assert (Hp : forall r, String.prefix auth.LF (String c r) = false).
    { intros r. unfold auth.LF. cbn [String.prefix].
      destruct (Ascii.ascii_dec "010" c) as [<-|]; [|reflexivity].
      discriminate Hc. }
    destruct (IH (c :: cur) Hl) as [IH1 IH2].
    assert (E : forall t,
      string_of_list_ascii (rev (c :: cur)) +:+ t
      = string_of_list_ascii (rev cur) +:+ String c t).
    { intros t. rewrite string_of_rev_snoc, append_assoc. reflexivity. }
    split.
    + cbn [Split_from]. rewrite Hp, IH1, E. reflexivity.
    + intros rest. rewrite append_cons. cbn [Split_from].
      rewrite Hp, IH2, E. reflexivity.
Qed.

Lemma concat_cons (sep x : string) (y : string) (l : list string) :
  String.concat sep (x :: y :: l) = x +:+ sep +:+ String.concat sep (y :: l).
Proof. reflexivity. Qed.

Lemma Split_lines (lines : list string) :
  lines <> [] ->
  Forall (fun l => lacks lineFeed l = true) lines ->
  Split (String.concat auth.LF lines) auth.LF = lines.
Proof.
  unfold Split. induction lines as [|l lines IH]; intros Hne H; [congruence|].
  inversion H as [|? ? Hl Hrest]; subst.
  destruct lines as [|l2 lines].
  - cbn [String.concat]. destruct (Split_line l [] Hl) as [E _].
    rewrite E. reflexivity.
  - rewrite concat_cons. unfold auth.LF at 1.
    rewrite append_cons, append_nil.
    destruct (Split_line l [] Hl) as [_ E]. rewrite E.
    rewrite IH by (try discriminate; exact Hrest). reflexivity.
Qed.

(** [TrimSpace] leaves a string that starts and ends with a plain
    character as it is. *)
Lemma of_bytes_bytes (s : string) : of_bytes (utf8.bytes s) = s.
Proof.
  unfold of_bytes, utf8.bytes. rewrite map_map.
  rewrite (map_ext _ id), map_id.
  - apply string_of_list_ascii_of_string.
  - intros c. rewrite N2Z.id. apply ascii_N_embedding.
Qed.

Lemma plain_code (c : ascii) :
  isPlain c = true ->
  (utf8.RuneSelf <=? Z.of_N (N_of_ascii c)) = false
  /\ asciiSpace (Z.of_N (N_of_ascii c)) = false.
Proof.
  unfold isPlain, utf8.RuneSelf, asciiSpace. cbv zeta.
  set (n := Z.of_N (N_of_ascii c)). intros H.
  apply andb_true_iff in H as [H1 H2].
  apply Z.leb_le in H1, H2. split; [apply Z.leb_gt; lia|].
  repeat (apply orb_false_iff; split); apply Z.eqb_neq; lia.
Qed.

Lemma last_map {A B} (f : A -> B) (l : list A) :
  last (map f l) = option_map f (last l).
Proof.
  induction l as [|x l IH]; [reflexivity|].
  destruct l as [|y l]; [reflexivity|]. exact IH.
Qed.

Lemma TrimSpace_plain (s : string) :
  match s with String c _ => isPlain c | EmptyString => false end = true ->
  match last (list_ascii_of_string s) with
  | Some c => isPlain c
  | None => false
  end = true ->
  TrimSpace s = s.
Proof.
  intros Hfirst Hlast. unfold TrimSpace.
  rewrite <- (of_bytes_bytes s) at 2.
  destruct s as [|c s]; [discriminate|].
  destruct (plain_code c Hfirst) as [Hr Hs].
  assert (Eb : utf8.bytes (String c s)
               = Z.of_N (N_of_ascii c) :: utf8.bytes s) by reflexivity.
  rewrite Eb. cbn [TrimSpace_start]. rewrite Hr, Hs. rewrite <- Eb.
  set (t := utf8.bytes (String c s)).
  assert (Hl : last t = option_map (fun c => Z.of_N (N_of_ascii c))
                          (last (list_ascii_of_string (String c s))))
    by apply last_map.
  destruct (last (list_ascii_of_string (String c s))) as [cl|];
    [|discriminate].
  destruct (plain_code cl Hlast) as [Hr' Hs'].
  assert (Hlen : length t = S (length (utf8.bytes s))) by reflexivity.
  rewrite Hlen. cbn [TrimSpace_stop]. rewrite Hl. cbn [option_map].
  rewrite Hr', Hs'. reflexivity.
Qed.

Lemma Index_from_key (k v : string) : forall i,
  lacks "=" k = true ->
  Index_from (k +:+ String "=" v) "=" i = i + strlen k.
Proof.
  unfold strlen. induction k as [|c k IH]; intros i H.
  - rewrite append_nil. cbn [Index_from String.prefix].
    destruct (Ascii.ascii_dec "=" "="); [|congruence].
    rewrite prefix_nil. cbn. lia.
  - rewrite lacks_cons in H. apply andb_true_iff in H as [Hc Hk].
    rewrite append_cons. cbn [Index_from String.prefix].
    destruct (Ascii.ascii_dec "=" c) as [<-|]; [discriminate Hc|].
    rewrite IH by exact Hk. cbn [String.length]. lia.
Qed.

Lemma last_app_cons {A} (l : list A) x r :
  last (l ++ x :: r) = last (x :: r).
Proof.
  induction l as [|y l IH]; [reflexivity|].
  cbn [app]. destruct (l ++ x :: r) eqn:E; [destruct l; discriminate|].
  exact IH.
Qed.

Lemma list_ascii_app (a b : string) :
  list_ascii_of_string (a +:+ b)
  = list_ascii_of_string a ++ list_ascii_of_string b.
Proof.
  induction a as [|x a IH]; [reflexivity|].
  rewrite append_cons. cbn [list_ascii_of_string app]. rewrite IH.
  reflexivity.
Qed.

Lemma parseLine_pair r (kv : string * string) :
  cleanPair kv = true ->
  auth.parseLine r (kv.1 +:+ "=" +:+ kv.2) = auth.setField r kv.1 kv.2
  /\ lacks lineFeed (kv.1 +:+ "=" +:+ kv.2) = true
  /\ lacks carriageReturn (kv.1 +:+ "=" +:+ kv.2) = true.
Proof.
  destruct kv as [k v]. cbn [fst snd]. unfold cleanPair. cbn [fst snd].
  intros H.
  apply andb_true_iff in H as [H Hlast].
  apply andb_true_iff in H as [H HvC].
  apply andb_true_iff in H as [H HvL].
  apply andb_true_iff in H as [H HkC].
  apply andb_true_iff in H as [H HkL].
  apply andb_true_iff in H as [Hfirst Heq].
  split; [|split].
  2: { rewrite !lacks_app, HkL, HvL. reflexivity. }
  2: { rewrite !lacks_app, HkC, HvC. reflexivity. }
  unfold auth.parseLine.
  assert (Hline : "=" +:+ v = String "=" v) by reflexivity.
  rewrite Hline.
  assert (Htrim : TrimSpace (k +:+ String "=" v) = k +:+ String "=" v).
  { apply TrimSpace_plain.
    - destruct k as [|c k]; [discriminate|]. exact Hfirst.
    - rewrite list_ascii_app. cbn [list_ascii_of_string].
      rewrite last_app_cons.
      destruct (list_ascii_of_string v) as [|x l] eqn:Ev; [reflexivity|].
      change (last ("="%char :: x :: l)) with (last (x :: l)).
      destruct (last (x :: l)) eqn:El; [exact Hlast|].
      exfalso. revert El. clear. revert x.
      induction l as [|y l IH]; intros x; [discriminate|apply IH]. }
  rewrite Htrim. cbv zeta. unfold Index.
  rewrite Index_from_key by exact Heq. rewrite Z.add_0_l.
  assert (Hk : 0 < strlen k).
  { destruct k; [discriminate|]. unfold strlen. cbn [String.length]. lia. }
  replace (strlen k <=? 0) with false by (symmetry; apply Z.leb_gt; lia).
  unfold strlen. rewrite Nat2Z.id.
  replace (Z.to_nat (Z.of_nat (String.length k) + 1))
    with (String.length (k +:+ "=")) by (rewrite length_append; cbn; lia).
  assert (E1 : String.substring 0 (String.length k) (k +:+ String "=" v) = k).
  { clear. induction k as [|c k IH]; [reflexivity|].
    rewrite append_cons. cbn [String.length String.substring].
    rewrite IH. reflexivity. }
  rewrite E1.
  assert (E2 : k +:+ String "=" v = (k +:+ "=") +:+ v)
    by (rewrite append_assoc; reflexivity).
  rewrite E2, substring_skip, !length_append.
  replace (String.length k + String.length "=" + String.length v
           - (String.length k + String.length "="))%nat
    with (String.length v) by lia.
  rewrite substring_all. reflexivity.
Qed.

Lemma foldl_parse (fields : list (string * string)) : forall r,
  forallb cleanPair fields = true ->
  foldl auth.parseLine r (map (fun kv => kv.1 +:+ "=" +:+ kv.2) fields)
  = foldl (fun r kv => auth.setField r kv.1 kv.2) r fields.
Proof.
  induction fields as [|kv fields IH]; intros r H; [reflexivity|].
  cbn [forallb] in H. apply andb_true_iff in H as [Hkv H].
  cbn [map foldl]. destruct (parseLine_pair r kv Hkv) as [E _].
  rewrite E. apply IH. exact H.
Qed.

Lemma lacks_concat c (lines : list string) :
  negb (Ascii.eqb "010" c) = true ->
  Forall (fun l => lacks c l = true) lines ->
  lacks c (String.concat auth.LF lines) = true.
Proof.
  intros Hc H. induction H as [|l lines Hl H IH]; [reflexivity|].
  destruct lines as [|l2 lines]; [exact Hl|].
  rewrite concat_cons, !lacks_app, Hl, IH. unfold auth.LF.
  rewrite lacks_cons, Hc. reflexivity.
Qed.

Lemma foldl_parse_render (fields : list (string * string)) :
  forallb cleanPair fields = true ->
  auth.parseAuthResponse (render fields) = assign fields.
Proof.
  intros H. unfold auth.parseAuthResponse, authlines.render, authlines.assign.
  set (lines := map (fun kv => kv.1 +:+ "=" +:+ kv.2) fields).
  assert (HL : Forall (fun l => authlines.lacks authlines.lineFeed l = true) lines
               /\ Forall (fun l => authlines.lacks authlines.carriageReturn l = true) lines).
  { unfold lines. clear lines. induction fields as [|kv fields IH].
    - split; constructor.
    - cbn [forallb] in H. apply andb_true_iff in H as [Hkv H].
      destruct (IH H) as [I1 I2].
      destruct (parseLine_pair auth.emptyResponse kv Hkv)
        as (_ & L1 & L2).
      split; constructor; assumption. }
  destruct HL as [HLF HCR].
  rewrite ReplaceAll_none
    by (apply lacks_concat; [reflexivity|exact HCR]).
  destruct fields as [|kv fields]; [reflexivity|].
  rewrite Split_lines;
    [|unfold lines; discriminate|exact HLF].
  apply foldl_parse. exact H.
Qed.

End authlines_facts.

(** Parsing a rendered body gives back the pairs: for pairs whose keys
    start with a plain character and hold no [=], whose keys and values
    hold no line break, and whose values end with a plain character,
    [parseAuthResponse] on their lines makes exactly the assignments of the
    pairs, in order; a later pair with the same key wins. *)
Theorem parseAuthResponse_reads_rendered (fields : list (string * string)) :
  forallb authlines.cleanPair fields = true ->
  auth.parseAuthResponse (authlines.render fields) = authlines.assign fields.
Proof. apply authlines_facts.foldl_parse_render. Qed.

Lemma parseAuthResponse_reads_rendered_witness :
  auth.parseAuthResponse
    (authlines.render [("Auth", "ya29.a b"); ("Email", "u@example.com");
                       ("Auth", "ya29.c")]%string)
  = authlines.assign [("Auth", "ya29.a b"); ("Email", "u@example.com");
                      ("Auth", "ya29.c")]%string.
Proof.
  apply (parseAuthResponse_reads_rendered
           [("Auth", "ya29.a b"); ("Email", "u@example.com");
            ("Auth", "ya29.c")]%string).
  vm_compute. reflexivity.
Defined.

(** ** From the body of the response to the stored account *)

Module endtoend_facts.
Import authlines.

Lemma assign_snoc (fields : list (string * string)) kv :
  assign (fields ++ [kv]) = auth.setField (assign fields) kv.1 kv.2.
Proof. unfold assign. rewrite foldl_app. reflexivity. Qed.

End endtoend_facts.

(** A status-200 answer to the master-token request whose body gives, among
    other clean lines, a last [Token] line and after it a last [Email] line
    with a non-empty address, logs the server in: [exchangeToken] stores
    exactly that token and that address, saves them, and records the
    address and no error. *)
Theorem exchange_reads_token_and_email
    (env : world.Env) (w : world.World) (cfg : config.Config)
    (state : server.ProxyState) (oauthToken : string)
    (resp : world.Response)
    (others : list (string * string)) (token email : string) :
  let fields := others ++ [("Token"%string, token); ("Email"%string, email)] in
  let cfg' := config.setAccount cfg token email in
  forallb authlines.cleanPair fields = true ->
  token <> EmptyString -> email <> EmptyString ->
  world.Do env (auth.authRequest cfg (auth.masterForm cfg oauthToken))
  = inr resp ->
  world.reader resp = inr (world.Data (authlines.render fields)) ->
  world.StatusCode resp = 200 ->
  world.WriteFile env cfg' = None ->
  server.exchangeToken env w cfg state oauthToken
  = (world.save
       (world.send w (auth.authRequest cfg (auth.masterForm cfg oauthToken)))
       cfg',
     cfg', server.SetResult state email "")
  /\ config.HasMasterToken cfg' = true.
Proof.
  intros fields cfg' Hclean Ht He Hdo Hrd Hs Hw.
  pose proof (shortcut_facts.exchangeToken_success env w cfg state oauthToken
                resp (authlines.render fields) Hdo Hrd Hs) as E.
  cbv zeta in E.
  assert (Hparse : auth.parseAuthResponse (authlines.render fields)
                   = auth.setField
                       (auth.setField (authlines.assign others) "Token" token)
                       "Email" email).
  { rewrite authlines_facts.foldl_parse_render by exact Hclean.
    unfold fields.
    change (others ++ [("Token"%string, token); ("Email"%string, email)])
      with (others ++ [("Token"%string, token)] ++ [("Email"%string, email)]).
    rewrite app_assoc, !endtoend_facts.assign_snoc. reflexivity. }
  rewrite Hparse in E.
  cbn [auth.setField auth.Token auth.Email auth.Auth String.eqb Ascii.eqb
       Bool.eqb] in E.
  apply String.eqb_neq in Ht. rewrite Ht in E.
  fold cfg' in E. rewrite Hw in E.
  split.
  - apply E. apply String.eqb_neq. exact Ht.
  - unfold config.HasMasterToken, cfg', config.setAccount, config.nonEmpty.
    cbn [config.MasterToken config.Email].
    apply String.eqb_neq in He. rewrite Ht, He. reflexivity.
Qed.

Lemma exchange_reads_token_and_email_witness :
  server.exchangeToken
    (samples.answering 200
       (authlines.render [("SID", "x"); ("Token", "aas_et/abc");
                          ("Email", "u@example.com")]%string))
    samples.nothingSent config.DefaultConfig server.NewProxyState "oauth2_4/x"
  = (world.save
       (world.send samples.nothingSent
          (auth.authRequest config.DefaultConfig
             (auth.masterForm config.DefaultConfig "oauth2_4/x")))
       (config.setAccount config.DefaultConfig "aas_et/abc" "u@example.com"),
     config.setAccount config.DefaultConfig "aas_et/abc" "u@example.com",
     server.SetResult server.NewProxyState "u@example.com" "")
  /\ config.HasMasterToken
       (config.setAccount config.DefaultConfig "aas_et/abc" "u@example.com")
     = true.
Proof.
  apply (exchange_reads_token_and_email
           (samples.answering 200
              (authlines.render [("SID", "x"); ("Token", "aas_et/abc");
                                 ("Email", "u@example.com")]%string))
           samples.nothingSent config.DefaultConfig server.NewProxyState
           "oauth2_4/x"
           {| world.StatusCode := 200; world.ContentEncoding := "";
              world.Raw :=
                world.Data
                  (authlines.render [("SID", "x"); ("Token", "aas_et/abc");
                                     ("Email", "u@example.com")]%string);
              world.Gzip := inl "not gzip"%string |}
           [("SID", "x")]%string "aas_et/abc" "u@example.com").
  - vm_compute. reflexivity.
  - discriminate.
  - discriminate.
  - reflexivity.
  - reflexivity.
  - reflexivity.
  - reflexivity.
Defined.

(** ** Encoding by field number *)

Module raw_facts.
Import binary proto wire conformance proto_facts encode_facts accept_facts.



Section ext.
Variables rec1 rec2 : list byte -> Message -> MessageType -> outcome (list byte).




End ext.



#[local] Instance Itoa_inj : Inj (=) (=) strconv.Itoa.
Proof. unfold strconv.Itoa. apply _. Qed.

Section keys.
Variable msg : gmap Z value.
Hypothesis Hrange : forall k v, msg !! k = Some v -> 0 <= k < 2 ^ 63.



End keys.


End raw_facts.

(** [Encode] on a message of finite nesting.  A message here is a finite
    tree of values; a Go map that contains itself, directly or through
    other maps, is no such tree and is not covered: on it the recursion of
    the encoder has no end.  On every message that is such a tree, and
    every schema, [Encode] returns, with bytes or with an error.  Which of
    the two it returns depends only on the keys and the dynamic types of
    the values: it succeeds exactly when every key parses as a number,
    every field with a schema entry holds a value (or, if repeated, items)
    of the declared type, every field without one a value of a supported
    type, and so on inside nested messages. *)
Theorem Encode_accepts_exactly
    (message : proto.Message) (schema : proto.MessageType) :
  if conformance.conforms message schema
  then exists encoded, proto.Encode message schema = Ok encoded
  else exists e, proto.Encode message schema = Err e.
Proof. apply accept_facts.Encode_decides. Qed.



(** ** Redirects through the proxy *)

Module redirect_facts.
Import gostrings cookie_facts strings_facts proxy_facts authlines
       authlines_facts proxy.

Lemma Index_from_step (c : ascii) (s pat : string) (i : Z) :
  String.prefix pat (String c s) = false ->
  Index_from (String c s) pat i = Index_from s pat (i + 1).
Proof. intros H. cbn [Index_from]. rewrite H. reflexivity. Qed.

(** No match starts inside a part that lacks the first character. *)
Lemma Index_from_skip (c : ascii) (pat' a b : string) : forall i,
  lacks c a = true ->
  Index_from (a +:+ b) (String c pat') i
  = Index_from b (String c pat') (i + strlen a).
Proof.
  unfold strlen. induction a as [|x a IH]; intros i H.
  - rewrite append_nil. cbn [String.length]. f_equal. lia.
  - rewrite lacks_cons in H. apply andb_true_iff in H as [Hx Ha].
    rewrite append_cons. cbn [Index_from String.prefix].
    destruct (Ascii.ascii_dec c x) as [<-|Hne].
    + rewrite Ascii.eqb_refl in Hx. discriminate Hx.
    + rewrite IH by exact Ha. cbn [String.length]. f_equal. lia.
Qed.

(** Where the search starts counting does not change what it finds. *)
Lemma Index_from_rel (pat : string) : forall s i j,
  (Index_from s pat i = -1 /\ Index_from s pat j = -1)
  \/ (exists k, 0 <= k /\ Index_from s pat i = i + k
                /\ Index_from s pat j = j + k).
Proof.
  induction s as [|c s IH]; intros i j; cbn [Index_from].
  - destruct (String.prefix pat ""); [right; exists 0; lia|left; auto].
  - destruct (String.prefix pat (String c s)); [right; exists 0; lia|].
    destruct (IH (i + 1) (j + 1)) as [H|(k & Hk & H1 & H2)]; [left; exact H|].
    right. exists (k + 1). lia.
Qed.

Lemma Index_from_absent (pat s : string) (i : Z) :
  Contains s pat = false -> Index_from s pat i = -1.
Proof.
  unfold Contains, Index. intros H. apply Z.leb_gt in H.
  destruct (Index_from_rel pat s i 0) as [[E _]|(k & Hk & _ & E)];
    [exact E|lia].
Qed.

Lemma digits_lack_h (s : string) : forall acc n,
  strconv.digits s acc = Some n -> lacks "h" s = true.
Proof.
  induction s as [|c s IH]; intros acc n H; [reflexivity|].
  cbn [strconv.digits] in H. rewrite lacks_cons.
  destruct (strconv.digit c) as [d|] eqn:Ed; [|discriminate].
  rewrite (IH _ _ H), andb_true_r.
  destruct (Ascii.eqb c "h") eqn:E; [|reflexivity].
  apply Ascii.eqb_eq in E. subst c. discriminate Ed.
Qed.

Lemma Itoa_lacks_h (port : Z) :
  0 <= port -> lacks "h" (strconv.Itoa port) = true.
Proof.
  intros H. destruct port as [|p|p]; [reflexivity| |lia].
  unfold strconv.Itoa, pretty, pretty_Z, pretty, pretty_positive, pretty,
    pretty_N. rewrite decide_False by discriminate.
  destruct (strconv_facts.digits_pretty_N_go (N.pos p) "") as (k & _ & Hd).
  eapply digits_lack_h. rewrite (Hd 0). reflexivity.
Qed.

(** The rewritten prefix holds no Google URL of its own. *)
Lemma Index_base (port : Z) (rest : string) :
  0 <= port ->
  Contains rest "http://accounts.google.com" = false ->
  Index (base port +:+ "/glogin" +:+ rest) "http://accounts.google.com" = -1.
Proof.
  intros Hp Hrest. unfold Index, base.
  rewrite append_assoc.
  rewrite !append_cons, !append_nil.
  repeat (rewrite Index_from_step by reflexivity).
  rewrite Index_from_skip by (apply Itoa_lacks_h; exact Hp).
  repeat (rewrite Index_from_step by reflexivity).
  apply Index_from_absent. exact Hrest.
Qed.

Lemma Replace1_prefix (pre new rest : string) :
  pre <> new -> Replace1 (pre +:+ rest) pre new = new +:+ rest.
Proof.
  intros Hne. unfold Replace1. apply String.eqb_neq in Hne. rewrite Hne.
  assert (Hi : Index (pre +:+ rest) pre = 0).
  { unfold Index. destruct (pre +:+ rest) eqn:E.
    - cbn [Index_from]. rewrite <- E, prefix_refl_app. reflexivity.
    - cbn [Index_from]. rewrite <- E, prefix_refl_app. reflexivity. }
  rewrite Hi. cbn [Z.ltb Z.compare]. unfold upto, from, strlen.
  cbn [Z.to_nat String.substring]. rewrite Z.add_0_l, Nat2Z.id.
  change (Z.to_nat 0) with 0%nat.
  assert (E0 : String.substring 0 0 (pre +:+ rest) = EmptyString)
    by (destruct (pre +:+ rest); reflexivity).
  rewrite E0, append_nil, substring_skip, length_append.
  replace (String.length pre + String.length rest - String.length pre)%nat
    with (String.length rest) by lia.
  rewrite substring_all. reflexivity.
Qed.

Lemma Replace1_absent (s old new : string) :
  Index s old = -1 -> Replace1 s old new = s.
Proof.
  intros H. unfold Replace1. rewrite H.
  destruct (String.eqb old new); reflexivity.
Qed.

End redirect_facts.

(** A redirect to the account pages is sent through the proxy and comes
    back to where it pointed: the [Location] [https://accounts.google.com]
    followed by a path and an optional query is rewritten to the proxy's
    [/glogin] followed by the same path and query, and the request for that
    path and query is forwarded to the original URL. *)
Theorem redirect_comes_back (port : Z) (path rawQuery : string) :
  let query := if String.eqb rawQuery "" then ""%string
               else "?" +:+ rawQuery in
  0 <= port ->
  path <> EmptyString ->
  gostrings.Contains (path +:+ query) "http://accounts.google.com" = false ->
  proxy.rewriteGoogleURL ("https://accounts.google.com" +:+ path +:+ query)
                         port
  = proxy.base port +:+ "/glogin" +:+ path +:+ query
  /\ proxy.googleUpstream ("/glogin" +:+ path) rawQuery
     = "https://accounts.google.com" +:+ path +:+ query.
Proof.
  intros query Hport Hpath Hclean. split.
  - unfold proxy.rewriteGoogleURL. cbv zeta.
    rewrite redirect_facts.Replace1_prefix.
    + rewrite proxy_facts.append_assoc.
      apply redirect_facts.Replace1_absent.
      apply redirect_facts.Index_base; assumption.
    + unfold proxy.base. discriminate.
  - unfold proxy.googleUpstream. rewrite cookie_facts.TrimPrefix_app.
    apply String.eqb_neq in Hpath. rewrite Hpath. unfold query.
    destruct (String.eqb rawQuery ""); cbn [negb].
    + rewrite proxy_facts.append_nil_r. reflexivity.
    + rewrite proxy_facts.append_assoc. reflexivity.
Qed.

Lemma redirect_comes_back_witness :
  proxy.rewriteGoogleURL
    ("https://accounts.google.com" +:+ "/signin/v2" +:+ "?" +:+ "hl=en") 8080
  = proxy.base 8080 +:+ "/glogin" +:+ "/signin/v2" +:+ "?" +:+ "hl=en"
  /\ proxy.googleUpstream ("/glogin" +:+ "/signin/v2") "hl=en"
     = "https://accounts.google.com" +:+ "/signin/v2" +:+ "?" +:+ "hl=en".
Proof.
  apply (redirect_comes_back 8080 "/signin/v2" "hl=en").
  - lia.
  - discriminate.
  - vm_compute. reflexivity.
Defined.

(** ** The proxy's cookie scan and the cookie reader *)

Module scan_facts.
Import gostrings substrings cookie_facts strings_facts proxy_facts
       authlines_facts.

Lemma occursIn_refl s : occursIn s s.
Proof. exists EmptyString, EmptyString. rewrite append_nil, append_nil_r. reflexivity. Qed.

Lemma occursIn_trans t u s : occursIn t u -> occursIn u s -> occursIn t s.
Proof.
  intros (a & b & ->) (c & d & ->). exists (c +:+ a), (b +:+ d).
  rewrite !append_assoc. reflexivity.
Qed.

Lemma occursIn_left t s a : occursIn t s -> occursIn t (a +:+ s).
Proof.
  intros (c & d & ->). exists (a +:+ c), d. rewrite !append_assoc. reflexivity.
Qed.

(** Bytes and strings. *)
Lemma of_bytes_app (a b : list Z) : of_bytes (a ++ b) = of_bytes a +:+ of_bytes b.
Proof.
  unfold of_bytes. induction a as [|x a IH]; [reflexivity|].
  cbn [app map string_of_list_ascii]. rewrite append_cons, IH. reflexivity.
Qed.

Lemma occursIn_bytes (s : string) (a r b : list Z) :
  utf8.bytes s = a ++ r ++ b -> occursIn (of_bytes r) s.
Proof.
  intros E. exists (of_bytes a), (of_bytes b).
  rewrite <- !of_bytes_app, <- E, of_bytes_bytes. reflexivity.
Qed.

Lemma TrimSpace_start_suffix (s : list Z) :
  exists a, s = a ++ (TrimSpace_start s).1.
Proof.
  induction s as [|c s IH]; [exists []; reflexivity|].
  cbn [TrimSpace_start]. destruct (utf8.RuneSelf <=? c); [exists []; reflexivity|].
  destruct (asciiSpace c); [|exists []; reflexivity].
  destruct IH as [a E]. exists (c :: a). cbn [app]. rewrite <- E. reflexivity.
Qed.

Lemma TrimLeftSpace_suffix (n : nat) : forall s,
  exists a, s = a ++ TrimLeftSpace n s.
Proof.
  induction n as [|n IH]; intros s; [exists []; reflexivity|].
  cbn [TrimLeftSpace]. destruct s as [|c s]; [exists []; reflexivity|].
  destruct (utf8.DecodeRune (c :: s)) as [r size].
  destruct (unicode.IsSpace r); [|exists []; reflexivity].
  destruct (IH (drop (Z.to_nat size) (c :: s))) as [a E].
  exists (take (Z.to_nat size) (c :: s) ++ a).
  rewrite <- List.app_assoc, <- E, take_drop. reflexivity.
Qed.

Lemma TrimRightSpace_prefix (n : nat) : forall s,
  exists b, s = TrimRightSpace n s ++ b.
Proof.
  induction n as [|n IH]; intros s; [exists []; rewrite app_nil_r; reflexivity|].
  cbn [TrimRightSpace]. destruct s as [|c s]; [exists []; reflexivity|].
  destruct (utf8.DecodeLastRune (c :: s)) as [r size].
  destruct (unicode.IsSpace r); [|exists []; rewrite app_nil_r; reflexivity].
  set (k := (length (c :: s) - Z.to_nat size)%nat).
  destruct (IH (take k (c :: s))) as [b E].
  exists (b ++ drop k (c :: s)).
  rewrite List.app_assoc, <- E, take_drop. reflexivity.
Qed.

Lemma removelast_last {A} (s : list A) (c : A) :
  last s = Some c -> s = removelast s ++ [c].
Proof.
  induction s as [|x s IH]; [discriminate|].
  destruct s as [|y s]; [intros [= ->]; reflexivity|].
  intros H. change (removelast (x :: y :: s)) with (x :: removelast (y :: s)).
  cbn [app]. f_equal. apply IH. exact H.
Qed.

Lemma TrimSpace_stop_prefix (n : nat) : forall s,
  exists b, s = TrimSpace_stop n s ++ b.
Proof.
  induction n as [|n IH]; intros s; [exists []; rewrite app_nil_r; reflexivity|].
  cbn [TrimSpace_stop]. destruct (last s) as [c|] eqn:El;
    [|exists []; rewrite app_nil_r; reflexivity].
  destruct (utf8.RuneSelf <=? c); [apply TrimRightSpace_prefix|].
  destruct (asciiSpace c); [|exists []; rewrite app_nil_r; reflexivity].
  destruct (IH (removelast s)) as [b E].
  exists (b ++ [c]). rewrite List.app_assoc, <- E. apply removelast_last. exact El.
Qed.

Lemma TrimSpace_occursIn (s : string) : occursIn (TrimSpace s) s.
Proof.
  unfold TrimSpace.
  destruct (TrimSpace_start_suffix (utf8.bytes s)) as [a Ea].
  destruct (TrimSpace_start (utf8.bytes s)) as [t slow]. cbn [fst] in Ea.
  destruct slow.
  - destruct (TrimLeftSpace_suffix (length t) t) as [a2 E2].
    destruct (TrimRightSpace_prefix (length t) (TrimLeftSpace (length t) t))
      as [b E3].
    apply (occursIn_bytes s (a ++ a2) _ b).
    rewrite <- List.app_assoc, <- E3, <- E2. exact Ea.
  - destruct (TrimSpace_stop_prefix (length t) t) as [b E2].
    apply (occursIn_bytes s a _ b). rewrite <- E2. exact Ea.
Qed.

(** The parts of a split occur in the string. *)
Lemma Split_occursIn (s : string) : forall cur e,
  e ∈ Split_from s ";" O cur ->
  occursIn e (string_of_list_ascii (rev cur) +:+ s).
Proof.
  induction s as [|c s IH]; intros cur e H.
  - cbn [Split_from] in H. apply list_elem_of_singleton in H. subst e.
    rewrite append_nil_r. apply occursIn_refl.
  - cbn [Split_from] in H.
    destruct (String.prefix ";" (String c s)) eqn:Ep.
    + change (String.length ";" - 1)%nat with O in H.
      apply elem_of_cons in H as [-> | H].
      * exists EmptyString, (String c s). rewrite append_nil. reflexivity.
      * apply occursIn_left. specialize (IH [] e H).
        cbn [rev string_of_list_ascii] in IH. rewrite append_nil in IH.
        destruct IH as (a & b & ->). exists (String c a), b. reflexivity.
    + specialize (IH (c :: cur) e H).
      rewrite string_of_rev_snoc, append_assoc in IH. exact IH.
Qed.

Lemma Index_from_nonneg_app (pat c : string) (a : string) : forall i,
  0 <= i -> 0 <= Index_from (a +:+ pat +:+ c) pat i.
Proof.
  induction a as [|x a IH]; intros i Hi.
  - rewrite append_nil. destruct (pat +:+ c) eqn:E; cbn [Index_from];
      rewrite <- E, prefix_refl_app; exact Hi.
  - rewrite append_cons. cbn [Index_from].
    destruct (String.prefix pat (String x (a +:+ pat +:+ c))); [exact Hi|].
    apply IH. lia.
Qed.

Lemma Contains_occursIn (t s pat : string) :
  occursIn t s -> HasPrefix t pat = true -> Contains s pat = true.
Proof.
  intros (a & b & ->) Hp. destruct (prefix_app _ _ Hp) as [r ->].
  unfold Contains, Index. apply Z.leb_le.
  rewrite (append_assoc pat r b). apply Index_from_nonneg_app. lia.
Qed.

(** The reader's loop takes the first of the values the scan collects. *)
Lemma loop_first (parts : list string) :
  login.ParseOAuthFromCookies_loop parts
  = hd EmptyString
       (omap (fun part =>
                let part := TrimSpace part in
                if HasPrefix part "oauth_token="
                then Some (TrimPrefix part "oauth_token=")
                else None) parts).
Proof.
  induction parts as [|p parts IH]; [reflexivity|].
  cbn [login.ParseOAuthFromCookies_loop omap list_omap]. cbv zeta.
  destruct (HasPrefix (TrimSpace p) "oauth_token="); [reflexivity|exact IH].
Qed.

Lemma scan_none (sc : string) :
  Contains sc "oauth_token=" = false ->
  omap (fun part =>
          let part := TrimSpace part in
          if HasPrefix part "oauth_token="
          then Some (TrimPrefix part "oauth_token=")
          else None) (Split sc ";") = [].
Proof.
  intros Hc. unfold Split.
  assert (H : forall e, e ∈ Split_from sc ";" O [] ->
                        HasPrefix (TrimSpace e) "oauth_token=" = false).
  { intros e He. destruct (HasPrefix (TrimSpace e) "oauth_token=") eqn:Hp;
      [|reflexivity].
    apply Split_occursIn in He. cbn [rev string_of_list_ascii] in He.
    rewrite append_nil in He.
    pose proof (Contains_occursIn _ _ _
                  (occursIn_trans _ _ _ (TrimSpace_occursIn e) He) Hp).
    congruence. }
  induction (Split_from sc ";" O []) as [|e l IH]; [reflexivity|].
  cbn [omap list_omap]. cbv zeta. rewrite (H e) by constructor.
  apply IH. intros e' He'. apply H. constructor. exact He'.
Qed.

End scan_facts.

(** The cookie reader and the proxy's scan of one [Set-Cookie] header.
    [ParseOAuthFromCookies] returns the first value the scan collects, empty
    or not, and the empty string when the scan collects none; the scan's
    test for ["oauth_token="] in the whole header never hides a value.  The
    proxy offers for capture the collected values that are not empty, in
    order.  So whenever the reader returns a non-empty token, it is the
    first token the proxy offers; the two part when an empty value comes
    first: on ["oauth_token=; oauth_token=second"] the reader returns the
    empty string and the proxy offers ["second"]. *)
Theorem cookie_reader_and_proxy_scan :
  (forall sc : string,
     login.ParseOAuthFromCookies sc = hd EmptyString (server.cookieTokens sc)
     /\ server.cookieTokens sc
        = omap (fun part =>
                  let part := gostrings.TrimSpace part in
                  if gostrings.HasPrefix part "oauth_token="
                  then Some (gostrings.TrimPrefix part "oauth_token=")
                  else None) (gostrings.Split sc ";")
     /\ server.offeredTokens [sc]
        = filter (fun token => token <> EmptyString) (server.cookieTokens sc)
     /\ (login.ParseOAuthFromCookies sc <> EmptyString ->
         hd EmptyString (server.offeredTokens [sc])
         = login.ParseOAuthFromCookies sc))
  /\ login.ParseOAuthFromCookies "oauth_token=; oauth_token=second"
     = EmptyString
  /\ server.offeredTokens ["oauth_token=; oauth_token=second"%string]
     = ["second"%string].
Proof.
  split; [|split; vm_compute; reflexivity].
  intros sc.
  assert (E : server.cookieTokens sc
     = omap (fun part =>
               let part := gostrings.TrimSpace part in
               if gostrings.HasPrefix part "oauth_token="
               then Some (gostrings.TrimPrefix part "oauth_token=")
               else None) (gostrings.Split sc ";")).
  { unfold server.cookieTokens.
    destruct (gostrings.Contains sc "oauth_token=") eqn:Hc; [reflexivity|].
    symmetry. apply scan_facts.scan_none. exact Hc. }
  assert (R : login.ParseOAuthFromCookies sc
              = hd EmptyString (server.cookieTokens sc)).
  { rewrite E. apply scan_facts.loop_first. }
  assert (O : server.offeredTokens [sc]
              = filter (fun token => token <> EmptyString)
                       (server.cookieTokens sc)).
  { unfold server.offeredTokens. cbn [map concat]. rewrite app_nil_r.
    reflexivity. }
  split; [exact R|]. split; [exact E|]. split; [exact O|].
  rewrite O, R. destruct (server.cookieTokens sc) as [|token rest];
    cbn [hd]; [congruence|].
  intros Hne. rewrite filter_cons. destruct (decide (token <> EmptyString));
    [reflexivity|contradiction].
Qed.

Lemma cookie_reader_and_proxy_scan_witness :
  hd EmptyString (server.offeredTokens ["a=b; oauth_token=first"%string])
  = login.ParseOAuthFromCookies "a=b; oauth_token=first".
Proof.
  apply (proj1 cookie_reader_and_proxy_scan "a=b; oauth_token=first"%string).
  vm_compute. discriminate.
Defined.
